(** * State-checkpointing engine of the watcher: IPLD blocks, staging,
      finalization and checkpoint compaction

    A shallow embedding of [Indexer] (the generated watcher's indexer:
    [prepareIPLDBlock], [createDiffStaged], [createDiff],
    [finalizeDiffStaged], [processCanonicalBlock], [createCheckpoint],
    [processCheckpoint], [processCLICheckpoint], [getIPLDBlocksByHash]), of
    the state helpers of [ipld-helper] and of the library functions they are
    built on: lodash's [_.merge], [_.set] and [_.setWith], the dag-cbor codec,
    SHA-256 and CID strings. *)

From Stdlib Require Import ZArith List String Ascii Bool Lia Permutation Sorted.
From Stdlib Require OrderedTypeEx.
From Stdlib.Strings Require Import Byte.
From stdpp Require Import base tactics option list strings.
Import ListNotations.
Local Open Scope string_scope.
Local Open Scope Z_scope.
Local Open Scope list_scope.
Set Warnings "-register-all".

(** ** Outcomes

    A call returns, throws, or builds a JavaScript value that the data model
    below cannot hold (an array that carries named properties, a boxed
    primitive): [Exotic] marks the last case, so that nothing is claimed
    about it. *)

Inductive error : Type :=
| AssertionError (msg : string)
| TypeError (msg : string)
| CodecError (msg : string).

Inductive result (A : Type) : Type :=
| Ok (a : A)
| Throw (e : error)
| Exotic.
Arguments Ok {A} a.
Arguments Throw {A} e.
Arguments Exotic {A}.

Definition rbind {A B} (r : result A) (f : A -> result B) : result B :=
  match r with
  | Ok a => f a
  | Throw e => Throw e
  | Exotic => Exotic
  end.

Definition rmap {A B} (f : A -> B) (r : result A) : result B :=
  rbind r (fun a => Ok (f a)).

Declare Scope result_scope.
Delimit Scope result_scope with result.
Notation "'let?' x := r 'in' k" := (rbind r (fun x => k))
  (at level 10, x pattern, r at level 100, k at level 200) : result_scope.
Local Open Scope result_scope.

(** ** Values

    The payloads are the JSON-like part of the IPLD data model, and
    [undefined]: null, booleans, integers (a JS number that is a safe integer,
    or a BigInt), strings, arrays and plain objects.  An object is the list of
    its own properties in insertion order; a JS object holds a key once
    ([wf]).  JS enumerates integer-like keys first; the functions below depend
    on the order of keys only for the order of the keys of their result. *)

Inductive value : Type :=
| VUndef
| VNull
| VBool (b : bool)
| VInt (z : Z)
| VStr (s : string)
| VArr (elems : list value)
| VObj (props : list (string * value)).

Abbreviation props := (list (string * value)).

(** The own property [k] of an object, [None] when there is none. *)
Fixpoint prop_get {A} (k : string) (o : list (string * A)) : option A :=
  match o with
  | [] => None
  | (k', v) :: o' => if String.eqb k k' then Some v else prop_get k o'
  end.

(** [object[key] = v]: an own property keeps its place, a new one is added
    last. *)
Fixpoint prop_set {A} (k : string) (v : A) (o : list (string * A)) : list (string * A) :=
  match o with
  | [] => [(k, v)]
  | (k', v') :: o' =>
      if String.eqb k k' then (k, v) :: o' else (k', v') :: prop_set k v o'
  end.

Definition keys {A} (o : list (string * A)) : list string := map fst o.

(** A JS object has no two properties of one name, at any depth. *)
Inductive wf : value -> Prop :=
| wf_undef : wf VUndef
| wf_null : wf VNull
| wf_bool b : wf (VBool b)
| wf_int z : wf (VInt z)
| wf_str s : wf (VStr s)
| wf_arr l : Forall wf l -> wf (VArr l)
| wf_obj o : NoDup (keys o) -> Forall (fun kv => wf (snd kv)) o -> wf (VObj o).

Fixpoint nodupb (l : list string) : bool :=
  match l with
  | [] => true
  | x :: l' => negb (existsb (String.eqb x) l') && nodupb l'
  end.

Fixpoint wfb (v : value) : bool :=
  match v with
  | VArr l => forallb wfb l
  | VObj o => nodupb (keys o) && forallb (fun kv => wfb (snd kv)) o
  | _ => true
  end.

(** ** lodash [_.merge]

    [baseMerge] walks the source's keys; a source value that is an array or a
    plain object goes through [baseMergeDeep], which merges it into the
    destination's value when that is of the same sort and into a fresh [[]] or
    [{}] otherwise; any other source value is assigned ([assignMergeValue]),
    [undefined] only to a key the destination does not have.
    [baseMergeDeep objValue srcValue] is the value the key holds afterwards,
    [objValue] being [None] when the destination has no such key. *)

(** The names an object inherits from [Object.prototype].  Under one of
    them [key in object] holds and [object[key]] is the inherited member when
    the object has no such property of its own, and [__proto__] is not
    assigned as other keys are; the merge of a source that has such a key is
    left out ([Exotic]). *)
Definition inherited : list string :=
  ["__proto__"; "constructor"; "hasOwnProperty"; "isPrototypeOf";
   "propertyIsEnumerable"; "toLocaleString"; "toString"; "valueOf";
   "__defineGetter__"; "__defineSetter__"; "__lookupGetter__"; "__lookupSetter__"].

Definition own_name (k : string) : bool := negb (existsb (String.eqb k) inherited).

(** [isArrayLikeObject(objValue)] for a destination value that is not an
    array: an object whose [length] is a number that [isLength] accepts.
    [copyArray] then makes an array of that length of it. *)
Definition isArrayLikeObject (objValue : option value) : bool :=
  match objValue with
  | Some (VObj dst) =>
      match prop_get "length" dst with
      | Some (VInt n) => (0 <=? n) && (n <=? 2 ^ 53 - 1)
      | _ => false
      end
  | _ => false
  end.

Fixpoint baseMergeDeep (objValue : option value) (srcValue : value)
    {struct srcValue} : result value :=
  match srcValue with
  | VArr src =>
      let fix elems (dst src : list value) {struct src} : result (list value) :=
        match src with
        | [] => Ok dst
        | s :: src' =>
            match dst with
            | [] =>
                let? v := baseMergeDeep None s in
                let? r := elems [] src' in Ok (v :: r)
            | d :: dst' =>
                let? v := baseMergeDeep (Some d) s in
                let? r := elems dst' src' in Ok (v :: r)
            end
        end in
      match objValue with
      | Some (VArr dst) => rmap VArr (elems dst src)
      | _ => if isArrayLikeObject objValue then Exotic else rmap VArr (elems [] src)
      end
  | VObj src =>
      let fix own (dst : props) (src : props) {struct src} : result props :=
        match src with
        | [] => Ok dst
        | (k, s) :: src' =>
            if own_name k then
              let? v := baseMergeDeep (prop_get k dst) s in
              own (prop_set k v dst) src'
            else Exotic
        end in
      match objValue with
      | Some (VObj dst) => rmap VObj (own dst src)
      | Some (VArr dst) =>
          match src with
          | [] => Ok (VArr dst)
          | _ :: _ => Exotic
          end
      | _ => rmap VObj (own [] src)
      end
  | VUndef =>
      match objValue with
      | Some v => Ok v
      | None => Ok VUndef
      end
  | _ => Ok srcValue
  end.

(** [baseMerge] into an array, index by index. *)
Fixpoint mergeElems (dst src : list value) {struct src} : result (list value) :=
  match src with
  | [] => Ok dst
  | s :: src' =>
      match dst with
      | [] =>
          let? v := baseMergeDeep None s in
          let? r := mergeElems [] src' in Ok (v :: r)
      | d :: dst' =>
          let? v := baseMergeDeep (Some d) s in
          let? r := mergeElems dst' src' in Ok (v :: r)
      end
  end.

(** [baseMerge] into a plain object, key by key. *)
Fixpoint mergeProps (dst src : props) {struct src} : result props :=
  match src with
  | [] => Ok dst
  | (k, s) :: src' =>
      if own_name k then
        let? v := baseMergeDeep (prop_get k dst) s in
        mergeProps (prop_set k v dst) src'
      else Exotic
  end.

(** No map of the value, at any depth, has a key of an inherited name. *)
Fixpoint plainb (v : value) : bool :=
  match v with
  | VArr l => forallb plainb l
  | VObj o => forallb (fun kv => own_name (fst kv) && plainb (snd kv)) o
  | _ => true
  end.

Definition plain (v : value) : Prop := plainb v = true.

(** JS truthiness, for [if (source)] in lodash's [createAssigner]. *)
Definition truthy (v : value) : bool :=
  match v with
  | VUndef | VNull | VBool false | VInt 0 | VStr "" => false
  | _ => true
  end.

(** [Object(object)]: [undefined] and [null] become [{}], a primitive would
    be boxed. *)
Definition toObject (object : value) : result value :=
  match object with
  | VUndef | VNull => Ok (VObj [])
  | VArr l => Ok (VArr l)
  | VObj o => Ok (VObj o)
  | _ => Exotic
  end.

(** [baseMerge(object, source)] for one source of [_.merge], which skips a
    falsy one; [true] and a number have no keys, a string's keys are its
    indices. *)
Definition baseMerge (object source : value) : result value :=
  if truthy source then
    match source with
    | VArr src =>
        match object with
        | VArr dst => rmap VArr (mergeElems dst src)
        | _ => match src with [] => Ok object | _ :: _ => Exotic end
        end
    | VObj src =>
        match object with
        | VObj dst => rmap VObj (mergeProps dst src)
        | _ => match src with [] => Ok object | _ :: _ => Exotic end
        end
    | VStr _ => Exotic
    | _ => Ok object
    end
  else Ok object.

(** [_.merge(object, source)] *)
Definition merge (object source : value) : result value :=
  let? object := toObject object in baseMerge object source.

Module MergeExamples.
Definition a : props := [("xs", VArr [VInt 1; VInt 2; VInt 3]); ("n", VInt 0)].
Definition b : props := [("xs", VArr [VInt 9])].
Definition ab : props := [("xs", VArr [VInt 9; VInt 2; VInt 3]); ("n", VInt 0)].
(** The same object, its keys added in two orders. *)
Definition p : value := VObj [("balance", VInt 50); ("owner", VStr "a")].
Definition q : value := VObj [("owner", VStr "a"); ("balance", VInt 50)].
End MergeExamples.

(** ** The dag-cbor codec

    [codec.encode] writes CBOR with definite lengths and the shortest
    integer heads; the entries of a map are ordered by their encoded keys,
    shorter keys first and keys of one length bytewise ([mapSorter]).  A
    string is held here as its UTF-8 bytes.  [None] is a throw: [undefined]
    is not in the IPLD data model, and an integer needs 64 bits at most. *)

Definition bytes := list byte.

Definition byte_of_Z (z : Z) : byte :=
  match Byte.of_N (Z.to_N (z mod 256)) with
  | Some b => b
  | None => x00
  end.

Definition Z_of_byte (b : byte) : Z := Z.of_N (Byte.to_N b).

(** The [n] low bytes of [z], most significant first. *)
Fixpoint be_bytes (n : nat) (z : Z) : bytes :=
  match n with
  | O => []
  | S n' => be_bytes n' (z / 256) ++ [byte_of_Z z]
  end.

(** The head of a data item: major type and argument.  An argument of 64
    bits or more has no encoding. *)
Definition cbor_head (major n : Z) : option bytes :=
  if n <? 24 then Some [byte_of_Z (major * 32 + n)]
  else if n <? 2 ^ 8 then Some (byte_of_Z (major * 32 + 24) :: be_bytes 1 n)
  else if n <? 2 ^ 16 then Some (byte_of_Z (major * 32 + 25) :: be_bytes 2 n)
  else if n <? 2 ^ 32 then Some (byte_of_Z (major * 32 + 26) :: be_bytes 4 n)
  else if n <? 2 ^ 64 then Some (byte_of_Z (major * 32 + 27) :: be_bytes 8 n)
  else None.

Definition len {A} (l : list A) : Z := Z.of_nat (List.length l).

Definition encode_string (s : string) : option bytes :=
  h ← cbor_head 3 (Z.of_nat (String.length s));
  Some (h ++ list_byte_of_string s).

(** Order of two map keys: by length, then bytewise. *)
Definition key_leb (a b : string) : bool :=
  if (String.length a <? String.length b)%nat then true
  else if (String.length b <? String.length a)%nat then false
  else String.leb a b.

(** A stable sort, as [Array.prototype.sort] and [ORDER BY] on rows in
    creation order are: an element goes in front of the first one it is not
    above. *)
Section Sorting.
Context {A : Type} (leb : A -> A -> bool).

Fixpoint insert_by (x : A) (l : list A) : list A :=
  match l with
  | [] => [x]
  | y :: l' => if leb x y then x :: l else y :: insert_by x l'
  end.

Fixpoint sort_by (l : list A) : list A :=
  match l with
  | [] => []
  | x :: l' => insert_by x (sort_by l')
  end.
End Sorting.

Definition entry_leb {A} (a b : string * A) : bool := key_leb (fst a) (fst b).
Definition sort_entries {A} (l : list (string * A)) : list (string * A) :=
  sort_by entry_leb l.

Fixpoint encode (v : value) {struct v} : option bytes :=
  match v with
  | VUndef => None
  | VNull => Some [xf6]
  | VBool false => Some [xf4]
  | VBool true => Some [xf5]
  | VInt z => if 0 <=? z then cbor_head 0 z else cbor_head 1 (- 1 - z)
  | VStr s => encode_string s
  | VArr l =>
      let fix items (l : list value) : option bytes :=
        match l with
        | [] => Some []
        | x :: l' => b ← encode x; r ← items l'; Some (b ++ r)
        end in
      h ← cbor_head 4 (len l);
      body ← items l;
      Some (h ++ body)
  | VObj o =>
      let fix entries (o : props) : option (list (string * bytes)) :=
        match o with
        | [] => Some []
        | (k, x) :: o' =>
            kb ← encode_string k; b ← encode x; r ← entries o';
            Some ((k, kb ++ b) :: r)
        end in
      h ← cbor_head 5 (len o);
      es ← entries o;
      Some (h ++ concat (map snd (sort_entries es)))
  end.

Fixpoint encode_items (l : list value) : option bytes :=
  match l with
  | [] => Some []
  | x :: l' => b ← encode x; r ← encode_items l'; Some (b ++ r)
  end.

Fixpoint encode_entries (o : props) : option (list (string * bytes)) :=
  match o with
  | [] => Some []
  | (k, x) :: o' =>
      kb ← encode_string k; b ← encode x; r ← encode_entries o';
      Some ((k, kb ++ b) :: r)
  end.

(** What [codec.decode] returns for the bytes of [v]: the same value with
    the entries of every map in the order the encoder wrote them. *)
Fixpoint canon (v : value) : value :=
  match v with
  | VArr l => VArr (map canon l)
  | VObj o => VObj (sort_entries (map (fun kv => (fst kv, canon (snd kv))) o))
  | _ => v
  end.

Definition canon_entry (kv : string * value) : string * value :=
  (fst kv, canon (snd kv)).

(** Structural equality: the same scalars, arrays of structurally equal
    elements, and objects with the same keys that hold structurally equal
    values, whatever the order the keys were added in. *)
Inductive struct_eq : value -> value -> Prop :=
| se_undef : struct_eq VUndef VUndef
| se_null : struct_eq VNull VNull
| se_bool b : struct_eq (VBool b) (VBool b)
| se_int z : struct_eq (VInt z) (VInt z)
| se_str s : struct_eq (VStr s) (VStr s)
| se_arr l1 l2 : Forall2 struct_eq l1 l2 -> struct_eq (VArr l1) (VArr l2)
| se_obj o1 o2 :
    (forall k, option_Forall2 struct_eq (prop_get k o1) (prop_get k o2)) ->
    struct_eq (VObj o1) (VObj o2).

Definition hex_of_bytes (bs : bytes) : list Z := map Z_of_byte bs.

(** ** SHA-256 (FIPS 180-4), for [sha256.digest] *)

Module SHA256.
Definition w32 (x : Z) : Z := x mod 2 ^ 32.
Definition add32 (x y : Z) : Z := w32 (x + y).
Definition rotr (n x : Z) : Z := Z.lor (Z.shiftr x n) (w32 (Z.shiftl x (32 - n))).
Definition not32 (x : Z) : Z := Z.lxor x 0xffffffff.

Definition Ch (x y z : Z) : Z := Z.lxor (Z.land x y) (Z.land (not32 x) z).
Definition Maj (x y z : Z) : Z :=
  Z.lxor (Z.lxor (Z.land x y) (Z.land x z)) (Z.land y z).
Definition Sigma0 (x : Z) : Z := Z.lxor (Z.lxor (rotr 2 x) (rotr 13 x)) (rotr 22 x).
Definition Sigma1 (x : Z) : Z := Z.lxor (Z.lxor (rotr 6 x) (rotr 11 x)) (rotr 25 x).
Definition sigma0 (x : Z) : Z := Z.lxor (Z.lxor (rotr 7 x) (rotr 18 x)) (Z.shiftr x 3).
Definition sigma1 (x : Z) : Z := Z.lxor (Z.lxor (rotr 17 x) (rotr 19 x)) (Z.shiftr x 10).

(** The first 64 primes. *)
Definition primes : list Z :=
  [2; 3; 5; 7; 11; 13; 17; 19; 23; 29; 31; 37; 41; 43; 47; 53; 59; 61; 67; 71;
   73; 79; 83; 89; 97; 101; 103; 107; 109; 113; 127; 131; 137; 139; 149; 151;
   157; 163; 167; 173; 179; 181; 191; 193; 197; 199; 211; 223; 227; 229; 233;
   239; 241; 251; 257; 263; 269; 271; 277; 281; 283; 293; 307; 311].

(** The integer cube root, bit by bit from bit [bits - 1] down. *)
Fixpoint cube_root (bits : nat) (n : Z) (r : Z) : Z :=
  match bits with
  | O => r
  | S bits' =>
      let r' := r + 2 ^ Z.of_nat bits' in
      cube_root bits' n (if r' * r' * r' <=? n then r' else r)
  end.

(** The round constants: the first 32 bits of the fractional parts of the
    cube roots of the primes. *)
Definition K : list Z :=
  Eval vm_compute in map (fun p => w32 (cube_root 40 (p * 2 ^ 96) 0)) primes.

(** The initial hash value: the first 32 bits of the fractional parts of the
    square roots of the first eight primes. *)
Definition H0 : list Z :=
  Eval vm_compute in map (fun p => w32 (Z.sqrt (p * 2 ^ 64))) (firstn 8 primes).

(** The message, a [1] bit, zeros, and the bit length on 64 bits, up to a
    multiple of 64 bytes. *)
Definition pad (msg : bytes) : bytes :=
  let n := List.length msg in
  let zeros := ((64 - (n + 9) mod 64) mod 64)%nat in
  msg ++ x80 :: repeat x00 zeros ++ be_bytes 8 (8 * Z.of_nat n).

Definition word_of (b3 b2 b1 b0 : byte) : Z :=
  ((Z_of_byte b3 * 256 + Z_of_byte b2) * 256 + Z_of_byte b1) * 256 + Z_of_byte b0.

Fixpoint words (fuel : nat) (bs : bytes) : list Z :=
  match fuel, bs with
  | S fuel', b3 :: b2 :: b1 :: b0 :: bs' => word_of b3 b2 b1 b0 :: words fuel' bs'
  | _, _ => []
  end.

(** The message schedule, latest word first: [w] holds W(t-1), W(t-2), ... *)
Fixpoint schedule (n : nat) (w : list Z) : list Z :=
  match n with
  | O => w
  | S n' =>
      let at_ i := nth i w 0 in
      let wt := add32 (add32 (sigma1 (at_ 1%nat)) (at_ 6%nat))
                      (add32 (sigma0 (at_ 14%nat)) (at_ 15%nat)) in
      schedule n' (wt :: w)
  end.

Definition state : Type := Z * Z * Z * Z * Z * Z * Z * Z.

Definition round (s : state) (kw : Z * Z) : state :=
  let '(a, b, c, d, e, f, g, h) := s in
  let t1 := add32 (add32 (add32 h (Sigma1 e)) (add32 (Ch e f g) (fst kw))) (snd kw) in
  let t2 := add32 (Sigma0 a) (Maj a b c) in
  (add32 t1 t2, a, b, c, add32 d t1, e, f, g).

Definition compress (s : state) (block : list Z) : state :=
  let w := rev (schedule 48 (rev block)) in
  let '(a, b, c, d, e, f, g, h) := fold_left round (combine K w) s in
  let '(a0, b0, c0, d0, e0, f0, g0, h0) := s in
  (add32 a0 a, add32 b0 b, add32 c0 c, add32 d0 d,
   add32 e0 e, add32 f0 f, add32 g0 g, add32 h0 h).

Fixpoint blocks (fuel : nat) (s : state) (ws : list Z) : state :=
  match fuel, ws with
  | S fuel', _ :: _ => blocks fuel' (compress s (firstn 16 ws)) (skipn 16 ws)
  | _, _ => s
  end.

Definition init : state :=
  match H0 with
  | [a; b; c; d; e; f; g; h] => (a, b, c, d, e, f, g, h)
  | _ => (0, 0, 0, 0, 0, 0, 0, 0)
  end.

Definition digest (msg : bytes) : bytes :=
  let p := pad msg in
  let ws := words (List.length p) p in
  let '(a, b, c, d, e, f, g, h) := blocks (List.length ws) init ws in
  concat (map (be_bytes 4) [a; b; c; d; e; f; g; h]).
End SHA256.

(** ** Content identifiers

    [CID.create(1, codec.code, hash)] and its [toString()]: the multibase
    prefix [b] and the lower-case base32 (RFC 4648, no padding) of the
    version, the codec code, the multihash code and length, and the digest.
    The codes are below 128, so each is one varint byte. *)

Record CID : Type := mkCID {
  cid_version : Z;
  cid_code : Z;
  cid_digest : bytes
}.

Definition dag_cbor_code : Z := 0x71.
Definition sha2_256_code : Z := 0x12.

Definition CID_create (version code : Z) (hash : bytes) : CID :=
  {| cid_version := version; cid_code := code; cid_digest := hash |}.

Definition cid_bytes (c : CID) : bytes :=
  byte_of_Z (cid_version c) :: byte_of_Z (cid_code c)
  :: byte_of_Z sha2_256_code :: byte_of_Z (len (cid_digest c)) :: cid_digest c.

Definition bits_of_byte (b : byte) : list bool :=
  let z := Z_of_byte b in
  map (fun i => Z.testbit z i) [7; 6; 5; 4; 3; 2; 1; 0].

Definition base32_alphabet : string := "abcdefghijklmnopqrstuvwxyz234567".

Definition base32_char (bits : list bool) : ascii :=
  let i := fold_left (fun n (b : bool) => (2 * n + if b then 1 else 0)%nat) bits 0%nat in
  match String.get i base32_alphabet with
  | Some c => c
  | None => "a"%char
  end.

(** Five bits at a time; the last group is filled with zero bits. *)
Fixpoint base32_groups (fuel : nat) (bits : list bool) : string :=
  match fuel, bits with
  | S fuel', _ :: _ =>
      let g := firstn 5 bits in
      let g := g ++ repeat false (5 - List.length g) in
      String (base32_char g) (base32_groups fuel' (skipn 5 bits))
  | _, _ => EmptyString
  end.

Definition base32 (bs : bytes) : string :=
  let bits := concat (map bits_of_byte bs) in
  base32_groups (List.length bits) bits.

Definition cid_toString (c : CID) : string :=
  String "b"%char (base32 (cid_bytes c)).

(** ** Entities

    The entity classes ([./entity/BlockProgress], [./entity/SyncStatus],
    [./entity/IPLDBlock]) are not among the sources; each record has the
    fields the indexer reads and writes. *)

(** Modelled from the spec: a block, with its identifier, hash, number and
    completion mark. *)
Module BlockProgress.
Record t : Type := mk {
  cid : string;
  blockHash : string;
  blockNumber : Z;
  isComplete : bool
}.
End BlockProgress.

(** Modelled from the spec: the sync-status row, hash and number of the
    latest indexed block, the latest canonical block and the chain head. *)
Module SyncStatus.
Record t : Type := mk {
  latestIndexedBlockHash : string;
  latestIndexedBlockNumber : Z;
  latestCanonicalBlockHash : string;
  latestCanonicalBlockNumber : Z;
  chainHeadBlockHash : string;
  chainHeadBlockNumber : Z
}.
End SyncStatus.

(** Modelled from the spec: a row of the IPLD block table, with the fields
    [prepareIPLDBlock] assigns.  The [data] column holds the dag-cbor bytes of
    the payload and every reader decodes them first; the row keeps them
    decoded: [data] is [canon] of the payload that was encoded. *)
Module IPLDBlock.
Record t : Type := mk {
  block : BlockProgress.t;
  contractAddress : string;
  cid : string;
  kind : string;
  data : value
}.
End IPLDBlock.

Definition blockNumberOf (r : IPLDBlock.t) : Z :=
  BlockProgress.blockNumber (IPLDBlock.block r).
Definition blockHashOf (r : IPLDBlock.t) : string :=
  BlockProgress.blockHash (IPLDBlock.block r).

(** The database: the block table, the sync-status row and the IPLD block
    table in creation order. *)
Record World : Type := mkWorld {
  blocks : list BlockProgress.t;
  syncStatus : option SyncStatus.t;
  ipldBlocks : list IPLDBlock.t
}.

Definition with_ipldBlocks (w : World) (rows : list IPLDBlock.t) : World :=
  {| blocks := blocks w; syncStatus := syncStatus w; ipldBlocks := rows |}.

(** ** Async methods: a state monad over the database, with throws *)

Definition M (A : Type) : Type := World -> result A * World.

Definition ret {A} (a : A) : M A := fun w => (Ok a, w).
Definition throw {A} (e : error) : M A := fun w => (Throw e, w).
Definition liftR {A} (r : result A) : M A := fun w => (r, w).
Definition bind {A B} (m : M A) (f : A -> M B) : M B :=
  fun w =>
    match m w with
    | (Ok a, w') => f a w'
    | (Throw e, w') => (Throw e, w')
    | (Exotic, w') => (Exotic, w')
    end.
Definition assert (b : bool) (msg : string) : M unit :=
  if b then ret tt else throw (AssertionError msg).
Definition read {A} (f : World -> A) : M A := fun w => (Ok (f w), w).

Declare Scope M_scope.
Delimit Scope M_scope with M.
Notation "x <- m ;; k" := (bind m (fun x => k))
  (at level 100, m at next level, right associativity) : M_scope.
Notation "m ;; k" := (bind m (fun _ => k))
  (at level 100, right associativity) : M_scope.

(** [for (const x of xs) { await body(x) }] *)
Fixpoint forEach {A} (xs : list A) (body : A -> M unit) : M unit :=
  match xs with
  | [] => ret tt
  | x :: xs' => (body x ;; forEach xs' body)%M
  end.

(** ** The store

    The indexer hands these calls to its [Database] ([./database]) and to the
    base indexer, which are not among the sources; what each one returns is
    the spec's (4.2). *)

(** Modelled from the spec: the base indexer's lookup of a block by its
    hash, [byHash]. *)
Definition getBlockProgress (blockHash : string) : M (option BlockProgress.t) :=
  read (fun w => find (fun b => String.eqb (BlockProgress.blockHash b) blockHash) (blocks w)).

(** Modelled from the spec: the base indexer's read of the sync-status
    row. *)
Definition getSyncStatus : M (option SyncStatus.t) := read syncStatus.

(** The fields a [get] may name. *)
Record filter : Type := mkFilter {
  f_block : option BlockProgress.t;
  f_contractAddress : option string;
  f_kind : option string
}.

Definition opt_test {A} (p : A -> bool) (o : option A) : bool :=
  match o with
  | Some a => p a
  | None => true
  end.

Definition matches (f : filter) (r : IPLDBlock.t) : bool :=
  opt_test (fun b => String.eqb (blockHashOf r) (BlockProgress.blockHash b)) (f_block f)
  && opt_test (String.eqb (IPLDBlock.contractAddress r)) (f_contractAddress f)
  && opt_test (String.eqb (IPLDBlock.kind r)) (f_kind f).

(** Modelled from the spec: [Database.getIPLDBlocks], the spec's
    [get(filter)]: the rows that match every field the filter names, in
    creation order. *)
Definition getIPLDBlocks (f : filter) : M (list IPLDBlock.t) :=
  read (fun w => List.filter (matches f) (ipldBlocks w)).

Definition latest_matches (contractAddress : string) (kind : option string)
    (blockNumber : option Z) (r : IPLDBlock.t) : bool :=
  String.eqb (IPLDBlock.contractAddress r) contractAddress
  && opt_test (String.eqb (IPLDBlock.kind r)) kind
  && opt_test (fun n => blockNumberOf r <=? n) blockNumber.

(** The later of two rows: the higher block number, and of two rows of one
    block number the one created last. *)
Definition later (best : option IPLDBlock.t) (r : IPLDBlock.t) : option IPLDBlock.t :=
  match best with
  | None => Some r
  | Some b => if blockNumberOf b <=? blockNumberOf r then Some r else Some b
  end.

Definition latest_of (rows : list IPLDBlock.t) : option IPLDBlock.t :=
  fold_left later rows None.

(** Modelled from the spec: [Database.getLatestIPLDBlock], the spec's
    [latest(contractAddress, kind|null, maxBlockNumber?)]: the most recent
    row of the contract, of the kind if one is given, bounded above by the
    block number if one is given (at or below it, 4.4 step 4), by block number
    descending and then by creation order. *)
Definition getLatestIPLDBlock (contractAddress : string) (kind : option string)
    (blockNumber : option Z) : M (option IPLDBlock.t) :=
  read (fun w =>
    latest_of (List.filter (latest_matches contractAddress kind blockNumber) (ipldBlocks w))).

Definition diff_after (contractAddress : string) (checkpointBlockNumber : Z)
    (r : IPLDBlock.t) : bool :=
  String.eqb (IPLDBlock.contractAddress r) contractAddress
  && String.eqb (IPLDBlock.kind r) "diff"
  && (checkpointBlockNumber <? blockNumberOf r).

Definition row_leb (a b : IPLDBlock.t) : bool := blockNumberOf a <=? blockNumberOf b.

(** Modelled from the spec: [Database.getDiffIPLDBlocksByCheckpoint]: every
    [diff] row of the contract with a block number strictly above the
    checkpoint's, in ascending order of block number (4.4 step 7). *)
Definition getDiffIPLDBlocksByCheckpoint (contractAddress : string)
    (checkpointBlockNumber : Z) : M (list IPLDBlock.t) :=
  read (fun w =>
    sort_by row_leb (List.filter (diff_after contractAddress checkpointBlockNumber) (ipldBlocks w))).

Definition same_key (a b : IPLDBlock.t) : bool :=
  String.eqb (blockHashOf a) (blockHashOf b)
  && String.eqb (IPLDBlock.contractAddress a) (IPLDBlock.contractAddress b)
  && String.eqb (IPLDBlock.kind a) (IPLDBlock.kind b).

Fixpoint upsert (r : IPLDBlock.t) (rows : list IPLDBlock.t) : list IPLDBlock.t :=
  match rows with
  | [] => [r]
  | r' :: rows' => if same_key r r' then r :: rows' else r' :: upsert r rows'
  end.

(** Modelled from the spec: [Database.saveOrUpdateIPLDBlock], the spec's
    [saveOrUpdate]: an upsert keyed by (blockHash, contractAddress, kind)
    that overwrites the data and the identifier of the row it finds. *)
Definition saveOrUpdateIPLDBlock (r : IPLDBlock.t) : M IPLDBlock.t :=
  fun w => (Ok r, with_ipldBlocks w (upsert r (ipldBlocks w))).

Definition staged_at (blockNumber : Z) (r : IPLDBlock.t) : bool :=
  (blockNumberOf r =? blockNumber) && String.eqb (IPLDBlock.kind r) "diff_staged".

(** Modelled from the spec: [Database.removeEntities], called in a
    transaction of its own with [block: { blockNumber }, kind: 'diff_staged']:
    the spec's [removeStaged(blockNumber)], which deletes every [diff_staged]
    row at that block number. *)
Definition removeStagedIPLDBlocks (blockNumber : Z) : M unit :=
  fun w => (Ok tt, with_ipldBlocks w (List.filter (fun r => negb (staged_at blockNumber r)) (ipldBlocks w))).

(** ** Hooks *)

(** Modelled from the spec: the hooks module ([./hooks]) is not among the
    sources.  The checkpoint hook takes the contract and the block hash and
    says whether it has replaced the default compaction; the hook run after
    finalization takes the block hash.  Both get the indexer and may call
    back into it, so a hook is any action on the database.  [noHooks] is the
    pair that does nothing. *)
Record Hooks : Type := mkHooks {
  createStateDiff : string -> M unit;
  createStateCheckpoint : string -> string -> M bool
}.

Definition noHooks : Hooks :=
  {| createStateDiff := fun _ => ret tt;
     createStateCheckpoint := fun _ _ => ret false |}.

(** ** The indexer *)

(** [v[k]], for the keys read here ([state], [meta], [kind]), which no
    array, string, number or boolean has. *)
Definition member (k : string) (v : value) : result value :=
  match v with
  | VObj o => Ok (default VUndef (prop_get k o))
  | VUndef | VNull => Throw (TypeError "Cannot read properties of undefined or null")
  | _ => Ok VUndef
  end.

(** [v[k] = x] in strict mode. *)
Definition assign (k : string) (x : value) (v : value) : result value :=
  match v with
  | VObj o => Ok (VObj (prop_set k x o))
  | VArr _ => Exotic
  | VUndef | VNull => Throw (TypeError "Cannot set properties of undefined or null")
  | _ => Throw (TypeError "Cannot create property on a primitive")
  end.

Definition kinds : list string := ["diff"; "checkpoint"; "diff_staged"].

Definition meta_of (contractAddress kind : string) (parentIPLDBlock : option IPLDBlock.t)
    (block : BlockProgress.t) : value :=
  VObj [("id", VStr contractAddress);
        ("kind", VStr kind);
        ("parent", VObj [("/", match parentIPLDBlock with
                               | Some p => VStr (IPLDBlock.cid p)
                               | None => VNull
                               end)]);
        ("ethBlock", VObj [("cid", VObj [("/", VStr (BlockProgress.cid block))]);
                           ("num", VInt (BlockProgress.blockNumber block))])].

(** The identifier of a payload: CID v1, dag-cbor, SHA-256 of the encoding. *)
Definition identifier (data : value) : option CID :=
  bytes ← encode data;
  Some (CID_create 1 dag_cbor_code (SHA256.digest bytes)).

Local Open Scope M_scope.

Definition prepareIPLDBlock (block : BlockProgress.t) (contractAddress : string)
    (data : value) (kind : string) : M IPLDBlock.t :=
  assert (existsb (String.eqb kind) kinds) "_.includes(['diff', 'checkpoint', 'diff_staged'], kind)" ;;
  currentIPLDBlocks <- getIPLDBlocks
    {| f_block := Some block; f_contractAddress := Some contractAddress; f_kind := Some kind |} ;;
  assert (len currentIPLDBlocks <=? 1) "currentIPLDBlocks.length <= 1" ;;
  data <- match head currentIPLDBlocks with
          | Some currentIPLDBlock =>
              liftR (merge (IPLDBlock.data currentIPLDBlock) data)
          | None =>
              parentIPLDBlock <- getLatestIPLDBlock contractAddress None
                                   (Some (BlockProgress.blockNumber block)) ;;
              liftR (assign "meta" (meta_of contractAddress kind parentIPLDBlock block) data)
          end ;;
  cid <- match identifier data with
         | Some cid => ret cid
         | None => throw (CodecError "codec.encode")
         end ;;
  meta <- liftR (member "meta" data) ;;
  kind' <- liftR (member "kind" meta) ;;
  match kind' with
  | VStr k =>
      ret {| IPLDBlock.block := block;
             IPLDBlock.contractAddress := contractAddress;
             IPLDBlock.cid := cid_toString cid;
             IPLDBlock.kind := k;
             IPLDBlock.data := canon data |}
  | _ => liftR Exotic
  end.

Definition createDiffStaged (contractAddress blockHash : string) (data : value) : M unit :=
  block <- getBlockProgress blockHash ;;
  match block with
  | None => throw (AssertionError "block")
  | Some block =>
      ipldBlock <- prepareIPLDBlock block contractAddress data "diff_staged" ;;
      saveOrUpdateIPLDBlock ipldBlock ;;
      ret tt
  end.

Definition createDiff (contractAddress blockHash : string) (data : value) : M unit :=
  block <- getBlockProgress blockHash ;;
  match block with
  | None => throw (AssertionError "block")
  | Some block =>
      checkpoint <- getLatestIPLDBlock contractAddress (Some "checkpoint") None ;;
      match checkpoint with
      | None => throw (AssertionError "Initial checkpoint doesn't exist")
      | Some checkpoint =>
          assert (negb (String.eqb (blockHashOf checkpoint) (BlockProgress.blockHash block)))
                 "Checkpoint already created for the block hash." ;;
          ipldBlock <- prepareIPLDBlock block contractAddress data "diff" ;;
          saveOrUpdateIPLDBlock ipldBlock ;;
          ret tt
      end
  end.

Definition finalizeDiffStaged (blockHash : string) : M unit :=
  block <- getBlockProgress blockHash ;;
  match block with
  | None => throw (AssertionError "block")
  | Some block =>
      stagedBlocks <- getIPLDBlocks
        {| f_block := Some block; f_contractAddress := None; f_kind := Some "diff_staged" |} ;;
      forEach stagedBlocks (fun stagedBlock =>
        createDiff (IPLDBlock.contractAddress stagedBlock) (blockHashOf stagedBlock)
                   (IPLDBlock.data stagedBlock)) ;;
      removeStagedIPLDBlocks (BlockProgress.blockNumber block)
  end.

Section Indexer.
Variable hooks : Hooks.

Definition processCanonicalBlock (blockHash : string) : M unit :=
  finalizeDiffStaged blockHash ;;
  createStateDiff hooks blockHash.

(** [data.state = _.merge(data.state, diff.state)] over the diff blocks. *)
Fixpoint mergeDiffs (state : value) (diffBlocks : list IPLDBlock.t) : result value :=
  match diffBlocks with
  | [] => Ok state
  | diffBlock :: rest =>
      let? diffState := member "state" (IPLDBlock.data diffBlock) in
      let? state := merge state diffState in
      mergeDiffs state rest
  end%result.

Definition createCheckpoint (contractAddress : string) (blockHash : option string)
    (data : value) (checkpointInterval : option Z) : M (option string) :=
  syncStatus <- getSyncStatus ;;
  match syncStatus with
  | None => throw (AssertionError "syncStatus")
  | Some syncStatus =>
      currentBlock <-
        match blockHash with
        | Some (String c h) => getBlockProgress (String c h)
        | _ => getBlockProgress (SyncStatus.latestCanonicalBlockHash syncStatus)
        end ;;
      match currentBlock with
      | None => throw (AssertionError "currentBlock")
      | Some currentBlock =>
          if truthy data then
            ipldBlock <- prepareIPLDBlock currentBlock contractAddress data "checkpoint" ;;
            saveOrUpdateIPLDBlock ipldBlock ;;
            ret None
          else
            assert (BlockProgress.isComplete currentBlock)
                   "Block for a checkpoint should be marked as complete" ;;
            assert (BlockProgress.blockNumber currentBlock
                      <=? SyncStatus.latestCanonicalBlockNumber syncStatus)
                   "Block for a checkpoint should be in the pruned region" ;;
            checkpointBlock <- getLatestIPLDBlock contractAddress (Some "checkpoint")
                                 (Some (BlockProgress.blockNumber currentBlock)) ;;
            match checkpointBlock with
            | None => throw (AssertionError "checkpointBlock")
            | Some checkpointBlock =>
                let skip :=
                  match checkpointInterval with
                  | Some i =>
                      negb (i =? 0)
                      && (BlockProgress.blockNumber currentBlock - i <? blockNumberOf checkpointBlock)
                  | None => false
                  end in
                if skip then ret None
                else
                  disableDefaultCheckpoint <-
                    createStateCheckpoint hooks contractAddress
                      (BlockProgress.blockHash currentBlock) ;;
                  if (disableDefaultCheckpoint : bool) then
                    ret (Some (BlockProgress.blockHash currentBlock))
                  else
                    diffBlocks <- getDiffIPLDBlocksByCheckpoint contractAddress
                                    (blockNumberOf checkpointBlock) ;;
                    state <- liftR (member "state" (IPLDBlock.data checkpointBlock)) ;;
                    state <- liftR (mergeDiffs state diffBlocks) ;;
                    ipldBlock <- prepareIPLDBlock currentBlock contractAddress
                                   (VObj [("state", state)]) "checkpoint" ;;
                    saveOrUpdateIPLDBlock ipldBlock ;;
                    ret (Some (BlockProgress.blockHash currentBlock))
            end
      end
  end.
End Indexer.

(** ** Sequences of staging operations *)

Inductive op : Type :=
| DiffStaged (contractAddress blockHash : string) (data : value)
| Diff (contractAddress blockHash : string) (data : value)
| Checkpoint (contractAddress : string) (blockHash : option string) (data : value)
    (checkpointInterval : option Z).

Definition op_kind (o : op) : string :=
  match o with
  | DiffStaged _ _ _ => "diff_staged"
  | Diff _ _ _ => "diff"
  | Checkpoint _ _ _ _ => "checkpoint"
  end.

Definition op_contract (o : op) : string :=
  match o with
  | DiffStaged c _ _ | Diff c _ _ | Checkpoint c _ _ _ => c
  end.

Definition run (hooks : Hooks) (o : op) : M unit :=
  match o with
  | DiffStaged c h data => createDiffStaged c h data
  | Diff c h data => createDiff c h data
  | Checkpoint c h data i => (createCheckpoint hooks c h data i ;; ret tt)%M
  end.

(** One operation after the other; an operation that throws leaves the store
    as it is at the throw and the next one runs.  [None]: some operation left
    the data model. *)
Fixpoint run_ops (hooks : Hooks) (ops : list op) (w : World) : option World :=
  match ops with
  | [] => Some w
  | o :: ops' =>
      match run hooks o w with
      | (Exotic, _) => None
      | (_, w') => run_ops hooks ops' w'
      end
  end.

Definition key_of (r : IPLDBlock.t) : string * string * string :=
  (blockHashOf r, IPLDBlock.contractAddress r, IPLDBlock.kind r).

(** Invariant I1. *)
Definition unique_keys (w : World) : Prop := NoDup (map key_of (ipldBlocks w)).

Definition of_contract (c : string) (r : IPLDBlock.t) : bool :=
  String.eqb (IPLDBlock.contractAddress r) c.

(** The most recent row of a contract strictly below a block number. *)
Definition latest_before (w : World) (c : string) (n : Z) : option IPLDBlock.t :=
  latest_of (List.filter (fun r => of_contract c r && (blockNumberOf r <? n)) (ipldBlocks w)).

(** [data.meta.parent['/']] *)
Definition parent_link (data : value) : result value :=
  (let? meta := member "meta" data in
   let? parent := member "parent" meta in
   member "/" parent)%result.

Definition link_to (r : option IPLDBlock.t) : value :=
  match r with
  | Some p => VStr (IPLDBlock.cid p)
  | None => VNull
  end.

(** ** A run: the contract [C], watched from block 100 *)

Module Scenario.
Definition blk (n : Z) (h : string) : BlockProgress.t :=
  {| BlockProgress.cid := ("cid-" ++ h)%string; BlockProgress.blockHash := h;
     BlockProgress.blockNumber := n; BlockProgress.isComplete := true |}.

Definition state_of (o : props) : value := VObj [("state", VObj o)].

(** Blocks 100, 105, 108 (not complete) and 110; canonical up to 110. *)
Definition w0 : World :=
  {| blocks := [blk 100 "h100"; blk 105 "h105";
                {| BlockProgress.cid := "cid-h108"; BlockProgress.blockHash := "h108";
                   BlockProgress.blockNumber := 108; BlockProgress.isComplete := false |};
                blk 110 "h110"; blk 120 "h120"];
     syncStatus := Some {| SyncStatus.latestIndexedBlockHash := "h120";
                           SyncStatus.latestIndexedBlockNumber := 120;
                           SyncStatus.latestCanonicalBlockHash := "h110";
                           SyncStatus.latestCanonicalBlockNumber := 110;
                           SyncStatus.chainHeadBlockHash := "h120";
                           SyncStatus.chainHeadBlockNumber := 120 |};
     ipldBlocks := [] |}.

(** The initial checkpoint at block 100. *)
Definition w1 : World :=
  Eval vm_compute in
  snd (createCheckpoint noHooks "C" (Some "h100") (state_of [("balance", VInt 0)]) None w0).

(** A staged diff at block 105. *)
Definition staged : props := [("state", VObj [("balance", VInt 50)])].
Definition w2 : World :=
  Eval vm_compute in snd (createDiffStaged "C" "h105" (VObj staged) w1).

(** Block 105 becomes canonical. *)
Definition w3 : World :=
  Eval vm_compute in snd (processCanonicalBlock noHooks "h105" w2).

(** A diff written at block 105 before the staged one is finalized. *)
Definition w2' : World :=
  Eval vm_compute in
  snd (createDiffStaged "C" "h105" (state_of [("balance", VInt 50)])
    (snd (createDiff "C" "h105" (state_of [("owner", VStr "a")]) w1))).

(** The same diff staged twice, a diff, and two checkpoints at block 110. *)
Definition ops : list op :=
  [DiffStaged "C" "h105" (VObj staged); DiffStaged "C" "h105" (VObj staged);
   Diff "C" "h105" (VObj staged);
   Checkpoint "C" (Some "h110") VUndef None; Checkpoint "C" (Some "h110") VUndef None].
End Scenario.

(** ** Notions used in the statements *)

Section value_induction.
Variable P : value -> Prop.
Hypothesis Hundef : P VUndef.
Hypothesis Hnull : P VNull.
Hypothesis Hbool : forall b, P (VBool b).
Hypothesis Hint : forall z, P (VInt z).
Hypothesis Hstr : forall s, P (VStr s).
Hypothesis Harr : forall l, Forall P l -> P (VArr l).
Hypothesis Hobj : forall o, Forall (fun kv => P (snd kv)) o -> P (VObj o).

Fixpoint value_ind_deep (v : value) : P v :=
  match v with
  | VUndef => Hundef
  | VNull => Hnull
  | VBool b => Hbool b
  | VInt z => Hint z
  | VStr s => Hstr s
  | VArr l =>
      Harr l ((fix go (l : list value) : Forall P l :=
                 match l with
                 | [] => @List.Forall_nil _ P
                 | x :: l' => @List.Forall_cons _ P x l' (value_ind_deep x) (go l')
                 end) l)
  | VObj o =>
      Hobj o ((fix go (o : props) : Forall (fun kv => P (snd kv)) o :=
                 match o with
                 | [] => @List.Forall_nil _ _
                 | (k, x) :: o' =>
                     @List.Forall_cons _ (fun kv => P (snd kv)) (k, x) o' (value_ind_deep x) (go o')
                 end) o)
  end.
End value_induction.

Definition dest_elems (objValue : option value) : list value :=
  match objValue with
  | Some (VArr dst) => dst
  | _ => []
  end.

Definition dest_props (objValue : option value) : props :=
  match objValue with
  | Some (VObj dst) => dst
  | _ => []
  end.

Definition encode_entry (kv : string * value) : option (string * bytes) :=
  kb ← encode_string (fst kv); b ← encode (snd kv); Some (fst kv, kb ++ b).

Definition is_container (v : value) : Prop :=
  match v with
  | VArr _ | VObj _ => True
  | _ => False
  end.

Definition key_filter (block : BlockProgress.t) (contractAddress kind : string) : filter :=
  {| f_block := Some block; f_contractAddress := Some contractAddress; f_kind := Some kind |}.

Definition current (w : World) (block : BlockProgress.t) (contractAddress kind : string)
  : list IPLDBlock.t :=
  List.filter (matches (key_filter block contractAddress kind)) (ipldBlocks w).

Definition parent_of (w : World) (block : BlockProgress.t) (contractAddress : string)
  : option IPLDBlock.t :=
  latest_of (List.filter
    (latest_matches contractAddress None (Some (BlockProgress.blockNumber block)))
    (ipldBlocks w)).

(** The row [prepareIPLDBlock] builds from the payload it has settled on. *)
Definition row_of (block : BlockProgress.t) (contractAddress : string) (data : value)
  : result IPLDBlock.t :=
  match identifier data with
  | None => Throw (CodecError "codec.encode")
  | Some cid =>
      let? meta := member "meta" data in
      let? kind' := member "kind" meta in
      match kind' with
      | VStr k =>
          Ok {| IPLDBlock.block := block;
                IPLDBlock.contractAddress := contractAddress;
                IPLDBlock.cid := cid_toString cid;
                IPLDBlock.kind := k;
                IPLDBlock.data := canon data |}
      | _ => Exotic
      end
  end.

Definition prepared (w : World) (block : BlockProgress.t) (c : string) (data : value)
    (kind : string) : result IPLDBlock.t :=
  fst (prepareIPLDBlock block c data kind w).

(** Prepare, then save, as every operation does. *)
Definition save (r : result IPLDBlock.t) (w : World) : result unit * World :=
  match r with
  | Ok row => (Ok tt, with_ipldBlocks w (upsert row (ipldBlocks w)))
  | Throw e => (Throw e, w)
  | Exotic => (Exotic, w)
  end.

Definition lookup_block (w : World) (blockHash : string) : option BlockProgress.t :=
  find (fun b => String.eqb (BlockProgress.blockHash b) blockHash) (blocks w).

Definition latest_checkpoint (w : World) (c : string) (blockNumber : option Z)
  : option IPLDBlock.t :=
  latest_of (List.filter (latest_matches c (Some "checkpoint") blockNumber) (ipldBlocks w)).

(** The block a checkpoint is made at: the one of the given hash, or the
    latest canonical one. *)
Definition target_hash (blockHash : option string) (syncStatus : SyncStatus.t) : string :=
  match blockHash with
  | Some (String c h) => String c h
  | _ => SyncStatus.latestCanonicalBlockHash syncStatus
  end.

Definition skips (checkpointInterval : option Z) (currentBlock : BlockProgress.t)
    (checkpointBlock : IPLDBlock.t) : bool :=
  match checkpointInterval with
  | Some i =>
      negb (i =? 0)
      && (BlockProgress.blockNumber currentBlock - i <? blockNumberOf checkpointBlock)
  | None => false
  end.

Definition diffs_after (w : World) (c : string) (n : Z) : list IPLDBlock.t :=
  sort_by row_leb (List.filter (diff_after c n) (ipldBlocks w)).

Definition rows_of (c : string) (w : World) : list IPLDBlock.t :=
  List.filter (of_contract c) (ipldBlocks w).

Definition finalize_body (stagedBlock : IPLDBlock.t) : M unit :=
  createDiff (IPLDBlock.contractAddress stagedBlock) (blockHashOf stagedBlock)
             (IPLDBlock.data stagedBlock).

Definition staged_of (w : World) (b : BlockProgress.t) : list IPLDBlock.t :=
  List.filter (matches {| f_block := Some b; f_contractAddress := None;
                          f_kind := Some "diff_staged" |}) (ipldBlocks w).

Definition no_earlier_checkpoint (w : World) (c h : string) : Prop :=
  latest_checkpoint w c None = None
  \/ exists cp, latest_checkpoint w c None = Some cp /\ blockHashOf cp = h.

Definition entry_bytes (k : string) (x : value) : option bytes :=
  snd <$> encode_entry (k, x).


Definition inert (hooks : Hooks) : Prop :=
  forall c h w, exists b, createStateCheckpoint hooks c h w = (Ok b, w).

Definition ascending (ds : list IPLDBlock.t) : Prop :=
  Sorted (fun d d' => blockNumberOf d < blockNumberOf d') ds.

Definition merge_step (acc : result value) (D : value) : result value :=
  (let? s := acc in merge s D)%result.

Definition finalized (b : BlockProgress.t) (s d : IPLDBlock.t) : Prop :=
  IPLDBlock.block d = b /\ IPLDBlock.contractAddress d = IPLDBlock.contractAddress s /\
  IPLDBlock.kind d = "diff" /\
  member "state" (IPLDBlock.data d) = rmap canon (member "state" (IPLDBlock.data s)).

Module StagedAtCheckpoint.
(** A staged diff at block 100, where the initial checkpoint is. *)
Definition w : World :=
  Eval vm_compute in
  snd (createDiffStaged "C" "h100" (Scenario.state_of [("balance", VInt 1)]) Scenario.w1).
End StagedAtCheckpoint.

(** ** More of the indexer: reads, the checkpoint jobs *)

(** [k in v], for a plain object [v] and a key that is not inherited. *)
Definition has_key (k : string) (v : value) : Prop :=
  match v with
  | VObj o => k ∈ keys o
  | _ => False
  end.

Definition is_scalar (v : value) : Prop :=
  match v with
  | VNull | VBool _ | VInt _ | VStr _ => True
  | _ => False
  end.

Definition state_of_row (d : IPLDBlock.t) : result value :=
  member "state" (IPLDBlock.data d).

(** [data.meta.kind] *)
Definition meta_kind (data : value) : result value :=
  (let? meta := member "meta" data in member "kind" meta)%result.

(** A row as [prepareIPLDBlock] leaves it: the identifier is that of the
    payload, the kind is the one the payload's meta names, and the payload is
    as the codec returns it. *)
Definition sealed (r : IPLDBlock.t) : Prop :=
  cid_toString <$> identifier (IPLDBlock.data r) = Some (IPLDBlock.cid r) /\
  meta_kind (IPLDBlock.data r) = Ok (VStr (IPLDBlock.kind r)) /\
  canon (IPLDBlock.data r) = IPLDBlock.data r.

Definition hook_keeps (P : World -> Prop) (hooks : Hooks) : Prop :=
  forall c h w r w', createStateCheckpoint hooks c h w = (r, w') -> P w -> P w'.

Definition all_sealed (w : World) : Prop := Forall sealed (ipldBlocks w).

Definition getIPLDBlocksByHash (blockHash : string) : M (list IPLDBlock.t) :=
  block <- getBlockProgress blockHash ;;
  match block with
  | None => throw (AssertionError "block")
  | Some block =>
      getIPLDBlocks {| f_block := Some block; f_contractAddress := None; f_kind := None |}
  end.

Definition staged_at_height (n : Z) (r : IPLDBlock.t) : Prop :=
  blockNumberOf r = n /\ IPLDBlock.kind r = "diff_staged".

(** [codec.decode(Buffer.from(ipldBlock.data))] *)
Definition getIPLDData (ipldBlock : IPLDBlock.t) : value := IPLDBlock.data ipldBlock.

Section CLI.
Variable hooks : Hooks.
(** Modelled from the spec: the IPFS client ([./ipfs]) is not among the
    sources; the push to the content store is any action. *)
Variable pushToIPFS : value -> M unit.

Definition processCLICheckpoint (contractAddress : string) (blockHash : option string)
  : M string :=
  checkpointBlockHash <- createCheckpoint hooks contractAddress blockHash VUndef None ;;
  match checkpointBlockHash with
  | Some (String a s) =>
      let checkpointBlockHash := String a s in
      block <- getBlockProgress checkpointBlockHash ;;
      checkpointIPLDBlocks <- getIPLDBlocks
        {| f_block := block; f_contractAddress := Some contractAddress;
           f_kind := Some "checkpoint" |} ;;
      assert (len checkpointIPLDBlocks <=? 1) "checkpointIPLDBlocks.length <= 1" ;;
      match head checkpointIPLDBlocks with
      | Some checkpointIPLDBlock =>
          pushToIPFS (getIPLDData checkpointIPLDBlock) ;;
          ret checkpointBlockHash
      | None => throw (TypeError "Cannot read properties of undefined (reading 'data')")
      end
  | _ => throw (AssertionError "checkpointBlockHash")
  end.
End CLI.

(** Modelled from the spec: a watched contract ([./entity/Contract] is not
    among the sources), with the fields the indexer reads. *)
Module Contract.
Record t : Type := mk {
  address : string;
  kind : string;
  checkpoint : bool;
  startingBlock : Z
}.
End Contract.

Section Jobs.
Variable hooks : Hooks.
(** Modelled from the spec: [Database.getContracts] and the hook
    [createInitialCheckpoint] of [./hooks] are not among the sources; the
    first is any read of the contract table, the second any action. *)
Variable getContracts : M (list Contract.t).
Variable createInitialCheckpoint : string -> string -> M unit.

Definition processCheckpoint (checkpointInterval : Z) (blockHash : string) (blockNumber : Z)
  : M unit :=
  if checkpointInterval <=? 0 then ret tt
  else
    contracts <- getContracts ;;
    forEach contracts (fun contract =>
      if Contract.checkpoint contract then
        checkpointBlock <- getLatestIPLDBlock (Contract.address contract)
                             (Some "checkpoint") None ;;
        match checkpointBlock with
        | None =>
            if blockNumber =? Contract.startingBlock contract
            then createInitialCheckpoint (Contract.address contract) blockHash
            else ret tt
        | Some _ =>
            createCheckpoint hooks (Contract.address contract) (Some blockHash) VNull
              (Some checkpointInterval) ;;
            ret tt
        end
      else ret tt).
End Jobs.

(** Nothing is due for the contract at the block: checkpointing is off, or
    the contract has no checkpoint and starts at another block, or its latest
    checkpoint at or below the block is less than the interval below it. *)
Definition nothing_due (w : World) (interval : Z) (b : BlockProgress.t) (blockNumber : Z)
    (contract : Contract.t) : Prop :=
  Contract.checkpoint contract = false \/
  (latest_checkpoint w (Contract.address contract) None = None /\
   blockNumber <> Contract.startingBlock contract) \/
  (latest_checkpoint w (Contract.address contract) None <> None /\
   exists cp, latest_checkpoint w (Contract.address contract)
                (Some (BlockProgress.blockNumber b)) = Some cp /\
              BlockProgress.blockNumber b - blockNumberOf cp < interval).

(** ** The dag-cbor codec: decoding *)

(** The number a key stands for, as lodash's [isIndex] and the order of
    the keys of a JS object have it. *)
Definition digit (a : ascii) : option Z :=
  let n := Z.of_N (N_of_ascii a) in
  if (48 <=? n) && (n <=? 57) then Some (n - 48) else None.

Fixpoint digits (s : string) (acc : Z) : option Z :=
  match s with
  | EmptyString => Some acc
  | String a s' =>
      match digit a with
      | Some d => digits s' (acc * 10 + d)
      | None => None
      end
  end.

(** [reIsUint]: the digit zero alone, or digits that do not begin with a
    zero; with the number the string stands for. *)
Definition uint_of (s : string) : option Z :=
  match s with
  | EmptyString => None
  | String "0"%char EmptyString => Some 0
  | String "0"%char _ => None
  | _ => digits s 0
  end.

(** ** Decoding

    [codec.decode]: cborg's decoder with the options of dag-cbor: strict (an
    argument is in its shortest form), no indefinite lengths, string keys
    only, and nothing may follow the item.  A map is decoded into a fresh
    object by [obj[key] = value], pair after pair: the later value of a
    repeated key stays, and the object lists its keys as JS does, the array
    indices first.  Byte strings, tags (links), floats and the simple values
    other than [false], [true] and [null] are not in the data model here,
    nor is text that is not UTF-8 or a key of an inherited name: on those the
    model is [Exotic]. *)

(** A key that is an array index: a canonical numeric string below
    [2^32 - 1]. *)
Definition array_index (k : string) : option Z :=
  match uint_of k with
  | Some n => if n <? 2 ^ 32 - 1 then Some n else None
  | None => None
  end.

(** A new property among those an object has, in the order JS lists own
    keys ([OrdinaryOwnPropertyKeys]): the array indices in ascending order,
    then the other keys in the order they were added. *)
Fixpoint add_property (k : string) (x : value) (o : props) : props :=
  match o with
  | [] => [(k, x)]
  | (k', x') :: o' =>
      match array_index k, array_index k' with
      | Some n, Some n' => if n' <? n then (k', x') :: add_property k x o' else (k, x) :: o
      | Some _, None => (k, x) :: o
      | None, _ => (k', x') :: add_property k x o'
      end
  end.

(** [obj[key] = value] on a plain object: a property that exists keeps its
    place. *)
Definition put (k : string) (x : value) (o : props) : props :=
  match prop_get k o with
  | Some _ => prop_set k x o
  | None => add_property k x o
  end.

Definition put_all (entries obj : props) : props :=
  fold_left (fun obj kv => put (fst kv) (snd kv) obj) entries obj.

Definition Z_of_be (bs : bytes) : Z :=
  fold_left (fun acc b => acc * 256 + Z_of_byte b) bs 0.

(** Bytes that follow the initial byte, and the least argument they may
    hold. *)
Definition head_extra (info : Z) : option (nat * Z) :=
  if info =? 24 then Some (1%nat, 24)
  else if info =? 25 then Some (2%nat, 2 ^ 8)
  else if info =? 26 then Some (4%nat, 2 ^ 16)
  else if info =? 27 then Some (8%nat, 2 ^ 32)
  else None.

(** The head of an item of major type 0 to 6: the major type, the argument
    and the bytes after the head. *)
Definition decode_head (bs : bytes) : result (Z * Z * bytes) :=
  match bs with
  | [] => Throw (CodecError "unexpected end of data")
  | b :: rest =>
      let major := Z_of_byte b / 32 in
      let info := Z_of_byte b mod 32 in
      if info <? 24 then Ok (major, info, rest)
      else
        match head_extra info with
        | Some (n, least) =>
            if (List.length rest <? n)%nat then Throw (CodecError "unexpected end of data")
            else
              let arg := Z_of_be (firstn n rest) in
              if arg <? least
              then Throw (CodecError "integer encoded in more bytes than required")
              else Ok (major, arg, skipn n rest)
        | None => Throw (CodecError "indefinite length or reserved head")
        end
  end.

Definition cont (b : byte) : bool := (0x80 <=? Z_of_byte b) && (Z_of_byte b <=? 0xBF).
Definition between (lo hi : Z) (b : byte) : bool :=
  (lo <=? Z_of_byte b) && (Z_of_byte b <=? hi).

(** Well-formed UTF-8 (Unicode, table 3-7). *)
Fixpoint utf8 (bs : bytes) : bool :=
  match bs with
  | [] => true
  | b0 :: r0 =>
      let z := Z_of_byte b0 in
      if z <? 0x80 then utf8 r0
      else if (0xC2 <=? z) && (z <=? 0xDF) then
        match r0 with
        | b1 :: r1 => cont b1 && utf8 r1
        | _ => false
        end
      else if (0xE0 <=? z) && (z <=? 0xEF) then
        match r0 with
        | b1 :: b2 :: r2 =>
            (if z =? 0xE0 then between 0xA0 0xBF b1
             else if z =? 0xED then between 0x80 0x9F b1
             else cont b1)
            && cont b2 && utf8 r2
        | _ => false
        end
      else if (0xF0 <=? z) && (z <=? 0xF4) then
        match r0 with
        | b1 :: b2 :: b3 :: r3 =>
            (if z =? 0xF0 then between 0x90 0xBF b1
             else if z =? 0xF4 then between 0x80 0x8F b1
             else cont b1)
            && cont b2 && cont b3 && utf8 r3
        | _ => false
        end
      else false
  end.

Definition utf8_string (s : string) : bool := utf8 (list_byte_of_string s).

Section Decoder.
(** The text and the keys the decoder takes. *)
Variable text_ok : string -> bool.
Variable key_ok : string -> bool.
(** The decoder of one item, for the items inside an array or a map. *)
Variable item : bytes -> result (value * bytes).

Fixpoint decode_items (n : nat) (bs : bytes) : result (list value * bytes) :=
  match n with
  | O => Ok ([], bs)
  | S n' =>
      let? (x, bs1) := item bs in
      let? (xs, bs2) := decode_items n' bs1 in
      Ok (x :: xs, bs2)
  end.

(** [obj[key] = value] for each pair, the key first. *)
Fixpoint decode_pairs (n : nat) (bs : bytes) (obj : props) : result (props * bytes) :=
  match n with
  | O => Ok (obj, bs)
  | S n' =>
      let? (key, bs1) := item bs in
      match key with
      | VStr k =>
          if negb (key_ok k) then Exotic
          else
            let? (x, bs2) := item bs1 in
            decode_pairs n' bs2 (put k x obj)
      | _ => Throw (CodecError "non-string keys not supported")
      end
  end.

(** An item whose first byte is not of major type 7, from its head.  An
    item takes a byte at least, so there is no array of more items, and no map
    of more pairs, than bytes are left: the decoder runs out of data. *)
Definition decode_body (major arg : Z) (rest : bytes) : result (value * bytes) :=
  if major =? 0 then Ok (VInt arg, rest)
  else if major =? 1 then Ok (VInt (- 1 - arg), rest)
  else if major =? 3 then
    if len rest <? arg then Throw (CodecError "unexpected end of data")
    else
      let s := string_of_list_byte (firstn (Z.to_nat arg) rest) in
      if text_ok s then Ok (VStr s, skipn (Z.to_nat arg) rest) else Exotic
  else if major =? 4 then
    if len rest <? arg then Throw (CodecError "unexpected end of data")
    else
      let? (xs, rest') := decode_items (Z.to_nat arg) rest in
      Ok (VArr xs, rest')
  else if major =? 5 then
    if len rest <? 2 * arg then Throw (CodecError "unexpected end of data")
    else
      let? (obj, rest') := decode_pairs (Z.to_nat arg) rest [] in
      Ok (VObj obj, rest')
  else Exotic.

(** Every string and key of the value is one the decoder takes. *)
Fixpoint readable (v : value) : bool :=
  match v with
  | VStr s => text_ok s
  | VArr l => forallb readable l
  | VObj o => forallb (fun kv => text_ok (fst kv) && key_ok (fst kv) && readable (snd kv)) o
  | _ => true
  end.
End Decoder.

(** One item.  [fuel] bounds the depth of nesting; [decode_with] gives more
    than the number of bytes, which is never used up
    ([decode_item_with_fuel] below). *)
Fixpoint decode_item_with (text_ok key_ok : string -> bool) (fuel : nat) (bs : bytes)
    {struct fuel} : result (value * bytes) :=
  match fuel with
  | O => Exotic
  | S fuel' =>
      match bs with
      | [] => Throw (CodecError "unexpected end of data")
      | b :: _ =>
          if Z_of_byte b / 32 =? 7 then
            if Z_of_byte b =? 0xf4 then Ok (VBool false, tl bs)
            else if Z_of_byte b =? 0xf5 then Ok (VBool true, tl bs)
            else if Z_of_byte b =? 0xf6 then Ok (VNull, tl bs)
            else Exotic
          else
            let? (major, arg, rest) := decode_head bs in
            decode_body text_ok key_ok (decode_item_with text_ok key_ok fuel') major arg rest
      end
  end.

Definition decode_with (text_ok key_ok : string -> bool) (bs : bytes) : result value :=
  let? (v, rest) := decode_item_with text_ok key_ok (S (List.length bs)) bs in
  match rest with
  | [] => Ok v
  | _ :: _ => Throw (CodecError "too many terminals, data makes no sense")
  end.

(** [codec.decode] *)
Definition decode : bytes -> result value := decode_with utf8_string own_name.

(** A value that is in the data model as the codec has it: no property
    twice, text in UTF-8, no key of an inherited name. *)
Definition ipld (v : value) : Prop := wf v /\ readable utf8_string own_name v = true.

(** What [codec.decode] returns for the bytes of [v], its maps listed as
    JS lists the keys of an object: the entries of every map are put into a
    fresh object in the order the encoder wrote them.  Where no key is an
    array index this is [canon v] ([decoded_canon] below). *)
Fixpoint decoded (v : value) : value :=
  match v with
  | VArr l => VArr (map decoded l)
  | VObj o => VObj (put_all (sort_entries (map (fun kv => (fst kv, decoded (snd kv))) o)) [])
  | _ => v
  end.

Definition decoded_entry (kv : string * value) : string * value :=
  (fst kv, decoded (snd kv)).

(** No key of the value, at any depth, is an array index. *)
Fixpoint no_index_key (v : value) : bool :=
  match v with
  | VArr l => forallb no_index_key l
  | VObj o =>
      forallb (fun kv => match array_index (fst kv) with
                         | Some _ => false
                         | None => no_index_key (snd kv)
                         end) o
  | _ => true
  end.

(** A decoder of items that takes at least one byte of an input of [n]
    bytes at most. *)
Definition shrinks (f : bytes -> result (value * bytes)) (n : nat) : Prop :=
  forall bs v rest, (length bs <= n)%nat -> f bs = Ok (v, rest) ->
                    (length rest < length bs)%nat.

(** ** lodash [_.set] and [_.setWith], and the state helpers built on them

    [baseSet] walks the path; at each key but the last it keeps the value the
    key holds when that is an object or an array, and puts a fresh container
    there otherwise: what the customizer returns ([Object(objValue)] for
    [_.setWith(..., Object)]), [[]] or [{}] by [isIndex] of the next key
    without a customizer.  The last key gets the value. *)

(** [isIndex(value)] for a string, with the default bound [MAX_SAFE_INTEGER]. *)
Definition isIndex (s : string) : bool :=
  match uint_of s with
  | Some n => n <? 2 ^ 53 - 1
  | None => false
  end.

(** [baseSet] returns early at [__proto__], [constructor] and [prototype],
    and under an inherited name [nested[key]] is the inherited member: such
    keys are left out ([Exotic]). *)
Definition settable (k : string) : bool := own_name k && negb (String.eqb k "prototype").

(** [nested[key]] for a key that is [settable]: an own property, or the
    element of an array at a canonical index. *)
Definition get_own (key : string) (nested : value) : option value :=
  match nested with
  | VObj o => prop_get key o
  | VArr l =>
      match uint_of key with
      | Some i => l !! Z.to_nat i
      | None => None
      end
  | _ => None
  end.

(** [assignValue(nested, key, newValue)].  On an array an index below the
    length replaces the element, the length itself appends; an index beyond
    it makes a sparse array and another key a named property ([Exotic]). *)
Definition set_own (key : string) (newValue : value) (nested : value) : result value :=
  match nested with
  | VObj o => Ok (VObj (prop_set key newValue o))
  | VArr l =>
      match uint_of key with
      | Some i =>
          if i <? len l then Ok (VArr (<[Z.to_nat i := newValue]> l))
          else if i =? len l then Ok (VArr (l ++ [newValue]))
          else Exotic
      | None => Exotic
      end
  | _ => Exotic
  end.

(** The value put at a key that is not the last of the path.  With the
    customizer [Object] it is [Object(objValue)], which is never [undefined];
    a primitive would be boxed. *)
Definition nested_value (customizer : bool) (objValue : option value) (next : string)
  : result value :=
  if customizer then
    match objValue with
    | None => Ok (VObj [])
    | Some v => toObject v
    end
  else
    match objValue with
    | Some (VObj o) => Ok (VObj o)
    | Some (VArr l) => Ok (VArr l)
    | _ => Ok (if isIndex next then VArr [] else VObj [])
    end.

Fixpoint baseSet (customizer : bool) (nested : value) (path : list string) (v : value)
    {struct path} : result value :=
  match path with
  | [] => Ok nested
  | key :: path' =>
      if settable key then
        match path' with
        | [] => set_own key v nested
        | next :: _ =>
            let objValue := get_own key nested in
            let? newValue := nested_value customizer objValue next in
            let? inner := baseSet customizer newValue path' v in
            set_own key inner nested
        end
      else Exotic
  end.

Definition isObject (v : value) : bool :=
  match v with
  | VObj _ | VArr _ => true
  | _ => false
  end.

(** [_.set(object, path, value)] and [_.setWith(object, path, value, Object)]
    for a path given as an array of strings. *)
Definition set (object : value) (path : list string) (v : value) : result value :=
  if isObject object then baseSet false object path v else Ok object.

Definition setWith_Object (object : value) (path : list string) (v : value)
  : result value :=
  if isObject object then baseSet true object path v else Ok object.

(** [_.cloneDeep]: values are trees, so the copy is the value itself; a map
    with a key of an inherited name is left out. *)
Definition cloneDeep (v : value) : result value :=
  if plainb v then Ok v else Exotic.

Definition updateStateForElementaryType (initialObject : value) (stateVariable : string)
    (v : value) : result value :=
  let? object := cloneDeep initialObject in
  let path := ["state"; stateVariable] in
  set object path v.

(** The second component is the caller's [keys] array after the call:
    [keys.unshift] changes it in place. *)
Definition updateStateForMappingType (initialObject : value) (stateVariable : string)
    (keys : list string) (v : value) : result value * list string :=
  let keys' := "state" :: stateVariable :: keys in
  (let? object := cloneDeep initialObject in setWith_Object object keys' v, keys').

(** Notions for the statements: the value at the end of a path of own
    properties and indices, and a path that leaves another at some key. *)
Fixpoint at_path (path : list string) (v : value) : option value :=
  match path with
  | [] => Some v
  | k :: path' =>
      match get_own k v with
      | Some x => at_path path' x
      | None => None
      end
  end.

Fixpoint diverges (p path : list string) : Prop :=
  match p, path with
  | k :: p', k' :: path' => k <> k' \/ (k = k' /\ diverges p' path')
  | _, _ => False
  end.

Fixpoint array_free (v : value) : bool :=
  match v with
  | VArr _ => false
  | VObj o => forallb (fun kv => array_free (snd kv)) o
  | _ => true
  end.

(** The object with the one path. *)
Fixpoint one_path (path : list string) (v : value) : value :=
  match path with
  | [] => v
  | k :: path' => VObj [(k, one_path path' v)]
  end.

(** ** Operations and the rows they target *)






Module ForeignKind.
(** A payload whose [meta] names the kind of a staged diff. *)
Definition payload : props :=
  [("meta", VObj [("kind", VStr "diff_staged")]); ("state", VObj [("balance", VInt 60)])].

(** [createDiff] of it at block 105, where the diff of [Scenario.w3] is. *)
Definition w : World :=
  Eval vm_compute in snd (createDiff "C" "h105" (VObj payload) Scenario.w3).
End ForeignKind.

(** ** More of the run of contract [C] *)

Module History.
(** A second diff, at block 110, after the one of block 105. *)
Definition w4 : World :=
  Eval vm_compute in
  snd (createDiff "C" "h110" (Scenario.state_of [("owner", VStr "a")]) Scenario.w3).

(** The checkpoint at block 110. *)
Definition w5 : World :=
  Eval vm_compute in snd (createCheckpoint noHooks "C" (Some "h110") VUndef None w4).

(** A row whose payload is [null]. *)
Definition broken : IPLDBlock.t :=
  {| IPLDBlock.block := Scenario.blk 105 "h105"; IPLDBlock.contractAddress := "C";
     IPLDBlock.cid := ""; IPLDBlock.kind := "diff"; IPLDBlock.data := VNull |}.

(** A checkpoint hook that takes over and stores nothing. *)
Definition claiming : Hooks :=
  {| createStateDiff := fun _ => ret tt;
     createStateCheckpoint := fun _ _ => ret true |}.

(** The contract table. *)
Definition contracts : list Contract.t :=
  [{| Contract.address := "C"; Contract.kind := "ERC20"; Contract.checkpoint := true;
      Contract.startingBlock := 100 |};
   {| Contract.address := "D"; Contract.kind := "ERC20"; Contract.checkpoint := false;
      Contract.startingBlock := 100 |}].

(** A payload with two balances, and the update of a third. *)
Definition balances : props :=
  [("state", VObj [("balances", VObj [("0xa", VInt 1); ("7", VInt 2)])])].
End History.

(** * Properties *)

(** ** Checks against known encodings and digests *)

Example merge_arrays_by_index :
  merge (VObj MergeExamples.a) (VObj MergeExamples.b) = Ok (VObj MergeExamples.ab).
Proof. reflexivity. Qed.

Example encode_map :
  hex_of_bytes <$> encode (VObj [("bb", VInt 300); ("a", VArr [VNull; VBool true; VInt (-1)]); ("c", VStr "hi")])
  = Some [0xa3; 0x61; 0x61; 0x83; 0xf6; 0xf5; 0x20; 0x61; 0x63; 0x62; 0x68; 0x69;
          0x62; 0x62; 0x62; 0x19; 0x01; 0x2c].
Proof. reflexivity. Qed.

Example canon_map :
  canon (VObj [("bb", VInt 300); ("a", VObj [("z", VNull); ("y", VNull)]); ("c", VStr "hi")])
  = VObj [("a", VObj [("y", VNull); ("z", VNull)]); ("c", VStr "hi"); ("bb", VInt 300)].
Proof. reflexivity. Qed.

Example sha256_abc :
  hex_of_bytes (SHA256.digest (list_byte_of_string "abc"))
  = [0xba; 0x78; 0x16; 0xbf; 0x8f; 0x01; 0xcf; 0xea; 0x41; 0x41; 0x40; 0xde;
     0x5d; 0xae; 0x22; 0x23; 0xb0; 0x03; 0x61; 0xa3; 0x96; 0x17; 0x7a; 0x9c;
     0xb4; 0x10; 0xff; 0x61; 0xf2; 0x00; 0x15; 0xad].
Proof. vm_compute. reflexivity. Qed.

Example cid_abc :
  cid_toString (CID_create 1 dag_cbor_code (SHA256.digest (list_byte_of_string "abc")))
  = "bafyreif2pall7dybz7vecqka3zo24irdwabwdi4wc55jznaq75q7eaavvu".
Proof. vm_compute. reflexivity. Qed.

Example sha256_two_blocks :
  hex_of_bytes (SHA256.digest (list_byte_of_string
    ("abcdbcdecdefdefgefghfghighijhijkijkljklmklmnlmnomnopnopq" ++
     "abcdbcdecdefdefgefghfghighijhijkijkljklmklmnlmnomnopnopq")%string))
  = [0x59; 0xf1; 0x09; 0xd9; 0x53; 0x3b; 0x2b; 0x70; 0xe7; 0xc3; 0xb8; 0x14;
     0xa2; 0xbd; 0x21; 0x8f; 0x78; 0xea; 0x5d; 0x37; 0x14; 0x45; 0x5b; 0xc6;
     0x79; 0x87; 0xcf; 0x0d; 0x66; 0x43; 0x99; 0xcf].
Proof. vm_compute. reflexivity. Qed.

Local Close Scope M_scope.

(** ** Results *)

Lemma rbind_Ok {A B} (r : result A) (f : A -> result B) (b : B) :
  rbind r f = Ok b <-> exists a, r = Ok a /\ f a = Ok b.
Proof.
  destruct r; simpl; split; try (intros [a' [? ?]]); try congruence; eauto.
Qed.

Lemma rmap_Ok {A B} (f : A -> B) (r : result A) (b : B) :
  rmap f r = Ok b <-> exists a, r = Ok a /\ b = f a.
Proof.
  unfold rmap. rewrite rbind_Ok. split; intros [a [? ?]]; exists a; split; congruence.
Qed.

Ltac inv_result :=
  repeat match goal with
  | H : rbind _ _ = Ok _ |- _ => apply rbind_Ok in H; destruct H as [? [? H]]
  | H : rmap _ _ = Ok _ |- _ => apply rmap_Ok in H; destruct H as [? [? H]]
  | H : Ok _ = Ok _ |- _ => injection H as H
  | H : Throw _ = Ok _ |- _ => discriminate H
  | H : Exotic = Ok _ |- _ => discriminate H
  end.

(** ** Properties of objects *)

Lemma prop_get_set_eq {A} k (v : A) o : prop_get k (prop_set k v o) = Some v.
Proof.
  induction o as [|[k' v'] o IH]; simpl.
  - by rewrite String.eqb_refl.
  - destruct (String.eqb k k') eqn:E; simpl; rewrite ?String.eqb_refl, ?E; auto.
Qed.

Lemma prop_get_set_ne {A} k k' (v : A) o :
  k <> k' -> prop_get k' (prop_set k v o) = prop_get k' o.
Proof.
  intros Hne. induction o as [|[k0 v0] o IH]; simpl.
  - destruct (String.eqb k' k) eqn:E; auto. apply String.eqb_eq in E. congruence.
  - destruct (String.eqb k k0) eqn:E; simpl.
    + apply String.eqb_eq in E. subst k0.
      destruct (String.eqb k' k) eqn:E'; auto. apply String.eqb_eq in E'. congruence.
    + by rewrite IH.
Qed.

Lemma prop_set_same {A} k (v : A) o : prop_get k o = Some v -> prop_set k v o = o.
Proof.
  induction o as [|[k' v'] o IH]; simpl; [done|].
  destruct (String.eqb k k') eqn:E.
  - apply String.eqb_eq in E. intros [= ->]. by subst.
  - intros H. by rewrite IH.
Qed.

Lemma prop_get_None {A} k (o : list (string * A)) : prop_get k o = None <-> k ∉ keys o.
Proof.
  induction o as [|[k' v'] o IH]; simpl.
  - split; [intros _; apply not_elem_of_nil|done].
  - rewrite not_elem_of_cons. destruct (String.eqb k k') eqn:E.
    + apply String.eqb_eq in E. split; [done|]. intros [? _]. done.
    + apply String.eqb_neq in E. rewrite IH. tauto.
Qed.

Lemma prop_get_In {A} k (v : A) o : prop_get k o = Some v -> (k, v) ∈ o.
Proof.
  induction o as [|[k' v'] o IH]; simpl; [done|].
  destruct (String.eqb k k') eqn:E.
  - apply String.eqb_eq in E. intros [= ->]. subst. left.
  - intros H. right. auto.
Qed.

Lemma prop_get_Some_key {A} k (v : A) o : prop_get k o = Some v -> k ∈ keys o.
Proof.
  intros H%prop_get_In. change k with (fst (k, v)). by apply list_elem_of_fmap_2.
Qed.

Lemma prop_get_NoDup {A} k (v : A) o :
  NoDup (keys o) -> (k, v) ∈ o -> prop_get k o = Some v.
Proof.
  induction o as [|[k' v'] o IH]; simpl; [by intros _ ?%elem_of_nil|].
  intros [Hk Hnd]%NoDup_cons [[= -> ->]|Hin]%elem_of_cons; [by rewrite String.eqb_refl|].
  destruct (String.eqb k k') eqn:E; [|auto].
  apply String.eqb_eq in E. subst k'. exfalso. apply Hk.
  change k with (fst (k, v)). by apply list_elem_of_fmap_2.
Qed.

Lemma nodupb_NoDup l : nodupb l = true -> NoDup l.
Proof.
  induction l as [|x l IH]; simpl; [intros _; apply NoDup_nil; done|].
  intros [Hx Hl]%andb_true_iff. apply NoDup_cons. split; [|auto].
  intros Hin. apply negb_true_iff in Hx.
  assert (existsb (String.eqb x) l = true); [|congruence].
  apply existsb_exists. exists x. split; [by apply list_elem_of_In|apply String.eqb_refl].
Qed.

Lemma wfb_wf v : wfb v = true -> wf v.
Proof.
  induction v as [| | | | |l IHl|o IHo] using value_ind_deep; simpl; try by constructor.
  - intros H. constructor. rewrite forallb_forall in H.
    rewrite Forall_forall in *. intros x Hx. apply IHl; [done|]. apply H.
    by apply list_elem_of_In.
  - intros [H1 H2]%andb_true_iff. constructor; [by apply nodupb_NoDup|].
    rewrite forallb_forall in H2. rewrite Forall_forall in *.
    intros x Hx. apply IHo; [done|]. apply H2. by apply list_elem_of_In.
Qed.

(** ** lodash merge: its equations *)

Lemma baseMergeDeep_arr objValue src :
  baseMergeDeep objValue (VArr src) =
    if isArrayLikeObject objValue then Exotic
    else rmap VArr (mergeElems (dest_elems objValue) src).
Proof.
  assert (E : forall dst,
    (fix elems (dst src : list value) {struct src} : result (list value) :=
       match src with
       | [] => Ok dst
       | s :: src' =>
           match dst with
           | [] => rbind (baseMergeDeep None s) (fun v =>
                   rbind (elems [] src') (fun r => Ok (v :: r)))
           | d :: dst' => rbind (baseMergeDeep (Some d) s) (fun v =>
                   rbind (elems dst' src') (fun r => Ok (v :: r)))
           end
       end) dst src = mergeElems dst src).
  { induction src as [|s src IH]; intros dst; [done|].
    simpl. destruct dst; rewrite IH; done. }
  simpl. destruct objValue as [[]|]; simpl; by rewrite E.
Qed.

Lemma baseMergeDeep_arr_Ok objValue src r :
  baseMergeDeep objValue (VArr src) = Ok r ->
  exists zs, mergeElems (dest_elems objValue) src = Ok zs /\ r = VArr zs.
Proof.
  rewrite baseMergeDeep_arr. destruct (isArrayLikeObject objValue); [done|].
  by intros ?%rmap_Ok.
Qed.

Lemma baseMergeDeep_obj objValue src :
  baseMergeDeep objValue (VObj src) =
    match objValue with
    | Some (VArr dst) =>
        match src with
        | [] => Ok (VArr dst)
        | _ :: _ => Exotic
        end
    | _ => rmap VObj (mergeProps (dest_props objValue) src)
    end.
Proof.
  assert (E : forall dst,
    (fix own (dst src : props) {struct src} : result props :=
       match src with
       | [] => Ok dst
       | (k, s) :: src' =>
           if own_name k then
             rbind (baseMergeDeep (prop_get k dst) s) (fun v => own (prop_set k v dst) src')
           else Exotic
       end) dst src = mergeProps dst src).
  { induction src as [|[k s] src IH]; intros dst; [done|].
    simpl. destruct (own_name k); [|done].
    destruct (baseMergeDeep (prop_get k dst) s); simpl; auto. }
  simpl. destruct objValue as [[]|]; simpl; by rewrite ?E.
Qed.

Lemma rbind_no_throw {A B} (r : result A) (f : A -> result B) e :
  r <> Throw e -> (forall a, f a <> Throw e) -> rbind r f <> Throw e.
Proof. destruct r; simpl; intros H1 H2; auto; congruence. Qed.

Lemma baseMergeDeep_never_throws objValue srcValue e :
  baseMergeDeep objValue srcValue <> Throw e.
Proof.
  revert objValue. induction srcValue as [| | | | |l IHl|o IHo] using value_ind_deep;
    intros objValue; try (simpl; destruct objValue; congruence).
  - rewrite baseMergeDeep_arr. destruct (isArrayLikeObject objValue); [done|].
    generalize (dest_elems objValue). clear objValue.
    assert (forall dst, mergeElems dst l <> Throw e) as Hl.
    { induction IHl as [|s src Hs Hsrc IH]; intros dst; simpl; [congruence|].
      destruct dst as [|d dst]; apply rbind_no_throw; auto; intros v;
        apply rbind_no_throw; auto; congruence. }
    intros dst. apply rbind_no_throw; auto; congruence.
  - rewrite baseMergeDeep_obj.
    assert (forall dst, mergeProps dst o <> Throw e) as Ho.
    { induction IHo as [|[k s] src Hs Hsrc IH]; intros dst; simpl; [congruence|].
      destruct (own_name k); [|done]. apply rbind_no_throw; auto. }
    destruct objValue as [[]|]; simpl;
      try (apply rbind_no_throw; [apply Ho|intros; congruence]).
    destruct o; congruence.
Qed.

(** ** lodash merge: what a key and an index hold afterwards *)

Lemma mergeProps_get_other dst src r k :
  mergeProps dst src = Ok r -> k ∉ keys src -> prop_get k r = prop_get k dst.
Proof.
  revert dst. induction src as [|[k' s] src IH]; intros dst; simpl.
  - by intros [= ->].
  - destruct (own_name k'); [|done].
    intros H [Hk Hks]%not_elem_of_cons. inv_result.
    rewrite (IH _ H Hks). apply prop_get_set_ne. congruence.
Qed.

Lemma mergeProps_get dst src r k s :
  NoDup (keys src) -> mergeProps dst src = Ok r -> prop_get k src = Some s ->
  exists v, prop_get k r = Some v /\ baseMergeDeep (prop_get k dst) s = Ok v.
Proof.
  revert dst. induction src as [|[k' s'] src IH]; intros dst; simpl; [done|].
  intros [Hk' Hnd]%NoDup_cons H Hget. destruct (own_name k'); [|done]. inv_result.
  destruct (String.eqb k k') eqn:E.
  - apply String.eqb_eq in E. subst k'. injection Hget as ->.
    eexists. split; [|eassumption].
    rewrite (mergeProps_get_other _ _ _ _ H Hk'). apply prop_get_set_eq.
  - apply String.eqb_neq in E.
    destruct (IH _ Hnd H Hget) as [v [Hv Hm]]. exists v. split; [done|].
    rewrite prop_get_set_ne in Hm by congruence. done.
Qed.

Lemma mergeElems_length dst src r :
  mergeElems dst src = Ok r -> length r = Nat.max (length dst) (length src).
Proof.
  revert dst r. induction src as [|s src IH]; intros dst r; simpl.
  - intros [= ->]. lia.
  - destruct dst as [|d dst]; intros H; inv_result; subst r; simpl;
      erewrite IH by eassumption; simpl; lia.
Qed.

Lemma mergeElems_lookup dst src r (i : nat) s :
  mergeElems dst src = Ok r -> src !! i = Some s ->
  exists v, r !! i = Some v /\ baseMergeDeep (dst !! i) s = Ok v.
Proof.
  revert dst r i. induction src as [|s' src IH]; intros dst r i; simpl; [done|].
  destruct dst as [|d dst]; intros H Hi; inv_result; subst r;
    destruct i as [|i]; simpl in *.
  - injection Hi as ->. eauto.
  - edestruct IH as [v [? ?]]; [eassumption..|]. eauto.
  - injection Hi as ->. eauto.
  - edestruct IH as [v [? ?]]; [eassumption..|]. eauto.
Qed.

Lemma mergeElems_lookup_beyond dst src r (i : nat) :
  mergeElems dst src = Ok r -> (length src <= i)%nat -> r !! i = dst !! i.
Proof.
  revert dst r i. induction src as [|s' src IH]; intros dst r i; simpl.
  - by intros [= ->].
  - destruct dst as [|d dst]; intros H Hi; inv_result; subst r;
      (destruct i as [|i]; simpl in *; [lia|]).
    + erewrite IH by (eassumption || lia). done.
    + eapply IH; [eassumption|lia].
Qed.

(** [baseMergeDeep] into a plain object, or into a key that holds none, is
    [_.merge] itself: the recursion on nested maps. *)
Lemma baseMergeDeep_obj_merge objValue src :
  (forall dst, objValue <> Some (VArr dst)) ->
  baseMergeDeep objValue (VObj src) = merge (VObj (dest_props objValue)) (VObj src).
Proof.
  intros Hna. rewrite baseMergeDeep_obj.
  destruct objValue as [[]|]; simpl; try done. by destruct (Hna elems).
Qed.

(** ** The deep merge

    C5, as stated, fails: when [a] and [b] hold an array under one key, the
    merged entry is not [b]'s array.  [{xs: [1, 2, 3], n: 0}] merged with
    [{xs: [9]}] holds [[9, 2, 3]] under [xs]. *)
Lemma merge_array_not_replaced :
  ~ (forall (a b r : props) (k : string) (xs ys : list value),
       wf (VObj a) -> wf (VObj b) ->
       merge (VObj a) (VObj b) = Ok (VObj r) ->
       prop_get k a = Some (VArr xs) -> prop_get k b = Some (VArr ys) ->
       prop_get k r = Some (VArr ys)).
Proof.
  intros H.
  specialize (H [("xs", VArr [VInt 1; VInt 2; VInt 3]); ("n", VInt 0)]
                [("xs", VArr [VInt 9])]
                [("xs", VArr [VInt 9; VInt 2; VInt 3]); ("n", VInt 0)]
                "xs" [VInt 1; VInt 2; VInt 3] [VInt 9]).
  assert (prop_get "xs" [("xs", VArr [VInt 9; VInt 2; VInt 3]); ("n", VInt 0)]
          = Some (VArr [VInt 9])) as Habs; [|discriminate Habs].
  apply H; try reflexivity; by apply wfb_wf.
Qed.

(** C5, amended: merging [b] into [a] leaves the keys of [a] that [b] lacks,
    and under a key [k] of [b] with value [s] the result holds: [s] itself
    when [s] is a scalar; what [a] held when [s] is [undefined]; the merge of
    [s] into [a]'s value when [s] is a map (a fresh map when [a] holds none);
    and, when [s] is an array, an array merged index by index: as long as
    the longer of the two, below the length of [s] the merge of the element
    of [s] into the element of [a]'s array, beyond it the element of [a]'s
    array, [a]'s array being empty when [a] holds none under [k].  A merge
    that leaves the data model (an array given named properties, an object
    with a [length] taken for an array, a key of an inherited name) is not
    [Ok]. *)
Theorem merge_entry (a b : props) (r : value) (k : string) (s : value) :
  NoDup (keys b) -> merge (VObj a) (VObj b) = Ok r -> prop_get k b = Some s ->
  exists (o : props) (v : value),
    r = VObj o /\
    (forall k', k' ∉ keys b -> prop_get k' o = prop_get k' a) /\
    prop_get k o = Some v /\
    match s with
    | VUndef => v = default VUndef (prop_get k a)
    | VArr ys =>
        let xs := dest_elems (prop_get k a) in
        exists zs : list value,
          v = VArr zs /\
          length zs = Nat.max (length xs) (length ys) /\
          (forall (i : nat) y, ys !! i = Some y ->
             exists z, zs !! i = Some z /\ baseMergeDeep (xs !! i) y = Ok z) /\
          (forall i : nat, (length ys <= i)%nat -> zs !! i = xs !! i)
    | VObj b' =>
        (forall dst, prop_get k a = Some (VArr dst) -> b' = [] /\ v = VArr dst) /\
        ((forall dst, prop_get k a <> Some (VArr dst)) ->
           merge (VObj (dest_props (prop_get k a))) (VObj b') = Ok v)
    | _ => v = s
    end.
Proof.
  intros Hnd Hm Hs. unfold merge, baseMerge in Hm. simpl in Hm.
  apply rmap_Ok in Hm as [o [Hm ->]].
  destruct (mergeProps_get _ _ _ _ _ Hnd Hm Hs) as [v [Hv Hd]].
  exists o, v. split; [done|]. split; [intros k' Hk'; eapply mergeProps_get_other; eauto|].
  split; [done|].
  destruct s as [| | | | |ys|b']; try (simpl in Hd; by injection Hd as <-).
  - simpl in Hd. destruct (prop_get k a); by injection Hd as <-.
  - apply baseMergeDeep_arr_Ok in Hd as [zs [Hd ->]]. simpl.
    exists zs. split; [done|]. split; [by apply mergeElems_length|].
    split; [intros i y Hy; eapply mergeElems_lookup; eauto|].
    intros i Hi. eapply mergeElems_lookup_beyond; eauto.
  - split.
    + intros dst Hdst. rewrite baseMergeDeep_obj, Hdst in Hd.
      destruct b'; [|discriminate Hd]. by injection Hd as <-.
    + intros Hna. by rewrite <- baseMergeDeep_obj_merge.
Qed.

(** ** Sorting *)

Section SortingFacts.
Context {A : Type} (leb : A -> A -> bool).
Let le (a b : A) : Prop := leb a b = true.

Lemma insert_by_perm x l : insert_by leb x l ≡ₚ x :: l.
Proof.
  induction l as [|y l IH]; simpl; [done|].
  destruct (leb x y); [done|]. rewrite IH. apply Permutation_swap.
Qed.

Lemma sort_by_perm l : sort_by leb l ≡ₚ l.
Proof.
  induction l as [|x l IH]; simpl; [done|]. by rewrite insert_by_perm, IH.
Qed.

Lemma sort_by_length l : length (sort_by leb l) = length l.
Proof. apply Permutation_length, sort_by_perm. Qed.

Lemma sort_by_id l : Sorted le l -> sort_by leb l = l.
Proof.
  induction 1 as [|x l Hl IH Hx]; simpl; [done|].
  rewrite IH. destruct Hx as [|y l Hxy]; simpl; [done|].
  unfold le in Hxy. by rewrite Hxy.
Qed.

Hypothesis leb_total : forall a b, leb a b = true \/ leb b a = true.

Lemma insert_by_sorted x l : Sorted le l -> Sorted le (insert_by leb x l).
Proof.
  induction 1 as [|y l Hl IH Hy]; simpl; [by repeat constructor|].
  destruct (leb x y) eqn:E.
  - constructor; [by constructor|]. by constructor.
  - constructor; [done|].
    destruct Hy as [|z l Hyz]; simpl.
    + constructor. unfold le. destruct (leb_total x y); congruence.
    + destruct (leb x z); constructor; [|done].
      unfold le. destruct (leb_total x y); congruence.
Qed.

Lemma sort_by_sorted l : Sorted le (sort_by leb l).
Proof.
  induction l as [|x l IH]; simpl; [constructor|]. by apply insert_by_sorted.
Qed.

Lemma sort_by_idemp l : sort_by leb (sort_by leb l) = sort_by leb l.
Proof. apply sort_by_id, sort_by_sorted. Qed.

Hypothesis leb_trans : forall a b c, leb a b = true -> leb b c = true -> leb a c = true.

(** Two sorted arrangements of the same elements are one, when no two
    elements are each below the other. *)
Lemma sorted_perm_eq l1 l2 :
  Sorted le l1 -> Sorted le l2 -> l1 ≡ₚ l2 ->
  (forall a b, a ∈ l1 -> b ∈ l1 -> le a b -> le b a -> a = b) ->
  l1 = l2.
Proof.
  intros H1 H2. apply Sorted_StronglySorted in H1, H2;
    try (intros a b c; apply leb_trans).
  revert l2 H2. induction H1 as [|x l1 Hl1 IH Hx]; intros l2 H2 Hp Hanti.
  - by apply Permutation_nil in Hp.
  - destruct H2 as [|y l2 Hl2 Hy]; [by apply Permutation_sym, Permutation_nil in Hp|].
    assert (x = y) as ->.
    { assert (x ∈ y :: l2) as Hxin by (rewrite <- Hp; left).
      assert (y ∈ x :: l1) as Hyin by (rewrite Hp; left).
      apply elem_of_cons in Hxin as [->|Hxin]; [done|].
      apply elem_of_cons in Hyin as [->|Hyin]; [done|].
      apply Hanti; [left|by right| |].
      - rewrite List.Forall_forall in Hx. apply Hx. by apply list_elem_of_In.
      - rewrite List.Forall_forall in Hy. apply Hy. by apply list_elem_of_In. }
    f_equal. apply IH; [done|by apply Permutation_cons_inv in Hp|].
    intros a b Ha Hb. apply Hanti; by right.
Qed.

Lemma sort_by_perm_eq l1 l2 :
  l1 ≡ₚ l2 ->
  (forall a b, a ∈ l1 -> b ∈ l1 -> le a b -> le b a -> a = b) ->
  sort_by leb l1 = sort_by leb l2.
Proof.
  intros Hp Hanti. apply sorted_perm_eq; try apply sort_by_sorted.
  - by rewrite !sort_by_perm.
  - intros a b Ha Hb. rewrite sort_by_perm in Ha, Hb. by apply Hanti.
Qed.
End SortingFacts.

Lemma sort_by_map {A B} (lebA : A -> A -> bool) (lebB : B -> B -> bool) (f : A -> B) l :
  (forall a b, lebB (f a) (f b) = lebA a b) ->
  sort_by lebB (map f l) = map f (sort_by lebA l).
Proof.
  intros Hf. induction l as [|x l IH]; simpl; [done|]. rewrite IH.
  generalize (sort_by lebA l). clear IH. intros s.
  induction s as [|y s IHs]; simpl; [done|].
  rewrite Hf. destruct (lebA x y); simpl; [done|]. by rewrite IHs.
Qed.

(** The order of keys. *)

Lemma string_leb_iff a b : String.leb a b = true <-> OrderedTypeEx.String_as_OT.lt a b \/ a = b.
Proof.
  unfold String.leb. rewrite <- OrderedTypeEx.String_as_OT.cmp_lt, <- OrderedTypeEx.String_as_OT.cmp_eq.
  unfold OrderedTypeEx.String_as_OT.cmp. destruct (String.compare a b); split;
    intros H; try done; auto; destruct H; discriminate.
Qed.

Lemma string_leb_trans a b c :
  String.leb a b = true -> String.leb b c = true -> String.leb a c = true.
Proof.
  rewrite !string_leb_iff. intros [H1| ->] [H2| ->]; auto.
  left. eapply OrderedTypeEx.String_as_OT.lt_trans; eauto.
Qed.

Lemma string_leb_refl a : String.leb a a = true.
Proof. apply string_leb_iff. by right. Qed.

Lemma key_leb_refl a : key_leb a a = true.
Proof. unfold key_leb. rewrite Nat.ltb_irrefl. apply string_leb_refl. Qed.

Lemma key_leb_total a b : key_leb a b = true \/ key_leb b a = true.
Proof.
  unfold key_leb.
  destruct (Nat.ltb_spec (String.length a) (String.length b)); [by left|].
  destruct (Nat.ltb_spec (String.length b) (String.length a)); [by right|].
  apply String.leb_total.
Qed.

Lemma key_leb_antisym a b : key_leb a b = true -> key_leb b a = true -> a = b.
Proof.
  unfold key_leb.
  destruct (Nat.ltb_spec (String.length a) (String.length b));
    destruct (Nat.ltb_spec (String.length b) (String.length a)); try done; try lia.
  apply String.leb_antisym.
Qed.

Lemma key_leb_trans a b c : key_leb a b = true -> key_leb b c = true -> key_leb a c = true.
Proof.
  unfold key_leb.
  destruct (Nat.ltb_spec (String.length a) (String.length b));
    destruct (Nat.ltb_spec (String.length b) (String.length a));
    destruct (Nat.ltb_spec (String.length b) (String.length c));
    destruct (Nat.ltb_spec (String.length c) (String.length b));
    destruct (Nat.ltb_spec (String.length a) (String.length c));
    destruct (Nat.ltb_spec (String.length c) (String.length a));
    try done; try lia.
  apply string_leb_trans.
Qed.

Lemma entry_leb_total {A} (a b : string * A) : entry_leb a b = true \/ entry_leb b a = true.
Proof. apply key_leb_total. Qed.

Lemma entry_leb_trans {A} (a b c : string * A) :
  entry_leb a b = true -> entry_leb b c = true -> entry_leb a c = true.
Proof. apply key_leb_trans. Qed.

Lemma sort_entries_idemp {A} (l : list (string * A)) :
  sort_entries (sort_entries l) = sort_entries l.
Proof. apply sort_by_idemp, entry_leb_total. Qed.

Lemma sort_entries_map {A B} (f : string * A -> string * B) l :
  (forall e, fst (f e) = fst e) ->
  sort_entries (map f l) = map f (sort_entries l).
Proof. intros Hf. apply sort_by_map. intros a b. unfold entry_leb. by rewrite !Hf. Qed.

Lemma sort_entries_length {A} (l : list (string * A)) :
  length (sort_entries l) = length l.
Proof. apply sort_by_length. Qed.

Lemma keys_sort_entries {A} (l : list (string * A)) : keys (sort_entries l) ≡ₚ keys l.
Proof. unfold keys. apply Permutation_map, sort_by_perm. Qed.

(** Sorting is stable, so it keeps what a key reads. *)
Lemma prop_get_insert {A} k (e : string * A) l :
  prop_get k (insert_by entry_leb e l)
  = if String.eqb k (fst e) then Some (snd e) else prop_get k l.
Proof.
  destruct e as [k' v]. induction l as [|[k0 v0] l IH]; simpl; [done|].
  unfold entry_leb at 1. simpl. destruct (key_leb k' k0) eqn:E; simpl; [done|].
  simpl in IH. rewrite IH. destruct (String.eqb k k') eqn:E1; [|done].
  destruct (String.eqb k k0) eqn:E0; [|done].
  apply String.eqb_eq in E1, E0. subst. by rewrite key_leb_refl in E.
Qed.

Lemma prop_get_sort {A} k (l : list (string * A)) : prop_get k (sort_entries l) = prop_get k l.
Proof.
  induction l as [|[k' v] l IH]; simpl; [done|].
  unfold sort_entries in *. simpl. by rewrite prop_get_insert, IH.
Qed.

Lemma prop_get_map {A B} (f : A -> B) k (l : list (string * A)) :
  prop_get k (map (fun kv => (fst kv, f (snd kv))) l) = f <$> prop_get k l.
Proof.
  induction l as [|[k' v] l IH]; simpl; [done|]. by destruct (String.eqb k k').
Qed.

(** ** The codec's view of a value *)

Lemma canon_obj o : canon (VObj o) = VObj (sort_entries (map canon_entry o)).
Proof. reflexivity. Qed.

Lemma canon_entry_fst e : fst (canon_entry e) = fst e.
Proof. reflexivity. Qed.

Lemma prop_get_canon k o :
  prop_get k (sort_entries (map canon_entry o)) = canon <$> prop_get k o.
Proof. rewrite prop_get_sort. apply prop_get_map. Qed.

Lemma canon_idemp v : canon (canon v) = canon v.
Proof.
  induction v as [| | | | |l IHl|o IHo] using value_ind_deep; try done.
  - simpl. f_equal. rewrite map_map. apply map_ext_Forall. done.
  - rewrite !canon_obj. f_equal.
    rewrite sort_entries_map by apply canon_entry_fst.
    rewrite sort_entries_idemp. rewrite <- sort_entries_map by apply canon_entry_fst.
    f_equal. rewrite map_map. apply map_ext_Forall.
    eapply Forall_impl; [exact IHo|]. intros [k v] Hv. unfold canon_entry. simpl in *.
    by rewrite Hv.
Qed.

Lemma member_canon k v : member k (canon v) = rmap canon (member k v).
Proof.
  destruct v as [| | | | | |o]; try done.
  unfold member. rewrite canon_obj. rewrite prop_get_canon.
  by destruct (prop_get k o).
Qed.

(** Encoding does not depend on the order of keys the value came with. *)

Lemma encode_arr l :
  encode (VArr l) = h ← cbor_head 4 (len l); body ← encode_items l; Some (h ++ body).
Proof.
  assert (E : (fix items (l : list value) : option bytes :=
                 match l with
                 | [] => Some []
                 | x :: l' => b ← encode x; r ← items l'; Some (b ++ r)
                 end) l = encode_items l).
  { induction l as [|x l IH]; simpl; [done|]. by rewrite IH. }
  simpl. by rewrite E.
Qed.

Lemma encode_obj o :
  encode (VObj o) =
    h ← cbor_head 5 (len o); es ← encode_entries o;
    Some (h ++ concat (map snd (sort_entries es))).
Proof.
  simpl. destruct (cbor_head 5 (len o)); simpl; [|done].
  match goal with
  | |- ?f o ≫= _ = _ => assert (f o = encode_entries o) as ->; [|done]
  end.
  induction o as [|[k x] o IH]; simpl; [done|]. by rewrite IH.
Qed.

Lemma encode_entries_cons kv o :
  encode_entries (kv :: o) = e ← encode_entry kv; r ← encode_entries o; Some (e :: r).
Proof.
  destruct kv as [k x]. simpl. unfold encode_entry. simpl.
  destruct (encode_string k); simpl; [|done]. destruct (encode x); simpl; done.
Qed.

Lemma encode_entry_fst kv e : encode_entry kv = Some e -> fst e = fst kv.
Proof.
  unfold encode_entry. destruct (encode_string (fst kv)); simpl; [|done].
  destruct (encode (snd kv)); simpl; [|done]. by intros [= <-].
Qed.

Lemma encode_entries_insert e o :
  encode_entries (insert_by entry_leb e o)
  = e' ← encode_entry e; r ← encode_entries o; Some (insert_by entry_leb e' r).
Proof.
  induction o as [|y o IH].
  - simpl insert_by. rewrite encode_entries_cons. simpl.
    destruct (encode_entry e); done.
  - simpl insert_by. destruct (entry_leb e y) eqn:E.
    + rewrite !encode_entries_cons.
      destruct (encode_entry e) as [e'|] eqn:He; simpl; [|done].
      destruct (encode_entry y) as [y'|] eqn:Hy; simpl; [|done].
      destruct (encode_entries o); simpl; [|done].
      unfold entry_leb in *.
      by rewrite (encode_entry_fst _ _ He), (encode_entry_fst _ _ Hy), E.
    + rewrite !encode_entries_cons, IH.
      destruct (encode_entry y) as [y'|] eqn:Hy; simpl;
        [|by destruct (encode_entry e) as [e'|]; simpl;
             [destruct (encode_entries o)|]].
      destruct (encode_entry e) as [e'|] eqn:He; simpl; [|done].
      destruct (encode_entries o); simpl; [|done].
      unfold entry_leb in *.
      by rewrite (encode_entry_fst _ _ He), (encode_entry_fst _ _ Hy), E.
Qed.

Lemma encode_entries_sort o :
  encode_entries (sort_entries o) = sort_entries <$> encode_entries o.
Proof.
  induction o as [|e o IH]; [done|].
  unfold sort_entries in *. simpl sort_by. rewrite encode_entries_insert, IH.
  rewrite encode_entries_cons.
  destruct (encode_entry e); simpl; [|done]. by destruct (encode_entries o).
Qed.

Lemma encode_canon v : encode (canon v) = encode v.
Proof.
  induction v as [| | | | |l IHl|o IHo] using value_ind_deep; try done.
  - simpl canon. rewrite !encode_arr. unfold len. rewrite length_map.
    destruct (cbor_head 4 _); simpl; [|done].
    assert (encode_items (map canon l) = encode_items l) as ->; [|done].
    induction IHl as [|x l Hx Hl IH]; simpl; [done|]. by rewrite Hx, IH.
  - rewrite canon_obj, !encode_obj. unfold len.
    rewrite sort_entries_length, length_map.
    destruct (cbor_head 5 _); simpl; [|done].
    rewrite encode_entries_sort.
    assert (encode_entries (map canon_entry o) = encode_entries o) as ->.
    { induction IHo as [|[k x] o Hx Ho IH]; [done|].
      rewrite map_cons, !encode_entries_cons, IH. unfold encode_entry, canon_entry.
      simpl in *. by rewrite Hx. }
    destruct (encode_entries o); simpl; [|done]. by rewrite sort_entries_idemp.
Qed.

(** ** lodash merge: merging the same source again changes nothing *)

Lemma plain_arr l : plain (VArr l) -> Forall plain l.
Proof.
  unfold plain. simpl. rewrite forallb_forall, Forall_forall.
  intros H x Hx. by apply H, list_elem_of_In.
Qed.

Lemma plain_obj o :
  plain (VObj o) -> Forall (fun kv => own_name (fst kv) = true /\ plain (snd kv)) o.
Proof.
  unfold plain. simpl. rewrite forallb_forall, Forall_forall.
  intros H x Hx. by apply andb_true_iff, H, list_elem_of_In.
Qed.

Lemma mergeProps_own dst src r k :
  mergeProps dst src = Ok r -> k ∈ keys src -> own_name k = true.
Proof.
  revert dst. induction src as [|[k' s] src IH]; intros dst; simpl.
  - by intros _ ?%elem_of_nil.
  - destruct (own_name k') eqn:E; [|done].
    intros H [->|Hk]%elem_of_cons; [done|]. inv_result. eauto.
Qed.

(** Merging into a key that holds nothing copies the source. *)
Lemma baseMergeDeep_copy v : wf v -> plain v -> baseMergeDeep None v = Ok v.
Proof.
  induction v as [| | | | |l IHl|o IHo] using value_ind_deep; try done.
  - intros Hwf Hpl%plain_arr. inversion Hwf as [| | | | |? Hl|]; subst.
    rewrite baseMergeDeep_arr. simpl.
    assert (mergeElems [] l = Ok l) as ->; [|done].
    induction IHl as [|x l Hx _ IH]; simpl; [done|].
    apply Forall_cons in Hl as [Hwx Hwl]. apply Forall_cons in Hpl as [Hpx Hpl].
    rewrite Hx, IH by (done || by constructor). done.
  - intros Hwf Hpl%plain_obj. inversion Hwf as [| | | | | |? Hnd Ho]; subst.
    rewrite baseMergeDeep_obj. simpl.
    assert (forall dst, (forall k, k ∈ keys o -> k ∉ keys dst) ->
                        mergeProps dst o = Ok (dst ++ o)) as Hgen.
    { clear Hwf. induction IHo as [|[k x] o Hx _ IH]; intros dst Hfresh; simpl.
      - by rewrite app_nil_r.
      - apply NoDup_cons in Hnd as [Hk Hnd]. apply Forall_cons in Ho as [Hwx Ho].
        apply Forall_cons in Hpl as [[Hown Hpx] Hpl]. simpl in Hown, Hpx. rewrite Hown.
        assert (prop_get k dst = None) as Hnone.
        { apply prop_get_None, Hfresh. left. }
        simpl in Hx. rewrite Hnone, Hx by done. simpl.
        assert (prop_set k x dst = dst ++ [(k, x)]) as ->.
        { clear -Hnone. induction dst as [|[k' v'] dst IHd]; simpl in *; [done|].
          destruct (String.eqb k k'); [done|]. by rewrite IHd. }
        rewrite IH; [by rewrite <- app_assoc|done..|].
        intros k' Hk'. unfold keys. rewrite map_app. simpl.
        rewrite elem_of_app, list_elem_of_singleton.
        intros [Hin| ->]; [|done]. eapply Hfresh; [right; exact Hk'|done]. }
    rewrite Hgen; [done|]. intros k _. apply not_elem_of_nil.
Qed.

Lemma mergeElems_again l :
  Forall (fun s => forall objValue r,
            baseMergeDeep objValue s = Ok r ->
            baseMergeDeep (Some (canon r)) s = Ok (canon r)) l ->
  forall dst zs, mergeElems dst l = Ok zs ->
                 mergeElems (map canon zs) l = Ok (map canon zs).
Proof.
  induction 1 as [|s src Hs _ IH]; intros dst zs; simpl.
  - by intros [= ->].
  - destruct dst as [|d dst]; intros H;
      apply rbind_Ok in H as [v [Hv H]]; apply rbind_Ok in H as [r [Hr [= <-]]];
      simpl; rewrite (Hs _ _ Hv); simpl; rewrite (IH _ _ Hr); done.
Qed.

Lemma mergeProps_again src C :
  Forall (fun kv => own_name (fst kv) = true /\
                    exists v, prop_get (fst kv) C = Some v /\
                              baseMergeDeep (Some v) (snd kv) = Ok v) src ->
  mergeProps C src = Ok C.
Proof.
  induction 1 as [|[k s] src [Hown [v [Hget Hm]]] _ IH]; simpl; [done|].
  simpl in *. rewrite Hown, Hget, Hm. simpl. by rewrite (prop_set_same _ _ _ Hget).
Qed.

Lemma baseMergeDeep_again srcValue :
  wf srcValue ->
  forall objValue r,
    baseMergeDeep objValue srcValue = Ok r ->
    baseMergeDeep (Some (canon r)) srcValue = Ok (canon r).
Proof.
  induction srcValue as [| | | | |l IHl|o IHo] using value_ind_deep;
    intros Hwf objValue r; try (simpl; by intros [= <-]).
  - simpl. by destruct objValue; intros [= <-].
  - inversion Hwf as [| | | | |? Hl|]; subst.
    intros [zs [Hzs ->]]%baseMergeDeep_arr_Ok. rewrite baseMergeDeep_arr. simpl.
    erewrite mergeElems_again; [done| |exact Hzs].
    rewrite Forall_forall in *. intros s Hs. eauto.
  - inversion Hwf as [| | | | | |? Hnd Ho]; subst.
    rewrite baseMergeDeep_obj.
    assert (forall dst R, mergeProps dst o = Ok R ->
              baseMergeDeep (Some (canon (VObj R))) (VObj o) = Ok (canon (VObj R))) as Hobj.
    { intros dst R HR. rewrite canon_obj, baseMergeDeep_obj.
      rewrite mergeProps_again; [done|].
      rewrite Forall_forall in *. intros [k s] Hks. simpl.
      assert (prop_get k o = Some s) as Hget by by apply prop_get_NoDup.
      split; [by eapply mergeProps_own, prop_get_Some_key|].
      destruct (mergeProps_get _ _ _ _ _ Hnd HR Hget) as [v [Hv Hm]].
      exists (canon v). rewrite prop_get_canon, Hv. split; [done|].
      eapply (IHo (k, s)); [done|by apply (Ho (k, s))|exact Hm]. }
    destruct objValue as [[| | | | |dst|dst]|];
      try (intros [R [HR ->]]%rmap_Ok; by eapply Hobj).
    destruct o; [|done]. by intros [= <-].
Qed.

Lemma toObject_container object obj : toObject object = Ok obj -> is_container obj.
Proof. destruct object; simpl; intros [= <-]; done. Qed.

Lemma toObject_canon obj : is_container obj -> toObject (canon obj) = Ok (canon obj).
Proof. by destruct obj. Qed.

Lemma baseMerge_container obj b r : is_container obj -> baseMerge obj b = Ok r -> is_container r.
Proof.
  unfold baseMerge. intros Hc. destruct (truthy b); [|by intros [= <-]].
  destruct b as [| | | | |src|src]; try (by intros [= <-]); try done.
  - destruct obj as [| | | | |dst|dst]; try done.
    + by intros [zs [_ ->]]%rmap_Ok.
    + destruct src; [|done]. by intros [= <-].
  - destruct obj as [| | | | |dst|dst]; try done.
    + destruct src; [|done]. by intros [= <-].
    + by intros [zs [_ ->]]%rmap_Ok.
Qed.

Lemma baseMerge_again obj b r :
  wf b -> baseMerge obj b = Ok r -> baseMerge (canon r) b = Ok (canon r).
Proof.
  intros Hwf. unfold baseMerge. destruct (truthy b); [|by intros [= <-]].
  destruct b as [| | | | |src|src]; try (by intros [= <-]); try done.
  - inversion Hwf as [| | | | |? Hl|]; subst.
    destruct obj as [| | | | |dst|dst]; try (destruct src; [by intros [= <-]|done]).
    intros [zs [Hzs ->]]%rmap_Ok. simpl.
    erewrite mergeElems_again; [done| |exact Hzs].
    rewrite Forall_forall in *. intros s Hs objValue r'.
    apply baseMergeDeep_again. auto.
  - destruct obj as [| | | | |dst|dst]; try (destruct src; [by intros [= <-]|done]).
    intros [R [HR ->]]%rmap_Ok.
    pose proof (baseMergeDeep_again (VObj src) Hwf (Some (VObj dst)) (VObj R)) as Hagain.
    rewrite canon_obj in Hagain |- *. rewrite !baseMergeDeep_obj in Hagain.
    cbv beta iota delta [dest_props] in Hagain. rewrite HR in Hagain.
    exact (Hagain eq_refl).
Qed.

(** [_.merge(_.merge(a, b), b)], read back through the codec at each step,
    is [_.merge(a, b)]. *)
Lemma merge_again a b r :
  wf b -> merge a b = Ok r -> merge (canon r) b = Ok (canon r).
Proof.
  intros Hwf. unfold merge. intros [obj [Hobj H]]%rbind_Ok.
  apply toObject_container in Hobj.
  rewrite toObject_canon by (eapply baseMerge_container; eauto). simpl.
  by eapply baseMerge_again.
Qed.

(** ** The store and the monad *)

Arguments identifier : simpl never.
Arguments merge : simpl never.
Arguments canon : simpl never.
Arguments encode : simpl never.
Arguments cid_toString : simpl never.
Arguments meta_of : simpl never.
Arguments member : simpl never.
Arguments assign : simpl never.
Arguments String.eqb : simpl never.

Lemma bind_unfold {A B} (m : M A) (f : A -> M B) w :
  bind m f w =
    match m w with
    | (Ok a, w') => f a w'
    | (Throw e, w') => (Throw e, w')
    | (Exotic, w') => (Exotic, w')
    end.
Proof. reflexivity. Qed.

Lemma bind_Ok {A B} (m : M A) (f : A -> M B) w b w2 :
  bind m f w = (Ok b, w2) <-> exists a w1, m w = (Ok a, w1) /\ f a w1 = (Ok b, w2).
Proof.
  rewrite bind_unfold. destruct (m w) as [[a|e|] w1]; split.
  - eauto.
  - by intros [a' [w1' [[= -> ->] ?]]].
  - done.
  - by intros [a' [w1' [[=] ?]]].
  - done.
  - by intros [a' [w1' [[=] ?]]].
Qed.

(** [prepareIPLDBlock] reads the store and leaves it as it is. *)
Lemma prepareIPLDBlock_eq block c data kind w :
  prepareIPLDBlock block c data kind w =
    (if existsb (String.eqb kind) kinds then
       match current w block c kind with
       | [] => let? data := assign "meta" (meta_of c kind (parent_of w block c) block) data in
               row_of block c data
       | [cur] => let? data := merge (IPLDBlock.data cur) data in row_of block c data
       | _ => Throw (AssertionError "currentIPLDBlocks.length <= 1")
       end
     else Throw (AssertionError "_.includes(['diff', 'checkpoint', 'diff_staged'], kind)"),
     w).
Proof.
  unfold prepareIPLDBlock, current, parent_of, row_of.
  rewrite bind_unfold. unfold assert at 1.
  destruct (existsb (String.eqb kind) kinds); [|done].
  cbv beta iota delta [ret]. rewrite bind_unfold.
  unfold getIPLDBlocks at 1, read at 1. unfold key_filter.
  set (cur := List.filter _ (ipldBlocks w)).
  rewrite bind_unfold. unfold assert at 1.
  destruct cur as [|r [|r' cur]].
  - simpl. rewrite !bind_unfold. unfold getLatestIPLDBlock, read, liftR. simpl.
    destruct (assign _ _ _) as [d| |]; simpl; try done.
    rewrite bind_unfold. destruct (identifier d); simpl; [|done].
    rewrite !bind_unfold. destruct (member "meta" d) as [m| |]; simpl; try done.
    destruct (member "kind" m) as [[]| |]; simpl; done.
  - simpl. rewrite !bind_unfold. unfold liftR.
    destruct (merge _ _) as [d| |]; simpl; try done.
    rewrite bind_unfold. destruct (identifier d); simpl; [|done].
    rewrite !bind_unfold. destruct (member "meta" d) as [m| |]; simpl; try done.
    destruct (member "kind" m) as [[]| |]; simpl; done.
  - replace (len (r :: r' :: cur) <=? 1) with false; [done|].
    symmetry. apply Z.leb_gt. unfold len. simpl length. lia.
Qed.

Lemma prepareIPLDBlock_prepared block c data kind w :
  prepareIPLDBlock block c data kind w = (prepared w block c data kind, w).
Proof. unfold prepared. by rewrite prepareIPLDBlock_eq. Qed.

Lemma createDiffStaged_eq c h data w :
  createDiffStaged c h data w =
    match lookup_block w h with
    | None => (Throw (AssertionError "block"), w)
    | Some block => save (prepared w block c data "diff_staged") w
    end.
Proof.
  unfold createDiffStaged, lookup_block. rewrite bind_unfold.
  unfold getBlockProgress at 1, read at 1.
  destruct (find _ (blocks w)) as [block|]; [|done].
  rewrite bind_unfold, prepareIPLDBlock_prepared.
  destruct (prepared w block c data "diff_staged"); done.
Qed.

Lemma createDiff_eq c h data w :
  createDiff c h data w =
    match lookup_block w h with
    | None => (Throw (AssertionError "block"), w)
    | Some block =>
        match latest_checkpoint w c None with
        | None => (Throw (AssertionError "Initial checkpoint doesn't exist"), w)
        | Some checkpoint =>
            if String.eqb (blockHashOf checkpoint) (BlockProgress.blockHash block)
            then (Throw (AssertionError "Checkpoint already created for the block hash."), w)
            else save (prepared w block c data "diff") w
        end
    end.
Proof.
  unfold createDiff, lookup_block, latest_checkpoint. rewrite bind_unfold.
  unfold getBlockProgress at 1, read at 1.
  destruct (find _ (blocks w)) as [block|]; [|done].
  rewrite bind_unfold. unfold getLatestIPLDBlock at 1, read at 1.
  destruct (latest_of _) as [checkpoint|]; [|done].
  rewrite bind_unfold. unfold assert.
  destruct (String.eqb (blockHashOf checkpoint) (BlockProgress.blockHash block)); [done|].
  simpl. rewrite bind_unfold, prepareIPLDBlock_prepared.
  destruct (prepared w block c data "diff"); done.
Qed.

Lemma lookup_block_hash w h b : lookup_block w h = Some b -> BlockProgress.blockHash b = h.
Proof. intros [_ H]%find_some. by apply String.eqb_eq. Qed.

Section IndexerFacts.
Variable hooks : Hooks.

Lemma createCheckpoint_eq c bh data interval w :
  createCheckpoint hooks c bh data interval w =
    match syncStatus w with
    | None => (Throw (AssertionError "syncStatus"), w)
    | Some ss =>
        match lookup_block w (target_hash bh ss) with
        | None => (Throw (AssertionError "currentBlock"), w)
        | Some b =>
            if truthy data then
              match save (prepared w b c data "checkpoint") w with
              | (Ok _, w') => (Ok None, w')
              | (Throw e, w') => (Throw e, w')
              | (Exotic, w') => (Exotic, w')
              end
            else if negb (BlockProgress.isComplete b) then
              (Throw (AssertionError "Block for a checkpoint should be marked as complete"), w)
            else if negb (BlockProgress.blockNumber b
                            <=? SyncStatus.latestCanonicalBlockNumber ss) then
              (Throw (AssertionError "Block for a checkpoint should be in the pruned region"), w)
            else
              match latest_checkpoint w c (Some (BlockProgress.blockNumber b)) with
              | None => (Throw (AssertionError "checkpointBlock"), w)
              | Some cp =>
                  if skips interval b cp then (Ok None, w)
                  else
                    match createStateCheckpoint hooks c (BlockProgress.blockHash b) w with
                    | (Ok true, w1) => (Ok (Some (BlockProgress.blockHash b)), w1)
                    | (Ok false, w1) =>
                        match (let? state := member "state" (IPLDBlock.data cp) in
                               mergeDiffs state (diffs_after w1 c (blockNumberOf cp)))%result with
                        | Ok state =>
                            match save (prepared w1 b c (VObj [("state", state)]) "checkpoint") w1 with
                            | (Ok _, w') => (Ok (Some (BlockProgress.blockHash b)), w')
                            | (Throw e, w') => (Throw e, w')
                            | (Exotic, w') => (Exotic, w')
                            end
                        | Throw e => (Throw e, w1)
                        | Exotic => (Exotic, w1)
                        end
                    | (Throw e, w1) => (Throw e, w1)
                    | (Exotic, w1) => (Exotic, w1)
                    end
              end
        end
    end.
Proof.
  unfold createCheckpoint, lookup_block, latest_checkpoint, target_hash.
  rewrite bind_unfold. unfold getSyncStatus at 1, read at 1.
  destruct (syncStatus w) as [ss|]; [|done].
  rewrite bind_unfold.
  assert (forall h', getBlockProgress h' w =
            (Ok (find (fun b => String.eqb (BlockProgress.blockHash b) h') (blocks w)), w)) as Hg
    by done.
  assert (match bh with
          | Some (String c0 h) => getBlockProgress (String c0 h)
          | _ => getBlockProgress (SyncStatus.latestCanonicalBlockHash ss)
          end w = (Ok (find (fun b => String.eqb (BlockProgress.blockHash b)
                               match bh with
                               | Some (String c0 h) => String c0 h
                               | _ => SyncStatus.latestCanonicalBlockHash ss
                               end) (blocks w)), w)) as ->.
  { destruct bh as [[|]|]; apply Hg. }
  destruct (find _ (blocks w)) as [b|]; [|done].
  destruct (truthy data).
  { rewrite bind_unfold, prepareIPLDBlock_prepared.
    destruct (prepared w b c data "checkpoint"); done. }
  rewrite bind_unfold. unfold assert at 1.
  destruct (BlockProgress.isComplete b); [|done]. simpl.
  rewrite bind_unfold. unfold assert at 1.
  destruct (BlockProgress.blockNumber b <=? SyncStatus.latestCanonicalBlockNumber ss); [|done].
  simpl. rewrite bind_unfold. unfold getLatestIPLDBlock at 1, read at 1.
  destruct (latest_of _) as [cp|]; [|done].
  fold (skips interval b cp). destruct (skips interval b cp); [done|].
  rewrite bind_unfold.
  destruct (createStateCheckpoint hooks c (BlockProgress.blockHash b) w) as [[[|]|e|] w1];
    try done.
  rewrite bind_unfold. unfold getDiffIPLDBlocksByCheckpoint at 1, read at 1.
  fold (diffs_after w1 c (blockNumberOf cp)).
  rewrite bind_unfold. unfold liftR at 1.
  destruct (member "state" (IPLDBlock.data cp)) as [s0| |]; simpl; try done.
  rewrite bind_unfold. unfold liftR at 1.
  destruct (mergeDiffs s0 _) as [s| |]; simpl; try done.
  rewrite bind_unfold, prepareIPLDBlock_prepared.
  destruct (prepared w1 b c _ "checkpoint"); done.
Qed.
End IndexerFacts.

(** ** The latest row *)

Lemma fold_later_spec rows acc :
  match fold_left later rows acc with
  | None => acc = None /\ rows = []
  | Some r =>
      (In r rows \/ acc = Some r) /\
      (forall r', In r' rows -> blockNumberOf r' <= blockNumberOf r) /\
      (forall a, acc = Some a -> blockNumberOf a <= blockNumberOf r)
  end.
Proof.
  revert acc. induction rows as [|x rows IH]; intros acc; simpl.
  - destruct acc as [a|]; [|done]. split; [by right|]. split; [done|].
    intros ? [= ->]. lia.
  - specialize (IH (later acc x)). destruct (fold_left later rows (later acc x)) as [r|].
    + destruct IH as [Hin [Hmax Hacc]].
      assert (blockNumberOf x <= blockNumberOf r /\
              (forall a, acc = Some a -> blockNumberOf a <= blockNumberOf r)) as [Hx Ha].
      { unfold later in Hacc. destruct acc as [a|].
        - destruct (Z.leb_spec (blockNumberOf a) (blockNumberOf x)).
          + specialize (Hacc _ eq_refl). split; [done|]. intros ? [= <-]. lia.
          + specialize (Hacc _ eq_refl). split; [lia|]. by intros ? [= <-].
        - specialize (Hacc _ eq_refl). done. }
      split; [|split; [|done]].
      * destruct Hin as [Hin|Hin]; [by left; right|].
        unfold later in Hin. destruct acc as [a|].
        -- destruct (blockNumberOf a <=? blockNumberOf x); injection Hin as <-; auto.
        -- injection Hin as <-. auto.
      * intros r' [<-|Hr']; auto.
    + destruct IH as [Hl _]. unfold later in Hl. destruct acc as [a|]; [|done].
      by destruct (blockNumberOf a <=? blockNumberOf x).
Qed.

Lemma latest_of_In rows r : latest_of rows = Some r -> In r rows.
Proof.
  unfold latest_of. intros H. pose proof (fold_later_spec rows None) as Hs.
  rewrite H in Hs. destruct Hs as [[?|?] _]; done.
Qed.

Lemma latest_of_max rows r r' :
  latest_of rows = Some r -> In r' rows -> blockNumberOf r' <= blockNumberOf r.
Proof.
  unfold latest_of. intros H. pose proof (fold_later_spec rows None) as Hs.
  rewrite H in Hs. destruct Hs as [_ [Hmax _]]. apply Hmax.
Qed.

Lemma latest_of_None rows : latest_of rows = None -> rows = [].
Proof.
  unfold latest_of. intros H. pose proof (fold_later_spec rows None) as Hs.
  rewrite H in Hs. by destruct Hs.
Qed.

Lemma latest_checkpoint_bound w c n cp :
  latest_checkpoint w c (Some n) = Some cp -> blockNumberOf cp <= n.
Proof.
  intros H%latest_of_In. apply filter_In in H as [_ H].
  unfold latest_matches in H. simpl in H.
  apply andb_true_iff in H as [_ H]. lia.
Qed.

(** ** The gates of [createCheckpoint] *)

(** C6: without data, a target block above the latest canonical block
    number, or one that is not complete, makes [createCheckpoint] throw; the
    store is as it was, whatever the hooks and the interval. *)
Theorem createCheckpoint_pruning_gate (hooks : Hooks) (c : string) (bh : option string)
    (data : value) (interval : option Z) (w : World) (ss : SyncStatus.t)
    (b : BlockProgress.t) :
  truthy data = false ->
  syncStatus w = Some ss ->
  lookup_block w (target_hash bh ss) = Some b ->
  SyncStatus.latestCanonicalBlockNumber ss < BlockProgress.blockNumber b
    \/ BlockProgress.isComplete b = false ->
  exists msg, createCheckpoint hooks c bh data interval w = (Throw (AssertionError msg), w).
Proof.
  intros Hdata Hss Hb Hgate. rewrite createCheckpoint_eq, Hss, Hb, Hdata.
  destruct (BlockProgress.isComplete b); simpl; [|eauto].
  destruct Hgate as [Hn|]; [|done].
  destruct (Z.leb_spec (BlockProgress.blockNumber b) (SyncStatus.latestCanonicalBlockNumber ss));
    [lia|]. simpl. eauto.
Qed.

(** C7: past the two gates, with an interval [I] and the latest checkpoint
    at or below the target at [Nc], [Nt - Nc < I] makes [createCheckpoint]
    return nothing; the store is as it was, for every checkpoint hook, so the
    hook has not run. *)
Theorem createCheckpoint_interval_gate (hooks : Hooks) (c : string) (bh : option string)
    (data : value) (I : Z) (w : World) (ss : SyncStatus.t) (b : BlockProgress.t)
    (cp : IPLDBlock.t) :
  truthy data = false ->
  syncStatus w = Some ss ->
  lookup_block w (target_hash bh ss) = Some b ->
  BlockProgress.isComplete b = true ->
  BlockProgress.blockNumber b <= SyncStatus.latestCanonicalBlockNumber ss ->
  latest_checkpoint w c (Some (BlockProgress.blockNumber b)) = Some cp ->
  BlockProgress.blockNumber b - blockNumberOf cp < I ->
  createCheckpoint hooks c bh data (Some I) w = (Ok None, w).
Proof.
  intros Hdata Hss Hb Hc Hn Hcp HI. rewrite createCheckpoint_eq, Hss, Hb, Hdata, Hc.
  simpl. destruct (Z.leb_spec (BlockProgress.blockNumber b)
                              (SyncStatus.latestCanonicalBlockNumber ss)); [|lia].
  simpl. rewrite Hcp. pose proof (latest_checkpoint_bound _ _ _ _ Hcp) as Hle.
  unfold skips. destruct (Z.eqb_spec I 0); [lia|].
  destruct (Z.ltb_spec (BlockProgress.blockNumber b - I) (blockNumberOf cp)); [done|lia].
Qed.

(** ** Rows of one contract *)

Lemma filter_upsert_out (p : IPLDBlock.t -> bool) row rows :
  p row = false -> (forall r', same_key row r' = true -> p r' = false) ->
  List.filter p (upsert row rows) = List.filter p rows.
Proof.
  intros Hrow Hkey. induction rows as [|r rows IH]; simpl.
  - by rewrite Hrow.
  - destruct (same_key row r) eqn:E; simpl.
    + by rewrite Hrow, (Hkey _ E).
    + by rewrite IH.
Qed.

Lemma same_key_contract a b :
  same_key a b = true -> IPLDBlock.contractAddress a = IPLDBlock.contractAddress b.
Proof.
  unfold same_key. intros [[_ H]%andb_true_iff _]%andb_true_iff. by apply String.eqb_eq.
Qed.

Lemma row_of_fields block c data row :
  row_of block c data = Ok row ->
  IPLDBlock.block row = block /\ IPLDBlock.contractAddress row = c /\
  IPLDBlock.data row = canon data /\
  (exists cid, identifier data = Some cid /\ IPLDBlock.cid row = cid_toString cid) /\
  (exists meta, member "meta" data = Ok meta /\
                member "kind" meta = Ok (VStr (IPLDBlock.kind row))).
Proof.
  unfold row_of. destruct (identifier data) as [cid|]; [|done].
  intros [meta [Hmeta H]]%rbind_Ok. apply rbind_Ok in H as [k [Hk H]].
  destruct k; try done. injection H as <-. simpl. eauto 10.
Qed.

Lemma prepared_fields w block c data kind row :
  prepared w block c data kind = Ok row ->
  IPLDBlock.block row = block /\ IPLDBlock.contractAddress row = c.
Proof.
  unfold prepared. rewrite prepareIPLDBlock_eq. cbn [fst].
  destruct (existsb (String.eqb kind) kinds); [|done].
  destruct (current w block c kind) as [|cur [|]]; [| |done];
    intros [d [_ H]]%rbind_Ok; apply row_of_fields in H; tauto.
Qed.

Lemma save_rows_other c c' r w res w' :
  save r w = (res, w') -> (forall row, r = Ok row -> IPLDBlock.contractAddress row = c') ->
  c' <> c -> rows_of c w' = rows_of c w /\ blocks w' = blocks w /\ syncStatus w' = syncStatus w.
Proof.
  unfold save. intros H Hc Hne. destruct r as [row| |]; injection H as <- <-; [|done..].
  split; [|done]. unfold rows_of. simpl. specialize (Hc _ eq_refl).
  apply filter_upsert_out.
  - unfold of_contract. apply String.eqb_neq. congruence.
  - intros r' Hk%same_key_contract. unfold of_contract. apply String.eqb_neq. congruence.
Qed.

Lemma createDiff_rows_other c c' h data w res w' :
  createDiff c' h data w = (res, w') -> c' <> c ->
  rows_of c w' = rows_of c w /\ blocks w' = blocks w /\ syncStatus w' = syncStatus w.
Proof.
  rewrite createDiff_eq. intros H Hne.
  destruct (lookup_block w h) as [b|]; [|by injection H as <- <-].
  destruct (latest_checkpoint w c' None) as [cp|]; [|by injection H as <- <-].
  destruct (String.eqb _ _); [by injection H as <- <-|].
  eapply save_rows_other; [exact H| |done].
  intros row Hrow. by apply prepared_fields in Hrow as [_ ?].
Qed.

Lemma filter_filter_implied {A} (p q : A -> bool) l :
  (forall x, p x = true -> q x = true) ->
  List.filter p (List.filter q l) = List.filter p l.
Proof.
  intros Hpq. induction l as [|x l IH]; [done|].
  cbn [List.filter]. destruct (q x) eqn:Eq.
  - cbn [List.filter]. by rewrite IH.
  - rewrite IH. destruct (p x) eqn:Ep; [|done]. apply Hpq in Ep. congruence.
Qed.

Lemma latest_matches_contract c k n r :
  latest_matches c k n r = true -> of_contract c r = true.
Proof. unfold latest_matches. intros [[H _]%andb_true_iff _]%andb_true_iff. done. Qed.

Lemma latest_checkpoint_rows_of w w' c n :
  rows_of c w' = rows_of c w -> latest_checkpoint w' c n = latest_checkpoint w c n.
Proof.
  intros H. unfold latest_checkpoint.
  rewrite <- (filter_filter_implied _ (of_contract c) (ipldBlocks w'))
    by apply latest_matches_contract.
  rewrite <- (filter_filter_implied _ (of_contract c) (ipldBlocks w))
    by apply latest_matches_contract.
  unfold rows_of in H. by rewrite H.
Qed.

(** ** [createDiff] after a checkpoint at the same block *)

Lemma finalizeDiffStaged_eq h w :
  finalizeDiffStaged h w =
    match lookup_block w h with
    | None => (Throw (AssertionError "block"), w)
    | Some b =>
        match forEach (staged_of w b) finalize_body w with
        | (Ok _, w') => removeStagedIPLDBlocks (BlockProgress.blockNumber b) w'
        | (Throw e, w') => (Throw e, w')
        | (Exotic, w') => (Exotic, w')
        end
    end.
Proof.
  unfold finalizeDiffStaged, lookup_block. rewrite bind_unfold.
  unfold getBlockProgress at 1, read at 1.
  destruct (find _ (blocks w)) as [b|]; [|done].
  rewrite bind_unfold. unfold getIPLDBlocks at 1, read at 1.
  by rewrite bind_unfold.
Qed.

Lemma createDiff_throws c h data w :
  no_earlier_checkpoint w c h -> exists e, createDiff c h data w = (Throw e, w).
Proof.
  intros Hcp. rewrite createDiff_eq.
  destruct (lookup_block w h) as [b|] eqn:Hb; [|eauto].
  apply lookup_block_hash in Hb.
  destruct Hcp as [->|[cp [-> Hcp]]]; [eauto|].
  rewrite Hb, Hcp, String.eqb_refl. eauto.
Qed.

Lemma forEach_createDiff_fails c h xs w :
  no_earlier_checkpoint w c h ->
  Forall (fun x => blockHashOf x = h) xs ->
  (exists x, In x xs /\ IPLDBlock.contractAddress x = c) ->
  exists res w', forEach xs finalize_body w = (res, w') /\
                 (forall u, res <> Ok u) /\ rows_of c w' = rows_of c w.
Proof.
  revert w. induction xs as [|x xs IH]; intros w Hcp Hh [x0 [Hin Hc]]; [done|].
  apply Forall_cons in Hh as [Hx Hxs]. simpl. rewrite bind_unfold.
  destruct (String.eqb (IPLDBlock.contractAddress x) c) eqn:E.
  - apply String.eqb_eq in E. unfold finalize_body at 1. rewrite E, Hx.
    destruct (createDiff_throws c h (IPLDBlock.data x) w Hcp) as [e ->].
    exists (Throw e), w. done.
  - apply String.eqb_neq in E.
    destruct (finalize_body x w) as [r1 w1] eqn:H1.
    unfold finalize_body in H1.
    destruct (createDiff_rows_other c _ _ _ _ _ _ H1 E) as [Hrows _].
    destruct r1 as [[]|e|]; [|by exists (Throw e), w1|by exists Exotic, w1].
    destruct (IH w1) as [res [w' [Hres [Hnot Hrows']]]].
    + unfold no_earlier_checkpoint in *.
      by rewrite (latest_checkpoint_rows_of w w1 c None Hrows).
    + done.
    + destruct Hin as [->|Hin]; [done|]. eauto.
    + exists res, w'. rewrite Hres. split; [done|]. split; [done|]. congruence.
Qed.

(** C10: [createDiff] throws, and writes nothing, when the contract has no
    checkpoint or its latest checkpoint is at the very block; so
    [finalizeDiffStaged] on a block that holds a staged diff of such a
    contract throws as well, and the rows of that contract are as they
    were: no diff of it is written. *)
Theorem createDiff_after_checkpoint (c h : string) (w : World) :
  no_earlier_checkpoint w c h ->
  (forall data, exists e, createDiff c h data w = (Throw e, w)) /\
  (forall b stagedBlock,
     lookup_block w h = Some b ->
     In stagedBlock (staged_of w b) ->
     IPLDBlock.contractAddress stagedBlock = c ->
     fst (finalizeDiffStaged h w) <> Exotic ->
     exists e w', finalizeDiffStaged h w = (Throw e, w') /\ rows_of c w' = rows_of c w).
Proof.
  intros Hcp. split; [intros data; by apply createDiff_throws|].
  intros b x Hb Hx Hc. rewrite finalizeDiffStaged_eq, Hb.
  destruct (forEach_createDiff_fails c h (staged_of w b) w Hcp) as [res [w' [-> [Hnot Hrows]]]].
  - apply List.Forall_forall. intros y [_ Hy]%filter_In.
    unfold matches in Hy. simpl in Hy.
    apply andb_true_iff in Hy as [[Hy _]%andb_true_iff _].
    apply String.eqb_eq in Hy. rewrite Hy. by apply lookup_block_hash in Hb.
  - eauto.
  - destruct res as [u|e|]; simpl; [by destruct (Hnot u)|eauto|done].
Qed.

(** ** Staging twice *)

Lemma baseMergeDeep_self v : wf v -> plain v -> baseMergeDeep (Some v) v = Ok v.
Proof.
  induction v as [| | | | |l IHl|o IHo] using value_ind_deep; try done.
  - intros Hwf Hpl%plain_arr. inversion Hwf as [| | | | |? Hl|]; subst.
    rewrite baseMergeDeep_arr. simpl.
    assert (mergeElems l l = Ok l) as ->; [|done].
    induction IHl as [|x l Hx _ IH]; simpl; [done|].
    apply Forall_cons in Hl as [Hwx Hwl]. apply Forall_cons in Hpl as [Hpx Hpl].
    rewrite Hx, IH by (done || by constructor). done.
  - intros Hwf Hpl%plain_obj. inversion Hwf as [| | | | | |? Hnd Ho]; subst.
    rewrite baseMergeDeep_obj. simpl. rewrite mergeProps_again; [done|].
    rewrite Forall_forall in *. intros [k s] Hks.
    destruct (Hpl _ Hks) as [Hown Hps]. split; [done|]. exists s. simpl.
    split; [by apply prop_get_NoDup|]. apply (IHo (k, s)); [done| |done].
    by apply (Ho (k, s)).
Qed.

Lemma upsert_idemp r rows : upsert r (upsert r rows) = upsert r rows.
Proof.
  assert (same_key r r = true) as Hr.
  { unfold same_key. by rewrite !String.eqb_refl. }
  induction rows as [|r' rows IH]; simpl.
  - by rewrite Hr.
  - destruct (same_key r r') eqn:E; simpl.
    + by rewrite Hr.
    + by rewrite E, IH.
Qed.

Lemma filter_upsert_in (p : IPLDBlock.t -> bool) row rows :
  (forall r, p r = same_key row r) ->
  List.filter p (upsert row rows) = row :: tl (List.filter p rows).
Proof.
  intros Hp.
  assert (p row = true) as Hrow.
  { rewrite Hp. unfold same_key. by rewrite !String.eqb_refl. }
  induction rows as [|r rows IH]; simpl.
  - by rewrite Hrow.
  - destruct (same_key row r) eqn:E; simpl.
    + by rewrite Hrow, Hp, E.
    + by rewrite Hp, E, IH.
Qed.

Lemma matches_same_key b c k row r :
  blockHashOf row = BlockProgress.blockHash b ->
  IPLDBlock.contractAddress row = c -> IPLDBlock.kind row = k ->
  matches (key_filter b c k) r = same_key row r.
Proof.
  intros Hb Hc Hk. unfold matches, same_key, key_filter. simpl.
  rewrite Hb, Hc, Hk.
  rewrite (String.eqb_sym (blockHashOf r)), (String.eqb_sym (IPLDBlock.contractAddress r)),
          (String.eqb_sym (IPLDBlock.kind r)). done.
Qed.

Lemma row_of_canon b c data : row_of b c (canon data) = row_of b c data.
Proof.
  unfold row_of, identifier. rewrite encode_canon, canon_idemp.
  destruct (encode data); simpl; [|done].
  rewrite member_canon. destruct (member "meta" data) as [meta| |]; simpl; [|done..].
  rewrite member_canon. destruct (member "kind" meta) as [k| |]; simpl; [|done..].
  by destruct k.
Qed.

Lemma merge_copy_again (o d : props) :
  wf (VObj d) -> plain (VObj d) ->
  (forall k s, (k, s) ∈ d -> prop_get k o = Some s) ->
  merge (canon (VObj o)) (VObj d) = Ok (canon (VObj o)).
Proof.
  intros Hwf Hpl%plain_obj Ho. inversion Hwf as [| | | | | |? Hnd Hd]; subst.
  rewrite canon_obj. unfold merge, baseMerge. simpl.
  rewrite mergeProps_again; [done|].
  rewrite Forall_forall in *. intros [k s] Hks.
  destruct (Hpl _ Hks) as [Hown Hps]. split; [done|]. exists (canon s). simpl.
  rewrite prop_get_canon, (Ho _ _ Hks). split; [done|].
  apply baseMergeDeep_again with (objValue := None); [by apply (Hd (k, s))|].
  apply baseMergeDeep_copy; [by apply (Hd (k, s))|done].
Qed.

Lemma with_ipldBlocks_twice w rows rows' :
  with_ipldBlocks (with_ipldBlocks w rows) rows' = with_ipldBlocks w rows'.
Proof. reflexivity. Qed.

(** C8: a second [createDiffStaged] with the same data returns and leaves the
    store as the first one left it, so the staged block, its state and its
    identifier are those of a single call; and merging a value into itself
    gives that value.  The data is an object of the data model, with no
    [meta] of its own and no key of an inherited name. *)
Theorem createDiffStaged_twice (c h : string) (d : props) (w w1 : World) :
  wf (VObj d) -> plain (VObj d) -> prop_get "meta" d = None ->
  createDiffStaged c h (VObj d) w = (Ok tt, w1) ->
  createDiffStaged c h (VObj d) w1 = (Ok tt, w1)
  /\ merge (VObj d) (VObj d) = Ok (VObj d).
Proof.
  intros Hwf Hpl Hmeta H. split.
  2:{ pose proof (baseMergeDeep_self _ Hwf Hpl) as Hs. rewrite baseMergeDeep_obj in Hs. done. }
  rewrite createDiffStaged_eq in H |- *.
  destruct (lookup_block w h) as [b|] eqn:Hb; [|done].
  destruct (prepared w b c (VObj d) "diff_staged") as [row| |] eqn:Hrow; [|done..].
  injection H as <-.
  assert (lookup_block (with_ipldBlocks w (upsert row (ipldBlocks w))) h = Some b) as -> by done.
  assert (prepared (with_ipldBlocks w (upsert row (ipldBlocks w))) b c (VObj d) "diff_staged"
          = Ok row) as ->.
  2:{ simpl. by rewrite upsert_idemp. }
  unfold prepared in *. rewrite prepareIPLDBlock_eq in Hrow |- *. cbn [fst] in *.
  destruct (existsb (String.eqb "diff_staged") kinds); [|done].
  unfold current in *. cbn [ipldBlocks with_ipldBlocks].
  destruct (List.filter _ (ipldBlocks w)) as [|cur [|]] eqn:Hcur; [| |done].
  - (* the first call made the row *)
    apply rbind_Ok in Hrow as [data1 [Hd1 Hrow]].
    unfold assign in Hd1. injection Hd1 as <-.
    pose proof (row_of_fields _ _ _ _ Hrow) as [Hblock [Hc [Hdata [_ [meta [Hm Hk]]]]]].
    assert (IPLDBlock.kind row = "diff_staged") as Hkind.
    { unfold member in Hm. rewrite prop_get_set_eq in Hm. injection Hm as <-.
      unfold meta_of, member in Hk. simpl in Hk. by injection Hk. }
    rewrite (filter_upsert_in _ row), Hcur; simpl.
    2:{ intros r. apply matches_same_key; [|done..]. unfold blockHashOf. by rewrite Hblock. }
    rewrite Hdata, merge_copy_again; [simpl; by rewrite row_of_canon|done..|].
    intros k s Hks. rewrite prop_get_set_ne; [by apply prop_get_NoDup; [inversion Hwf|]|].
    intros <-. apply prop_get_None in Hmeta. apply Hmeta.
    change "meta" with (fst ("meta", s)). by apply list_elem_of_fmap_2.
  - (* the first call merged into the row *)
    apply rbind_Ok in Hrow as [data1 [Hd1 Hrow]].
    pose proof (row_of_fields _ _ _ _ Hrow) as [Hblock [Hc [Hdata _]]].
    destruct (String.eqb (IPLDBlock.kind row) "diff_staged") eqn:Hkind.
    + apply String.eqb_eq in Hkind.
      rewrite (filter_upsert_in _ row), Hcur; simpl.
      2:{ intros r. apply matches_same_key; [|done..]. unfold blockHashOf. by rewrite Hblock. }
      rewrite Hdata, (merge_again _ _ _ Hwf Hd1). simpl. by rewrite row_of_canon.
    + apply String.eqb_neq in Hkind.
      rewrite filter_upsert_out, Hcur; simpl.
      * by rewrite Hd1.
      * unfold matches, key_filter. simpl. apply andb_false_iff. right.
        by apply String.eqb_neq.
      * intros r' Hr'. unfold matches, key_filter. simpl. apply andb_false_iff. right.
        apply String.eqb_neq. unfold same_key in Hr'.
        apply andb_true_iff in Hr' as [_ Hr']. apply String.eqb_eq in Hr'. congruence.
Qed.

(** ** The identifier is a function of the structure of the payload *)

Lemma encode_entries_Some o es :
  encode_entries o = Some es -> Forall2 (fun kv e => encode_entry kv = Some e) o es.
Proof.
  revert es. induction o as [|kv o IH]; intros es.
  - intros [= <-]. constructor.
  - rewrite encode_entries_cons. destruct (encode_entry kv) as [e|] eqn:He; [|done]. simpl.
    destruct (encode_entries o) as [r|]; [|done]. simpl. intros [= <-].
    constructor; auto.
Qed.

Lemma encode_entries_None o :
  encode_entries o = None -> exists kv, kv ∈ o /\ encode_entry kv = None.
Proof.
  induction o as [|kv o IH]; [done|].
  rewrite encode_entries_cons. destruct (encode_entry kv) as [e|] eqn:He.
  - simpl. destruct (encode_entries o) as [r|]; [done|]. intros _.
    destruct IH as [kv' [? ?]]; [done|]. exists kv'. split; [by right|done].
  - intros _. exists kv. split; [left|done].
Qed.

Lemma encode_entries_fails o kv :
  kv ∈ o -> encode_entry kv = None -> encode_entries o = None.
Proof.
  induction o as [|kv' o IH]; [by intros ?%elem_of_nil|].
  rewrite encode_entries_cons. intros [->|Hin]%elem_of_cons Hkv.
  - by rewrite Hkv.
  - destruct (encode_entry kv'); [|done]. simpl. by rewrite IH.
Qed.

Lemma encoded_keys o es :
  Forall2 (fun kv e => encode_entry kv = Some e) o es -> keys es = keys o.
Proof.
  induction 1 as [|kv e o es He _ IH]; [done|].
  unfold keys in *. simpl. by rewrite IH, (encode_entry_fst _ _ He).
Qed.

Lemma encoded_get o es k :
  Forall2 (fun kv e => encode_entry kv = Some e) o es ->
  prop_get k es = prop_get k o ≫= entry_bytes k.
Proof.
  induction 1 as [|[k' x] [k'' bs] o es He _ IH]; [done|].
  pose proof (encode_entry_fst _ _ He) as Hk. simpl in Hk. subst k''.
  simpl. destruct (String.eqb k k') eqn:E; [|done].
  apply String.eqb_eq in E. subst k'. simpl. unfold entry_bytes. by rewrite He.
Qed.

Lemma NoDup_keys_NoDup {A} (l : list (string * A)) : NoDup (keys l) -> NoDup l.
Proof. apply NoDup_fmap_1. Qed.

Lemma props_perm {A} (l1 l2 : list (string * A)) :
  NoDup (keys l1) -> NoDup (keys l2) ->
  (forall k, prop_get k l1 = prop_get k l2) -> l1 ≡ₚ l2.
Proof.
  intros H1 H2 Hget. apply NoDup_Permutation; try by apply NoDup_keys_NoDup.
  intros [k v]. split; intros Hin.
  - apply prop_get_In. rewrite <- Hget. by apply prop_get_NoDup.
  - apply prop_get_In. rewrite Hget. by apply prop_get_NoDup.
Qed.

Lemma sort_entries_perm_eq {A} (l1 l2 : list (string * A)) :
  NoDup (keys l1) -> l1 ≡ₚ l2 -> sort_entries l1 = sort_entries l2.
Proof.
  intros Hnd Hp.
  apply sort_by_perm_eq; [apply entry_leb_total|apply entry_leb_trans|done|].
  intros [k v] [k' v'] Ha Hb Hab Hba.
  assert (k = k') as <- by by apply key_leb_antisym.
  f_equal. apply (prop_get_NoDup _ _ _ Hnd) in Ha, Hb. congruence.
Qed.

Lemma keys_perm (o1 o2 : props) :
  NoDup (keys o1) -> NoDup (keys o2) ->
  (forall k, option_Forall2 struct_eq (prop_get k o1) (prop_get k o2)) ->
  keys o1 ≡ₚ keys o2.
Proof.
  intros H1 H2 Hget. apply NoDup_Permutation; [done..|].
  intros k. specialize (Hget k). split; intros Hk.
  - destruct (prop_get k o2) as [y|] eqn:E; [by eapply prop_get_Some_key|].
    destruct (prop_get k o1) as [x|] eqn:E1; [inversion Hget|].
    by apply prop_get_None in E1.
  - destruct (prop_get k o1) as [x|] eqn:E; [by eapply prop_get_Some_key|].
    destruct (prop_get k o2) as [y|] eqn:E2; [inversion Hget|].
    by apply prop_get_None in E2.
Qed.

Lemma struct_eq_encode a :
  forall b, wf a -> wf b -> struct_eq a b -> encode a = encode b.
Proof.
  induction a as [| | | | |l IHl|o IHo] using value_ind_deep;
    intros v2 Hwa Hwb Heq; inversion Heq as [| | | | |? l2 Hl|? o2 Ho]; subst; try done.
  - inversion Hwa as [| | | | |? Hw1|]; inversion Hwb as [| | | | |? Hw2|]; subst.
    rewrite !encode_arr. unfold len. rewrite (Forall2_length _ _ _ Hl).
    destruct (cbor_head 4 _); [|done]. simpl.
    assert (encode_items l = encode_items l2) as ->; [|done].
    clear Heq Hwa Hwb. induction Hl as [|x y l l2 Hxy Hl IH]; [done|].
    apply Forall_cons in IHl as [Hx IHl]. apply Forall_cons in Hw1 as [? ?].
    apply Forall_cons in Hw2 as [? ?]. simpl. rewrite (Hx y), IH; done.
  - inversion Hwa as [| | | | | |? Hnd1 Hw1]; inversion Hwb as [| | | | | |? Hnd2 Hw2]; subst.
    rewrite !encode_obj. unfold len.
    assert (length o = length o2) as ->.
    { apply keys_perm in Ho; [|done..]. apply Permutation_length in Ho.
      unfold keys in Ho. by rewrite !length_map in Ho. }
    destruct (cbor_head 5 _); [|done]. simpl.
    assert (Hentry : forall k x y, prop_get k o = Some x -> prop_get k o2 = Some y ->
                       encode_entry (k, x) = encode_entry (k, y)).
    { intros k x y Hx Hy. unfold encode_entry. simpl.
      pose proof (Ho k) as Hk. rewrite Hx, Hy in Hk. inversion Hk as [? ? Hxy|]; subst.
      rewrite Forall_forall in IHo, Hw1, Hw2.
      assert (encode x = encode y) as ->; [|done].
      apply (IHo (k, x) (prop_get_In _ _ _ Hx) y); [|  |done].
      - apply (Hw1 (k, x)). by apply prop_get_In.
      - apply (Hw2 (k, y)). by apply prop_get_In. }
    destruct (encode_entries o) as [es1|] eqn:E1; destruct (encode_entries o2) as [es2|] eqn:E2.
    + assert (sort_entries es1 = sort_entries es2) as Hsort;
        [|unfold bytes in *; unfold mbind, option_bind; by rewrite Hsort].
      apply encode_entries_Some in E1, E2.
      apply sort_entries_perm_eq; [by rewrite (encoded_keys _ _ E1)|].
      apply props_perm; [by rewrite (encoded_keys _ _ E1)|by rewrite (encoded_keys _ _ E2)|].
      intros k. rewrite (encoded_get _ _ k E1), (encoded_get _ _ k E2).
      pose proof (Ho k) as Hk.
      destruct (prop_get k o) as [x|] eqn:Hx; destruct (prop_get k o2) as [y|] eqn:Hy;
        inversion Hk; subst; [|done].
      simpl. unfold entry_bytes. by rewrite (Hentry k x y).
    + exfalso. apply encode_entries_None in E2 as [[k y] [Hin Hy]].
      apply (prop_get_NoDup _ _ _ Hnd2) in Hin.
      pose proof (Ho k) as Hk. rewrite Hin in Hk.
      destruct (prop_get k o) as [x|] eqn:Hx; inversion Hk; subst.
      rewrite (encode_entries_fails o (k, x)) in E1; [done|by apply prop_get_In|].
      by rewrite (Hentry k x y).
    + exfalso. apply encode_entries_None in E1 as [[k x] [Hin Hx]].
      apply (prop_get_NoDup _ _ _ Hnd1) in Hin.
      pose proof (Ho k) as Hk. rewrite Hin in Hk.
      destruct (prop_get k o2) as [y|] eqn:Hy; inversion Hk; subst.
      rewrite (encode_entries_fails o2 (k, y)) in E2; [done|by apply prop_get_In|].
      by rewrite <- (Hentry k x y).
    + done.
Qed.

Lemma be_bytes_length n z : length (be_bytes n z) = n.
Proof.
  revert z. induction n as [|n IH]; intros z; simpl; [done|].
  rewrite length_app, IH. simpl. lia.
Qed.

Lemma digest_length msg : length (SHA256.digest msg) = 32%nat.
Proof.
  unfold SHA256.digest.
  destruct (SHA256.blocks _ _ _) as [[[[[[[a b] c] d] e] f] g] h].
  cbn [map concat]. rewrite !length_app, !be_bytes_length. done.
Qed.

(** C9: two structurally equal payloads have the same encoding, byte for
    byte, and the same identifier, which is made of the version 1, the
    dag-cbor code and a digest of 256 bits; nothing but the payload goes
    into it. *)
Theorem identifier_deterministic (a b : value) :
  wf a -> wf b -> struct_eq a b ->
  encode a = encode b /\ identifier a = identifier b /\
  (forall cid, identifier a = Some cid ->
     cid_version cid = 1 /\ cid_code cid = dag_cbor_code /\
     length (cid_digest cid) = 32%nat).
Proof.
  intros Hwa Hwb Heq. pose proof (struct_eq_encode a b Hwa Hwb Heq) as He.
  split; [done|]. unfold identifier. rewrite He. split; [done|].
  intros cid. destruct (encode b); [|done]. simpl. intros [= <-]. simpl.
  split; [done|]. split; [done|]. apply digest_length.
Qed.

(** ** What an operation does to the rows *)

Lemma In_upsert x r rows : In x (upsert r rows) -> x = r \/ In x rows.
Proof.
  induction rows as [|r' rows IH]; simpl; [intros [<-|[]]; by left|].
  destruct (same_key r r'); simpl.
  - intros [<-|?]; auto.
  - intros [<-|?]; auto. destruct IH; auto.
Qed.

Lemma save_step r w res w' :
  save r w = (res, w') ->
  blocks w' = blocks w /\ syncStatus w' = syncStatus w /\
  (ipldBlocks w' = ipldBlocks w \/
   exists row, r = Ok row /\ ipldBlocks w' = upsert row (ipldBlocks w)).
Proof.
  unfold save. destruct r as [row| |]; intros [= <- <-]; simpl; eauto 6.
Qed.

Section Steps.
Variable hooks : Hooks.

(** An operation leaves the rows as the checkpoint hook left them, or
    saves the one row it has prepared, of its own kind. *)
Lemma run_step o w res w' :
  run hooks o w = (res, w') ->
  exists w1,
    (w1 = w \/ exists c h r, createStateCheckpoint hooks c h w = (r, w1)) /\
    (ipldBlocks w' = ipldBlocks w1 \/
     exists b data row,
       prepared w1 b (op_contract o) data (op_kind o) = Ok row /\
       ipldBlocks w' = upsert row (ipldBlocks w1)).
Proof.
  destruct o as [c h data|c h data|c bh data i]; simpl.
  - rewrite createDiffStaged_eq. intros H. exists w. split; [by left|].
    destruct (lookup_block w h) as [b|]; [|injection H as <- <-; by left].
    apply save_step in H as [_ [_ [?|[row [? ?]]]]]; [by left|right; eauto].
  - rewrite createDiff_eq. intros H. exists w. split; [by left|].
    destruct (lookup_block w h) as [b|]; [|injection H as <- <-; by left].
    destruct (latest_checkpoint w c None); [|injection H as <- <-; by left].
    destruct (String.eqb _ _); [injection H as <- <-; by left|].
    apply save_step in H as [_ [_ [?|[row [? ?]]]]]; [by left|right; eauto].
  - rewrite bind_unfold, createCheckpoint_eq.
    destruct (syncStatus w) as [ss|]; [|intros [= <- <-]; exists w; auto].
    destruct (lookup_block w (target_hash bh ss)) as [b|];
      [|intros [= <- <-]; exists w; auto].
    destruct (truthy data).
    { destruct (save _ w) as [r1 w1] eqn:Hs. intros H.
      assert (w' = w1) as -> by (destruct r1; by injection H).
      exists w. split; [by left|].
      apply save_step in Hs as [_ [_ [?|[row [? ?]]]]]; [by left|right; eauto]. }
    destruct (negb (BlockProgress.isComplete b)); [intros [= <- <-]; exists w; auto|].
    destruct (negb (_ <=? _)); [intros [= <- <-]; exists w; auto|].
    destruct (latest_checkpoint w c _) as [cp|]; [|intros [= <- <-]; exists w; auto].
    destruct (skips i b cp); [intros [= <- <-]; exists w; auto|].
    destruct (createStateCheckpoint hooks c (BlockProgress.blockHash b) w)
      as [[[|]|e|] w1] eqn:Hh;
      try (intros [= <- <-]; exists w1; split; [right; eauto|by left]).
    destruct (rbind _ _) as [state| |];
      try (intros [= <- <-]; exists w1; split; [right; eauto|by left]).
    destruct (save _ w1) as [r2 w2] eqn:Hs. intros H.
    assert (w' = w2) as -> by (destruct r2; by injection H).
    exists w1. split; [right; eauto|].
    apply save_step in Hs as [_ [_ [?|[row [? ?]]]]]; [by left|right; eauto].
Qed.
End Steps.

(** ** Uniqueness *)




(** ** The parent link *)

Lemma noHooks_inert : inert noHooks.
Proof. intros c h w. by exists false. Qed.

Lemma parent_link_canon data : parent_link (canon data) = rmap canon (parent_link data).
Proof.
  unfold parent_link. rewrite member_canon.
  destruct (member "meta" data) as [meta| |]; simpl; [|done..].
  rewrite member_canon. destruct (member "parent" meta) as [parent| |]; simpl; [|done..].
  rewrite member_canon. by destruct (member "/" parent).
Qed.

Lemma prepared_new w b c data kind row :
  current w b c kind = [] -> prepared w b c data kind = Ok row ->
  exists o, data = VObj o /\ IPLDBlock.kind row = kind /\
            IPLDBlock.block row = b /\ IPLDBlock.contractAddress row = c /\
            IPLDBlock.data row
            = canon (VObj (prop_set "meta" (meta_of c kind (parent_of w b c) b) o)).
Proof.
  intros Hcur. unfold prepared. rewrite prepareIPLDBlock_eq. cbn [fst].
  destruct (existsb (String.eqb kind) kinds); [|done]. rewrite Hcur.
  intros [data1 [Hd Hrow]]%rbind_Ok.
  destruct data as [| | | | | |o]; try done. injection Hd as <-.
  apply row_of_fields in Hrow as [Hb [Hc [Hdata [_ [meta [Hm Hk]]]]]].
  exists o. split; [done|]. split; [|done].
  unfold member in Hm. rewrite prop_get_set_eq in Hm. injection Hm as <-.
  unfold meta_of, member in Hk. simpl in Hk. by injection Hk.
Qed.

Lemma parent_of_spec w b c :
  match parent_of w b c with
  | Some p =>
      In p (ipldBlocks w) /\ IPLDBlock.contractAddress p = c /\
      blockNumberOf p <= BlockProgress.blockNumber b /\
      forall r, In r (ipldBlocks w) -> IPLDBlock.contractAddress r = c ->
                blockNumberOf r <= BlockProgress.blockNumber b ->
                blockNumberOf r <= blockNumberOf p
  | None =>
      forall r, In r (ipldBlocks w) -> IPLDBlock.contractAddress r = c ->
                BlockProgress.blockNumber b < blockNumberOf r
  end.
Proof.
  unfold parent_of.
  assert (forall r, In r (List.filter (latest_matches c None
                            (Some (BlockProgress.blockNumber b))) (ipldBlocks w))
                    <-> In r (ipldBlocks w) /\ IPLDBlock.contractAddress r = c /\
                        blockNumberOf r <= BlockProgress.blockNumber b) as Hin.
  { intros r. rewrite filter_In. unfold latest_matches. simpl.
    rewrite andb_true_r, andb_true_iff, String.eqb_eq, Z.leb_le. tauto. }
  destruct (latest_of _) as [p|] eqn:E.
  - pose proof (latest_of_In _ _ E) as Hp. apply Hin in Hp as [? [? ?]].
    repeat split; try done. intros r ? ? ?. eapply latest_of_max; [exact E|].
    apply Hin. done.
  - apply latest_of_None in E. intros r Hr Hc.
    destruct (Z.lt_ge_cases (BlockProgress.blockNumber b) (blockNumberOf r)) as [|Hle]; [done|].
    assert (In r []) as []. rewrite <- E. apply Hin. done.
Qed.

(** C4, as stated, fails.  With a checkpoint at block 100 and a diff at
    block 105, the checkpoint made at block 105 has the diff at 105 as its
    parent, a block of its own block number; the most recent block strictly
    before 105 is the checkpoint at 100. *)
Lemma checkpoint_parent_at_same_number :
  exists w' row diff,
    createCheckpoint noHooks "C" (Some "h105") VUndef None Scenario.w3
      = (Ok (Some "h105"), w') /\
    ipldBlocks w' = ipldBlocks Scenario.w3 ++ [row] /\
    IPLDBlock.kind row = "checkpoint" /\ blockNumberOf row = 105 /\
    In diff (ipldBlocks Scenario.w3) /\ IPLDBlock.kind diff = "diff" /\
    blockNumberOf diff = 105 /\
    parent_link (IPLDBlock.data row) = Ok (VStr (IPLDBlock.cid diff)) /\
    parent_link (IPLDBlock.data row)
      <> Ok (link_to (latest_before Scenario.w3 "C" (blockNumberOf row))).
Proof.
  eexists _, _, _. split; [vm_compute; reflexivity|].
  split; [vm_compute; reflexivity|].
  split; [reflexivity|]. split; [reflexivity|].
  split; [vm_compute; right; left; reflexivity|].
  split; [reflexivity|]. split; [reflexivity|].
  split; [vm_compute; reflexivity|]. vm_compute. discriminate.
Qed.

(** C4, amended: a block that an operation creates, there being none for
    its block, its contract and the operation's kind, has as parent the most
    recent block of the contract at or below its own block number (so
    possibly one of its own number), of any kind, and null if there is
    none.  The checkpoint hook is taken to leave the store alone. *)
Theorem created_block_parent (hooks : Hooks) (o : op) (w w' : World) (res : result unit)
    (row : IPLDBlock.t) :
  inert hooks ->
  run hooks o w = (res, w') ->
  In row (ipldBlocks w') -> ~ In row (ipldBlocks w) ->
  current w (IPLDBlock.block row) (IPLDBlock.contractAddress row) (op_kind o) = [] ->
  parent_link (IPLDBlock.data row)
    = Ok (link_to (parent_of w (IPLDBlock.block row) (IPLDBlock.contractAddress row))) /\
  match parent_of w (IPLDBlock.block row) (IPLDBlock.contractAddress row) with
  | Some p =>
      In p (ipldBlocks w) /\
      IPLDBlock.contractAddress p = IPLDBlock.contractAddress row /\
      blockNumberOf p <= blockNumberOf row /\
      forall r, In r (ipldBlocks w) ->
                IPLDBlock.contractAddress r = IPLDBlock.contractAddress row ->
                blockNumberOf r <= blockNumberOf row ->
                blockNumberOf r <= blockNumberOf p
  | None =>
      forall r, In r (ipldBlocks w) ->
                IPLDBlock.contractAddress r = IPLDBlock.contractAddress row ->
                blockNumberOf row < blockNumberOf r
  end.
Proof.
  intros Hinert Hrun Hin Hnew Hcur. split; [|apply parent_of_spec].
  apply run_step in Hrun as [w1 [Hw1 Hrows]].
  assert (w1 = w) as ->.
  { destruct Hw1 as [->|[c [h [r Hh]]]]; [done|].
    destruct (Hinert c h w) as [b Hb]. congruence. }
  destruct Hrows as [Hsame|[b [data [prow [Hprep Hrows]]]]]; [by rewrite Hsame in Hin|].
  rewrite Hrows in Hin. apply In_upsert in Hin as [->|Hin]; [|done].
  pose proof (prepared_fields _ _ _ _ _ _ Hprep) as [Hb Hc]. rewrite Hb, Hc in Hcur.
  destruct (prepared_new _ _ _ _ _ _ Hcur Hprep) as [d [-> [Hk [_ [_ Hdata]]]]].
  rewrite Hdata, parent_link_canon, Hb, Hc.
  unfold parent_link, member. rewrite prop_get_set_eq. simpl.
  unfold meta_of. simpl. by destruct (parent_of w b (op_contract o)).
Qed.

(** ** Compaction *)

Lemma struct_eq_canon v : struct_eq v (canon v).
Proof.
  induction v as [| | | | |l IHl|o IHo] using value_ind_deep; try by constructor.
  - change (canon (VArr l)) with (VArr (map canon l)). constructor.
    induction IHl; simpl; constructor; auto.
  - rewrite canon_obj. constructor. intros k. rewrite prop_get_canon.
    destruct (prop_get k o) as [x|] eqn:E; simpl; constructor.
    rewrite Forall_forall in IHo. apply (IHo (k, x)). by apply prop_get_In.
Qed.

Lemma row_leb_total a b : row_leb a b = true \/ row_leb b a = true.
Proof. unfold row_leb. rewrite !Z.leb_le. lia. Qed.

Lemma row_leb_trans a b c : row_leb a b = true -> row_leb b c = true -> row_leb a c = true.
Proof. unfold row_leb. rewrite !Z.leb_le. lia. Qed.

(** The diffs come in ascending order of block number. *)
Lemma diffs_after_sorted w c n ds :
  List.filter (diff_after c n) (ipldBlocks w) ≡ₚ ds -> ascending ds ->
  diffs_after w c n = ds.
Proof.
  intros Hp Hs. unfold diffs_after.
  assert (StronglySorted (fun d d' => blockNumberOf d < blockNumberOf d') ds) as Hss.
  { apply Sorted_StronglySorted; [|done]. intros x y z. lia. }
  rewrite (sort_by_perm_eq row_leb row_leb_total row_leb_trans _ ds Hp).
  - apply sort_by_id. clear Hp Hss. induction Hs as [|d ds Hds IH Hd]; constructor; [done|].
    destruct Hd; constructor. unfold row_leb. apply Z.leb_le. lia.
  - intros a b' Ha Hb. rewrite Hp in Ha, Hb. unfold row_leb. rewrite !Z.leb_le.
    intros Hab Hba. clear Hp Hs.
    induction Hss as [|d ds Hds IH Hd]; [by apply elem_of_nil in Ha|].
    rewrite List.Forall_forall in Hd.
    apply elem_of_cons in Ha as [->|Ha]; apply elem_of_cons in Hb as [->|Hb]; auto.
    + apply list_elem_of_In, Hd in Hb. lia.
    + apply list_elem_of_In, Hd in Ha. lia.
Qed.

Lemma fold_merge_stuck (Ds : list value) (r : result value) :
  (forall s, r <> Ok s) -> fold_left merge_step Ds r = r.
Proof.
  intros Hr. induction Ds as [|D Ds IH]; [done|]. simpl.
  destruct r as [s| |]; [by destruct (Hr s)|done..].
Qed.

Lemma mergeDiffs_fold ds Ds S0 :
  Forall2 (fun d D => member "state" (IPLDBlock.data d) = Ok D) ds Ds ->
  mergeDiffs S0 ds = fold_left merge_step Ds (Ok S0).
Proof.
  intros H. revert S0. induction H as [|d D ds Ds Hd _ IH]; intros S0; [done|].
  simpl. rewrite Hd. simpl. destruct (merge S0 D) as [s| |]; simpl; [apply IH|..];
    by rewrite fold_merge_stuck.
Qed.

Lemma upsert_fresh row rows :
  (forall r, In r rows -> same_key row r = false) -> upsert row rows = rows ++ [row].
Proof.
  induction rows as [|r rows IH]; intros H; [done|]. simpl.
  rewrite (H r) by by left. rewrite IH; [done|]. intros r' Hr'. apply H. by right.
Qed.

Lemma current_nil_fresh w b c kind row :
  current w b c kind = [] ->
  IPLDBlock.block row = b -> IPLDBlock.contractAddress row = c -> IPLDBlock.kind row = kind ->
  forall r, In r (ipldBlocks w) -> same_key row r = false.
Proof.
  intros Hcur Hb Hc Hk r Hr.
  rewrite <- (matches_same_key b c kind row r); [|unfold blockHashOf; by rewrite Hb|done..].
  destruct (matches (key_filter b c kind) r) eqn:E; [|done].
  assert (In r (current w b c kind)) as Hin by (apply filter_In; done).
  by rewrite Hcur in Hin.
Qed.

Lemma member_meta_of c kind p b : member "kind" (meta_of c kind p b) = Ok (VStr kind).
Proof. reflexivity. Qed.

Lemma prepared_new_Ok w b c o kind :
  existsb (String.eqb kind) kinds = true ->
  current w b c kind = [] ->
  encode (VObj (prop_set "meta" (meta_of c kind (parent_of w b c) b) o)) <> None ->
  exists row, prepared w b c (VObj o) kind = Ok row.
Proof.
  intros Hkind Hcur Henc. unfold prepared. rewrite prepareIPLDBlock_eq, Hkind, Hcur.
  cbn [fst]. unfold assign. cbn [rbind]. unfold row_of, identifier.
  destruct (encode _); [|done]. cbn [mbind option_bind].
  unfold member at 1. rewrite prop_get_set_eq. cbn [default rbind id].
  rewrite member_meta_of. cbn [rbind]. eauto.
Qed.

(** C1: with the latest checkpoint at or below the target at [N0] with state
    [S0], and the diffs of the contract above [N0] being [D1..Dk] in
    ascending order of block number, [createCheckpoint] without data, past its
    gates and with a hook that keeps the default compaction, returns the
    target's hash and adds one checkpoint block at the target; its state, as
    read back, is the left fold [merge(...merge(merge(S0, D1), D2)..., Dk)]
    with the keys of each map in the codec's order, which is structurally
    equal to the fold. *)
Theorem createCheckpoint_compacts (hooks : Hooks) (c : string) (bh : option string)
    (data : value) (interval : option Z) (w : World) (ss : SyncStatus.t)
    (b : BlockProgress.t) (cp : IPLDBlock.t) (ds : list IPLDBlock.t)
    (S0 : value) (Ds : list value) (S : value) :
  truthy data = false ->
  syncStatus w = Some ss ->
  lookup_block w (target_hash bh ss) = Some b ->
  BlockProgress.isComplete b = true ->
  BlockProgress.blockNumber b <= SyncStatus.latestCanonicalBlockNumber ss ->
  latest_checkpoint w c (Some (BlockProgress.blockNumber b)) = Some cp ->
  skips interval b cp = false ->
  createStateCheckpoint hooks c (BlockProgress.blockHash b) w = (Ok false, w) ->
  List.filter (diff_after c (blockNumberOf cp)) (ipldBlocks w) ≡ₚ ds ->
  ascending ds ->
  member "state" (IPLDBlock.data cp) = Ok S0 ->
  Forall2 (fun d D => member "state" (IPLDBlock.data d) = Ok D) ds Ds ->
  fold_left merge_step Ds (Ok S0) = Ok S ->
  current w b c "checkpoint" = [] ->
  encode (VObj [("state", S); ("meta", meta_of c "checkpoint" (parent_of w b c) b)]) <> None ->
  exists row,
    createCheckpoint hooks c bh data interval w
      = (Ok (Some (BlockProgress.blockHash b)), with_ipldBlocks w (ipldBlocks w ++ [row])) /\
    IPLDBlock.block row = b /\ IPLDBlock.contractAddress row = c /\
    IPLDBlock.kind row = "checkpoint" /\
    member "state" (IPLDBlock.data row) = Ok (canon S) /\
    struct_eq S (canon S).
Proof.
  intros Hdata Hss Hb Hcomplete Hcanon Hcp Hskip Hhook Hperm Hasc HS0 HDs Hfold Hcur Henc.
  rewrite createCheckpoint_eq, Hss, Hb, Hdata, Hcomplete. simpl.
  destruct (Z.leb_spec (BlockProgress.blockNumber b)
                       (SyncStatus.latestCanonicalBlockNumber ss)); [|lia].
  simpl. rewrite Hcp, Hskip, Hhook, HS0. simpl.
  rewrite (diffs_after_sorted _ _ _ _ Hperm Hasc), (mergeDiffs_fold _ _ _ HDs), Hfold.
  destruct (prepared_new_Ok w b c [("state", S)] "checkpoint") as [row Hrow]; [done..|].
  rewrite Hrow.
  destruct (prepared_new _ _ _ _ _ _ Hcur Hrow) as [o [[= <-] [Hk [Hblock [Hc Hd]]]]].
  exists row. simpl. rewrite upsert_fresh by (eapply current_nil_fresh; eauto).
  repeat split; try done; [|apply struct_eq_canon].
  rewrite Hd, member_canon. done.
Qed.

(** ** Finalization *)

(** C2, as stated, fails.  When a diff of the contract already exists at the
    block ([createDiff] made one), finalization merges the staged payload
    into it, kind and all, and the merged row is saved as staged and
    removed: [processCanonicalBlock] returns and no diff at the block has
    the staged state. *)
Lemma finalize_into_existing_diff :
  exists stagedBlock w',
    In stagedBlock (ipldBlocks Scenario.w2') /\
    IPLDBlock.kind stagedBlock = "diff_staged" /\
    blockHashOf stagedBlock = "h105" /\
    IPLDBlock.contractAddress stagedBlock = "C" /\
    processCanonicalBlock noHooks "h105" Scenario.w2' = (Ok tt, w') /\
    forall d, In d (ipldBlocks w') ->
              IPLDBlock.kind d = "diff" -> blockHashOf d = "h105" ->
              member "state" (IPLDBlock.data d)
                <> member "state" (IPLDBlock.data stagedBlock).
Proof.
  eexists _, _. split; [vm_compute; right; right; left; reflexivity|].
  split; [reflexivity|]. split; [reflexivity|]. split; [reflexivity|].
  split; [vm_compute; reflexivity|].
  intros d Hd. vm_compute in Hd. destruct Hd as [<-|[<-|[]]]; vm_compute; intros; discriminate.
Qed.

Lemma createDiff_new c h data w w' b :
  lookup_block w h = Some b -> current w b c "diff" = [] ->
  createDiff c h data w = (Ok tt, w') ->
  exists row,
    w' = with_ipldBlocks w (ipldBlocks w ++ [row]) /\
    IPLDBlock.block row = b /\ IPLDBlock.contractAddress row = c /\
    IPLDBlock.kind row = "diff" /\
    member "state" (IPLDBlock.data row) = rmap canon (member "state" data).
Proof.
  intros Hb Hcur. rewrite createDiff_eq, Hb.
  destruct (latest_checkpoint w c None) as [cp|]; [|done].
  destruct (String.eqb _ _); [done|].
  destruct (prepared w b c data "diff") as [row| |] eqn:Hrow; [|done..].
  simpl. intros [= <-]. exists row.
  destruct (prepared_new _ _ _ _ _ _ Hcur Hrow) as [o [-> [Hk [Hblock [Hc Hd]]]]].
  rewrite upsert_fresh by (eapply current_nil_fresh; eauto).
  repeat split; try done.
  rewrite Hd, member_canon. unfold member. by rewrite prop_get_set_ne.
Qed.

Lemma forEach_finalize h b xs :
  forall w w2,
    forEach xs finalize_body w = (Ok tt, w2) ->
    lookup_block w h = Some b ->
    Forall (fun s => blockHashOf s = h) xs ->
    NoDup (map IPLDBlock.contractAddress xs) ->
    (forall s, In s xs -> current w b (IPLDBlock.contractAddress s) "diff" = []) ->
    exists ds, ipldBlocks w2 = ipldBlocks w ++ ds /\ Forall2 (finalized b) xs ds.
Proof.
  induction xs as [|x xs IH]; intros w w2; simpl.
  - intros [= <-] _ _ _ _. exists []. by rewrite app_nil_r.
  - intros [[] [wx [Hx Hrest]]]%bind_Ok Hb [Hhx Hh]%Forall_cons [Hcx Hnd]%NoDup_cons Hcur.
    unfold finalize_body in Hx. rewrite Hhx in Hx.
    destruct (createDiff_new _ _ _ _ _ _ Hb (Hcur x (or_introl eq_refl)) Hx)
      as [row [-> [Hblock [Hc [Hk Hstate]]]]].
    destruct (IH _ _ Hrest) as [ds [Hrows Hds]]; [done..| |].
    + intros s Hs. unfold current. simpl. rewrite List.filter_app.
      specialize (Hcur s (or_intror Hs)). unfold current in Hcur. rewrite Hcur. simpl.
      destruct (matches _ row) eqn:E; [|done]. exfalso.
      unfold matches, key_filter in E. simpl in E.
      apply andb_true_iff in E as [[_ E]%andb_true_iff _]. apply String.eqb_eq in E.
      apply Hcx. rewrite <- Hc, E. apply list_elem_of_In, in_map. done.
    + exists (row :: ds). simpl in Hrows. rewrite Hrows, <- app_assoc. split; [done|].
      constructor; [|done]. done.
Qed.

(** C2, amended: when none of the contracts staged at [B] has a diff at [B]
    yet, after [processCanonicalBlock(B)] returns each of them has a diff at
    [B] whose state is that of its staged block, and no staged block is left
    at [B]'s block number.  The staged blocks are as the indexer writes
    them (one per contract, the payload as the codec returns it), and the
    hook run after finalization leaves the store alone. *)
Theorem finalization_complete (hooks : Hooks) (h : string) (w w' : World)
    (b : BlockProgress.t) :
  (forall w0, createStateDiff hooks h w0 = (Ok tt, w0)) ->
  lookup_block w h = Some b ->
  NoDup (map IPLDBlock.contractAddress (staged_of w b)) ->
  (forall s, In s (staged_of w b) ->
     current w b (IPLDBlock.contractAddress s) "diff" = [] /\
     canon (IPLDBlock.data s) = IPLDBlock.data s) ->
  processCanonicalBlock hooks h w = (Ok tt, w') ->
  (forall s, In s (staged_of w b) ->
     exists d, In d (ipldBlocks w') /\ IPLDBlock.block d = b /\
               IPLDBlock.contractAddress d = IPLDBlock.contractAddress s /\
               IPLDBlock.kind d = "diff" /\
               member "state" (IPLDBlock.data d) = member "state" (IPLDBlock.data s)) /\
  (forall r, In r (ipldBlocks w') ->
     ~ (blockNumberOf r = BlockProgress.blockNumber b /\ IPLDBlock.kind r = "diff_staged")).
Proof.
  intros Hhook Hb Hnd Hstaged Hrun.
  unfold processCanonicalBlock in Hrun. apply bind_Ok in Hrun as [[] [w1 [Hfin Hh]]].
  rewrite Hhook in Hh. injection Hh as <-.
  rewrite finalizeDiffStaged_eq, Hb in Hfin.
  destruct (forEach _ _ w) as [[[]|e|] w2] eqn:Hloop; [|done..].
  injection Hfin as <-.
  destruct (forEach_finalize h b _ _ _ Hloop Hb) as [ds [Hrows Hds]].
  - apply List.Forall_forall. intros y [_ Hy]%filter_In.
    unfold matches in Hy. simpl in Hy.
    apply andb_true_iff in Hy as [[Hy _]%andb_true_iff _].
    apply String.eqb_eq in Hy. rewrite Hy. by apply lookup_block_hash in Hb.
  - done.
  - intros s Hs. by apply Hstaged.
  - split.
    + intros s Hs. apply list_elem_of_In in Hs.
      destruct (proj1 (list_elem_of_lookup _ _) Hs) as [i Hi].
      destruct (Forall2_lookup_l _ _ _ _ _ Hds Hi) as [d [Hd [Hblock [Hc [Hk Hstate]]]]].
      exists d. simpl. repeat split; try done.
      * apply filter_In. split.
        -- rewrite Hrows. apply in_or_app. right. apply list_elem_of_In.
           apply list_elem_of_lookup. eauto.
        -- unfold staged_at. rewrite Hk. apply negb_true_iff, andb_false_iff. by right.
      * rewrite Hstate, <- member_canon.
        apply list_elem_of_In in Hs. by rewrite (proj2 (Hstaged s Hs)).
    + intros r [_ Hr]%filter_In [Hn Hk]. unfold staged_at in Hr.
      rewrite Hn, Hk, Z.eqb_refl in Hr. done.
Qed.

(** * More of the indexer and of what it is built on *)

(** ** The loop over the diffs *)

(** The model of [_.merge] has no throw: where lodash throws on its own (as
    when it assigns a [length] that is no length to an array), the merge has
    left plain data and the model is [Exotic]. *)
Lemma merge_never_throws a b e : merge a b <> Throw e.
Proof.
  unfold merge. destruct (toObject a) as [o| |] eqn:E; simpl; try done.
  - unfold baseMerge. destruct (truthy b); [|done].
    destruct b as [| | | | |src|src]; try done.
    + destruct o; try (destruct src; done).
      pose proof (baseMergeDeep_never_throws (Some (VArr elems)) (VArr src) e) as H.
      rewrite baseMergeDeep_arr in H. done.
    + destruct o; try (destruct src; done).
      pose proof (baseMergeDeep_never_throws (Some (VObj props)) (VObj src) e) as H.
      rewrite baseMergeDeep_obj in H. done.
  - by destruct a.
Qed.

Lemma member_throws k v e : member k v = Throw e -> v = VUndef \/ v = VNull.
Proof. destruct v; simpl; try done; auto. Qed.

(** X1: as long as every merge stays within plain data, the loop of
    [createCheckpoint] that merges the diffs throws exactly when it comes,
    the diffs before it merged, to a diff whose payload is [undefined] or
    [null]: the throw is the failed read of [state] from that payload.  A
    merge that leaves plain data, where lodash may throw on its own, is
    [Exotic] here and nothing is said of it. *)
Theorem mergeDiffs_throws S0 ds e :
  mergeDiffs S0 ds = Throw e <->
  exists ds1 d ds2 S,
    ds = ds1 ++ d :: ds2 /\ mergeDiffs S0 ds1 = Ok S /\
    (IPLDBlock.data d = VUndef \/ IPLDBlock.data d = VNull) /\
    member "state" (IPLDBlock.data d) = Throw e.
Proof.
  split.
  - revert S0. induction ds as [|d ds IH]; intros S0; simpl; [done|].
    destruct (member "state" (IPLDBlock.data d)) as [D|e'|] eqn:Hd; simpl; [| |done].
    + destruct (merge S0 D) as [S1|e'|] eqn:Hm; simpl; [| |done].
      * intros H. destruct (IH _ H) as [ds1 [d' [ds2 [S [-> [H1 [H2 H3]]]]]]].
        exists (d :: ds1), d', ds2, S. split; [done|]. split; [|done].
        simpl. rewrite Hd. simpl. rewrite Hm. done.
      * by destruct (merge_never_throws S0 D e').
    + intros [= ->]. exists [], d, ds, S0. split; [done|]. split; [done|].
      split; [|done]. eapply member_throws; eauto.
  - intros [ds1 [d [ds2 [S [-> [H1 [_ H3]]]]]]].
    revert S0 H1. induction ds1 as [|d1 ds1 IH]; intros S0; simpl.
    + intros _. by rewrite H3.
    + destruct (member "state" (IPLDBlock.data d1)) as [D| |]; simpl; [|done..].
      destruct (merge S0 D) as [S1| |]; simpl; [|done..]. apply IH.
Qed.

Lemma keys_prop_set {A} k (v : A) o k' :
  k' ∈ keys (prop_set k v o) <-> k' = k \/ k' ∈ keys o.
Proof.
  induction o as [|[k0 v0] o IH]; simpl.
  - rewrite list_elem_of_singleton. split; [auto|]. intros [?|?%elem_of_nil]; done.
  - destruct (String.eqb k k0) eqn:E; simpl; rewrite !elem_of_cons.
    + apply String.eqb_eq in E. subst. tauto.
    + rewrite IH. tauto.
Qed.

Lemma mergeProps_keys dst src r k :
  mergeProps dst src = Ok r -> (k ∈ keys r <-> k ∈ keys dst \/ k ∈ keys src).
Proof.
  revert dst. induction src as [|[k' s] src IH]; intros dst; simpl.
  - intros [= ->]. rewrite elem_of_nil. tauto.
  - destruct (own_name k'); [|done]. intros H.
    apply rbind_Ok in H as [v [_ H]]. rewrite (IH _ H), keys_prop_set, elem_of_cons. tauto.
Qed.

Lemma merge_keys a b r k :
  merge a b = Ok r -> (has_key k r <-> has_key k a \/ has_key k b).
Proof.
  unfold merge. intros [o [Ho H]]%rbind_Ok.
  assert (has_key k o <-> has_key k a) as Hoa.
  { destruct a; simpl in Ho; try done; injection Ho as <-; try done.
    all: simpl; rewrite elem_of_nil; done. }
  rewrite <- Hoa. clear Hoa Ho a. unfold baseMerge in H.
  destruct (truthy b) eqn:Hb.
  - destruct b as [| | | | |src|src]; try done; try (injection H as <-; simpl; tauto).
    + destruct o as [| | | | |dst|dst]; try (destruct src; [injection H as <-; simpl; tauto|done]).
      apply rmap_Ok in H as [zs [_ ->]]. simpl. tauto.
    + destruct o as [| | | | |dst|dst];
        try (destruct src; [injection H as <-; simpl; rewrite elem_of_nil; tauto|done]).
      apply rmap_Ok in H as [o' [Hm ->]]. simpl. by apply mergeProps_keys.
  - injection H as <-. destruct b; try done; simpl; tauto.
Qed.

(** X2: the state the loop of [createCheckpoint] returns has the keys of the
    state it started from and of the states of the diffs, and no other key. *)
Theorem mergeDiffs_keys S0 ds S k :
  mergeDiffs S0 ds = Ok S ->
  (has_key k S <->
   has_key k S0 \/ exists d D, In d ds /\ state_of_row d = Ok D /\ has_key k D).
Proof.
  revert S0. induction ds as [|d ds IH]; intros S0; simpl.
  - intros [= ->]. split; [auto|]. intros [?|[d [D [[] _]]]]. done.
  - intros H. apply rbind_Ok in H as [D [HD H]]. apply rbind_Ok in H as [S1 [Hm H]].
    rewrite (IH _ H), (merge_keys _ _ _ k Hm). split.
    + intros [[?|?]|[d' [D' [? ?]]]]; [by left|right; exists d, D; auto|right; exists d', D'; auto].
    + intros [?|[d' [D' [[<-|?] [HD' ?]]]]]; [by left; left| |right; exists d', D'; auto].
      left. right. unfold state_of_row in HD'. congruence.
Qed.

Lemma mergeDiffs_app S0 l1 l2 :
  mergeDiffs S0 (l1 ++ l2) = (let? S1 := mergeDiffs S0 l1 in mergeDiffs S1 l2).
Proof.
  revert S0. induction l1 as [|d l1 IH]; intros S0; simpl; [done|].
  destruct (member "state" (IPLDBlock.data d)) as [D| |]; simpl; [|done..].
  destruct (merge S0 D) as [S1| |]; simpl; [|done..]. apply IH.
Qed.

Lemma merge_scalar_entry a D r k s :
  NoDup (keys D) -> merge a (VObj D) = Ok r -> prop_get k D = Some s -> is_scalar s ->
  exists o, r = VObj o /\ prop_get k o = Some s.
Proof.
  intros Hnd Hm Hk Hs. unfold merge in Hm. apply rbind_Ok in Hm as [obj [Hobj Hm]].
  unfold baseMerge in Hm. simpl in Hm.
  assert (exists dst, obj = VObj dst) as [dst ->].
  { destruct obj as [| | | | |l|dst]; try (destruct D; [done|discriminate Hm]). eauto. }
  apply rmap_Ok in Hm as [o [Hm ->]]. exists o. split; [done|].
  destruct (mergeProps_get _ _ _ _ _ Hnd Hm Hk) as [v [Hv Hd]].
  rewrite Hv. f_equal. destruct s; simpl in *; try done; by injection Hd as <-.
Qed.

Lemma merge_other_entry o b r k :
  merge (VObj o) b = Ok r -> ~ has_key k b ->
  exists o', r = VObj o' /\ prop_get k o' = prop_get k o.
Proof.
  unfold merge. simpl. unfold baseMerge. intros Hm Hk.
  destruct (truthy b); [|injection Hm as <-; eauto].
  destruct b as [| | | | |src|src]; try (injection Hm as <-; eauto); try done.
  - destruct src; [injection Hm as <-; eauto|done].
  - apply rmap_Ok in Hm as [o' [Hm ->]]. exists o'. split; [done|].
    eapply mergeProps_get_other; eauto.
Qed.

(** X3: the last writer wins: when a diff gives the key [k] of the state a
    scalar and no later diff has the key, the state the loop returns holds
    that scalar under [k]. *)
Theorem mergeDiffs_last_scalar S0 ds1 d ds2 D k s S :
  mergeDiffs S0 (ds1 ++ d :: ds2) = Ok S ->
  state_of_row d = Ok (VObj D) -> NoDup (keys D) ->
  prop_get k D = Some s -> is_scalar s ->
  Forall (fun d' => forall D', state_of_row d' = Ok D' -> ~ has_key k D') ds2 ->
  member k S = Ok s.
Proof.
  intros H Hd Hnd Hk Hs Hlater. rewrite mergeDiffs_app in H.
  apply rbind_Ok in H as [S1 [_ H]]. simpl in H. unfold state_of_row in Hd.
  rewrite Hd in H. simpl in H. apply rbind_Ok in H as [S2 [Hm H]].
  destruct (merge_scalar_entry _ _ _ _ _ Hnd Hm Hk Hs) as [o [-> Ho]].
  clear Hm Hd. revert o Ho H. induction Hlater as [|d' ds2 Hd' _ IH]; intros o Ho; simpl.
  - intros [= <-]. unfold member. by rewrite Ho.
  - intros H. apply rbind_Ok in H as [D' [HD' H]]. apply rbind_Ok in H as [S3 [Hm H]].
    destruct (merge_other_entry _ _ _ k Hm (Hd' _ HD')) as [o' [-> Ho']].
    apply (IH o'); [congruence|done].
Qed.

(** ** Rows as [prepareIPLDBlock] leaves them *)

Lemma identifier_canon data : identifier (canon data) = identifier data.
Proof. unfold identifier. by rewrite encode_canon. Qed.

Lemma meta_kind_canon data : meta_kind (canon data) = rmap canon (meta_kind data).
Proof.
  unfold meta_kind. rewrite member_canon.
  destruct (member "meta" data) as [meta| |]; simpl; [|done..].
  rewrite member_canon. by destruct (member "kind" meta).
Qed.

Lemma row_of_sealed b c data row : row_of b c data = Ok row -> sealed row.
Proof.
  intros H. apply row_of_fields in H as [_ [_ [Hd [[cid [Hcid Hc]] [meta [Hm Hk]]]]]].
  unfold sealed. rewrite Hd, identifier_canon, Hcid, canon_idemp, meta_kind_canon.
  unfold meta_kind. rewrite Hm. simpl. rewrite Hk, Hc. done.
Qed.

Lemma prepared_sealed w b c data kind row :
  prepared w b c data kind = Ok row -> sealed row.
Proof.
  unfold prepared. rewrite prepareIPLDBlock_eq. cbn [fst].
  destruct (existsb (String.eqb kind) kinds); [|done].
  destruct (current w b c kind) as [|cur [|]]; [| |done];
    intros [d [_ H]]%rbind_Ok; by eapply row_of_sealed.
Qed.

Lemma merge_member_other a (d : props) r k :
  merge a (VObj d) = Ok r -> prop_get k d = None ->
  member k r = match a with
               | VUndef | VNull => Ok VUndef
               | _ => member k a
               end.
Proof.
  intros Hm Hd%prop_get_None. unfold merge in Hm. apply rbind_Ok in Hm as [obj [Hobj Hm]].
  unfold baseMerge in Hm. simpl in Hm.
  destruct a as [| | | | |l|o]; simpl in Hobj; try done; injection Hobj as <-.
  - apply rmap_Ok in Hm as [o' [Hm ->]]. unfold member.
    by rewrite (mergeProps_get_other _ _ _ _ Hm Hd).
  - apply rmap_Ok in Hm as [o' [Hm ->]]. unfold member.
    by rewrite (mergeProps_get_other _ _ _ _ Hm Hd).
  - destruct d; [|done]. by injection Hm as <-.
  - apply rmap_Ok in Hm as [o' [Hm ->]]. unfold member.
    by rewrite (mergeProps_get_other _ _ _ _ Hm Hd).
Qed.

Lemma member_kind_defined meta k : member "kind" meta = Ok (VStr k) -> meta <> VUndef.
Proof. by intros H ->. Qed.

(** X4: when a row exists for the block, contract and kind and the new
    payload brings no [meta], [prepareIPLDBlock] keeps the meta of the
    existing row, and the kind it gives the row is the one that meta names. *)
Theorem update_keeps_meta (w : World) (b : BlockProgress.t) (c : string) (d : props)
    (kind : string) (cur row : IPLDBlock.t) :
  current w b c kind = [cur] -> prop_get "meta" d = None ->
  prepared w b c (VObj d) kind = Ok row ->
  member "meta" (IPLDBlock.data row) = rmap canon (member "meta" (IPLDBlock.data cur)) /\
  meta_kind (IPLDBlock.data cur) = Ok (VStr (IPLDBlock.kind row)).
Proof.
  intros Hcur Hd. unfold prepared. rewrite prepareIPLDBlock_eq. cbn [fst].
  destruct (existsb (String.eqb kind) kinds); [|done]. rewrite Hcur.
  intros [data1 [Hm Hrow]]%rbind_Ok.
  apply row_of_fields in Hrow as [_ [_ [Hdata [_ [meta [Hmeta Hkind]]]]]].
  pose proof (merge_member_other _ _ _ _ Hm Hd) as Hsame.
  assert (member "meta" data1 = member "meta" (IPLDBlock.data cur)) as Hsame'.
  { rewrite Hsame. destruct (IPLDBlock.data cur); try done;
      rewrite Hsame in Hmeta; injection Hmeta as <-; done. }
  split.
  - by rewrite Hdata, member_canon, Hsame'.
  - unfold meta_kind. rewrite <- Hsame', Hmeta. simpl. done.
Qed.

Lemma upsert_Forall (P : IPLDBlock.t -> Prop) r rows :
  P r -> Forall P rows -> Forall P (upsert r rows).
Proof.
  intros Hr Hrows. apply List.Forall_forall. intros x [->|Hx]%In_upsert; [done|].
  rewrite List.Forall_forall in Hrows. auto.
Qed.

(** X6: over any sequence of staging and checkpoint operations every row of
    the table stays as [prepareIPLDBlock] leaves one: its [cid] is the
    identifier of its payload, its kind is the one the payload's meta names,
    and its payload is in the codec's form.  The checkpoint hook is assumed
    to keep this. *)
Theorem staging_keeps_sealed (hooks : Hooks) (ops : list op) (w w' : World) :
  hook_keeps all_sealed hooks -> all_sealed w -> run_ops hooks ops w = Some w' ->
  all_sealed w'.
Proof.
  intros Hhooks. revert w. induction ops as [|o ops IH]; intros w Hw; simpl.
  - by intros [= <-].
  - destruct (run hooks o w) as [res w1] eqn:Ho. intros Hrun.
    assert (all_sealed w1) as Hw1.
    { apply run_step in Ho as [w0 [Hw0 Hrows]].
      assert (all_sealed w0) as H0.
      { destruct Hw0 as [->|[c [h [r Hh]]]]; [done|]. eapply Hhooks; eauto. }
      unfold all_sealed in *.
      destruct Hrows as [->|[b [data [row [Hrow ->]]]]]; [done|].
      apply upsert_Forall; [|done]. by eapply prepared_sealed. }
    destruct res; [by apply (IH w1)|by apply (IH w1)|done].
Qed.

(** ** What an operation leaves alone *)

Lemma upsert_has_key r rows x :
  In x rows -> exists x', In x' (upsert r rows) /\ same_key x x' = true.
Proof.
  assert (forall y, same_key y y = true) as Hrefl.
  { intros y. unfold same_key. by rewrite !String.eqb_refl. }
  induction rows as [|r' rows IH]; [done|]. simpl.
  intros [->|Hx].
  - destruct (same_key r x) eqn:E.
    + exists r. split; [by left|]. unfold same_key in *.
      rewrite !andb_true_iff, !String.eqb_eq in *. by destruct E as [[-> ->] ->].
    + exists x. split; [by left|done].
  - destruct (same_key r r') eqn:E.
    + exists x. split; [by right|done].
    + destruct (IH Hx) as [x' [? ?]]. exists x'. split; [by right|done].
Qed.

Lemma upsert_length r rows :
  (length rows <= length (upsert r rows) <= S (length rows))%nat.
Proof.
  induction rows as [|r' rows IH]; simpl; [lia|].
  destruct (same_key r r'); simpl; lia.
Qed.

(** X9: a staging or checkpoint operation, whether it returns or throws,
    leaves the block table and the sync status as they are, changes no row of
    another contract, removes no key from the table and adds at most one
    row.  The checkpoint hook is assumed to change nothing. *)
Theorem run_frame (hooks : Hooks) (o : op) (w w' : World) (res : result unit) :
  inert hooks -> run hooks o w = (res, w') ->
  blocks w' = blocks w /\ syncStatus w' = syncStatus w /\
  (forall c, c <> op_contract o -> rows_of c w' = rows_of c w) /\
  (forall r, In r (ipldBlocks w) ->
     exists r', In r' (ipldBlocks w') /\ same_key r r' = true) /\
  (length (ipldBlocks w) <= length (ipldBlocks w') <= S (length (ipldBlocks w)))%nat.
Proof.
  intros Hinert Hrun.
  assert (blocks w' = blocks w /\ syncStatus w' = syncStatus w) as [Hb Hs].
  { destruct o as [c h data|c h data|c bh data i]; simpl in Hrun.
    - rewrite createDiffStaged_eq in Hrun.
      destruct (lookup_block w h); [|by injection Hrun as <- <-].
      apply save_step in Hrun. tauto.
    - rewrite createDiff_eq in Hrun.
      destruct (lookup_block w h); [|by injection Hrun as <- <-].
      destruct (latest_checkpoint w c None); [|by injection Hrun as <- <-].
      destruct (String.eqb _ _); [by injection Hrun as <- <-|].
      apply save_step in Hrun. tauto.
    - rewrite bind_unfold, createCheckpoint_eq in Hrun.
      destruct (syncStatus w) as [ss|] eqn:Hss; [|by injection Hrun as <- <-].
      destruct (lookup_block w (target_hash bh ss)) as [b|]; [|by injection Hrun as <- <-].
      destruct (truthy data).
      { destruct (save _ w) as [r1 w1] eqn:Hsave.
        apply save_step in Hsave as [? [? _]].
        assert (w' = w1) as -> by (destruct r1; by injection Hrun). split; congruence. }
      destruct (negb (BlockProgress.isComplete b)); [by injection Hrun as <- <-|].
      destruct (negb (_ <=? _)); [by injection Hrun as <- <-|].
      destruct (latest_checkpoint w c _) as [cp|]; [|by injection Hrun as <- <-].
      destruct (skips i b cp); [by injection Hrun as <- <-|].
      destruct (Hinert c (BlockProgress.blockHash b) w) as [d Hd]. rewrite Hd in Hrun.
      destruct d; [by injection Hrun as <- <-|].
      destruct (rbind _ _) as [state| |]; try by injection Hrun as <- <-.
      destruct (save _ w) as [r1 w1] eqn:Hsave.
      apply save_step in Hsave as [? [? _]].
      assert (w' = w1) as -> by (destruct r1; by injection Hrun). split; congruence. }
  split; [done|]. split; [done|].
  apply run_step in Hrun as [w1 [Hw1 Hrows]].
  assert (w1 = w) as ->.
  { destruct Hw1 as [->|[c [h [r Hh]]]]; [done|].
    destruct (Hinert c h w) as [d Hd]. congruence. }
  destruct Hrows as [Hsame|[b [data [row [Hprep Hrows]]]]].
  - unfold rows_of. rewrite Hsame. repeat split; try lia; try done.
    intros r Hr. exists r. split; [done|]. unfold same_key. by rewrite !String.eqb_refl.
  - unfold rows_of. rewrite Hrows. split; [|split].
    + intros c Hc. apply prepared_fields in Hprep as [_ Hpc].
      apply filter_upsert_out.
      * unfold of_contract. apply String.eqb_neq. congruence.
      * intros r' Hk%same_key_contract. unfold of_contract. apply String.eqb_neq. congruence.
    + intros r Hr. by apply upsert_has_key.
    + apply upsert_length.
Qed.

(** ** Reading back and finalizing *)

Lemma In_upsert_self r rows : In r (upsert r rows).
Proof.
  induction rows as [|r' rows IH]; simpl; [by left|].
  destruct (same_key r r'); [by left|by right].
Qed.

(** X10: after [createDiffStaged] returns, [getIPLDBlocksByHash] of the
    same hash returns rows of that block only, and among them a row of the
    contract that is as [prepareIPLDBlock] leaves one. *)
Theorem staged_block_byHash (c h : string) (data : value) (w w' : World) :
  createDiffStaged c h data w = (Ok tt, w') ->
  exists row rows,
    getIPLDBlocksByHash h w' = (Ok rows, w') /\
    In row rows /\ IPLDBlock.contractAddress row = c /\ sealed row /\
    Forall (fun r => blockHashOf r = h) rows.
Proof.
  rewrite createDiffStaged_eq. destruct (lookup_block w h) as [b|] eqn:Hb; [|done].
  destruct (prepared w b c data "diff_staged") as [row| |] eqn:Hrow; [|done..].
  simpl. intros [= <-]. pose proof (prepared_fields _ _ _ _ _ _ Hrow) as [Hblock Hc].
  pose proof (lookup_block_hash _ _ _ Hb) as Hh.
  exists row, (List.filter (matches {| f_block := Some b; f_contractAddress := None;
                                       f_kind := None |}) (upsert row (ipldBlocks w))).
  split; [|split; [|split; [done|split; [by eapply prepared_sealed|]]]].
  - unfold getIPLDBlocksByHash. rewrite bind_unfold. unfold getBlockProgress, read. simpl.
    unfold lookup_block in Hb. by rewrite Hb.
  - apply filter_In. split; [apply In_upsert_self|].
    unfold matches, blockHashOf. simpl. rewrite Hblock, String.eqb_refl. done.
  - apply List.Forall_forall. intros r [_ Hr]%filter_In.
    unfold matches in Hr. simpl in Hr. rewrite !andb_true_r in Hr.
    apply String.eqb_eq in Hr. congruence.
Qed.

Lemma forEach_finalize_rows h b xs :
  forall w res w',
    forEach xs finalize_body w = (res, w') ->
    lookup_block w h = Some b ->
    Forall (fun s => blockHashOf s = h) xs ->
    blocks w' = blocks w /\
    forall r, In r (ipldBlocks w') -> In r (ipldBlocks w) \/ IPLDBlock.block r = b.
Proof.
  induction xs as [|x xs IH]; intros w res w'; simpl.
  - intros [= <- <-] _ _. auto.
  - rewrite bind_unfold. intros H Hb [Hx Hxs]%Forall_cons.
    destruct (finalize_body x w) as [r1 w1] eqn:H1.
    assert (blocks w1 = blocks w /\
            forall r, In r (ipldBlocks w1) -> In r (ipldBlocks w) \/ IPLDBlock.block r = b)
      as [Hb1 Hr1].
    { unfold finalize_body in H1. rewrite Hx, createDiff_eq, Hb in H1.
      destruct (latest_checkpoint w _ None); [|injection H1 as <- <-; auto].
      destruct (String.eqb _ _); [injection H1 as <- <-; auto|].
      destruct (prepared w b _ _ "diff") as [row| |] eqn:Hrow; simpl in H1;
        injection H1 as <- <-; auto.
      split; [done|]. simpl. intros r [->|?]%In_upsert; [|auto].
      right. by apply prepared_fields in Hrow as [? _]. }
    assert (lookup_block w1 h = Some b) as Hb' by (unfold lookup_block in *; by rewrite Hb1).
    destruct r1 as [[]|e|]; try (injection H as <- <-; auto).
    destruct (IH _ _ _ H Hb' Hxs) as [Hb2 Hr2]. split; [congruence|].
    intros r Hr. destruct (Hr2 r Hr) as [?|?]; auto.
Qed.

Lemma staged_of_hash w b s : In s (staged_of w b) -> blockHashOf s = BlockProgress.blockHash b.
Proof.
  intros [_ Hy]%filter_In. unfold matches in Hy. simpl in Hy.
  apply andb_true_iff in Hy as [[Hy _]%andb_true_iff _]. by apply String.eqb_eq in Hy.
Qed.

Lemma finalizeDiffStaged_rows h w w' b :
  lookup_block w h = Some b -> finalizeDiffStaged h w = (Ok tt, w') ->
  blocks w' = blocks w /\
  (forall r, In r (ipldBlocks w') -> ~ staged_at_height (BlockProgress.blockNumber b) r) /\
  (forall r, In r (ipldBlocks w') -> In r (ipldBlocks w) \/ IPLDBlock.block r = b).
Proof.
  intros Hb. rewrite finalizeDiffStaged_eq, Hb.
  destruct (forEach _ _ w) as [[[]|e|] w1] eqn:Hloop; [|done..].
  intros [= <-]. simpl.
  destruct (forEach_finalize_rows h b _ _ _ _ Hloop Hb) as [Hblocks Hrows].
  { apply List.Forall_forall. intros s Hs%staged_of_hash.
    rewrite Hs. by apply lookup_block_hash in Hb. }
  split; [done|]. split.
  - intros r [_ Hr]%filter_In [Hn Hk]. unfold staged_at in Hr.
    rewrite Hn, Hk, Z.eqb_refl in Hr. done.
  - intros r [Hr _]%filter_In. auto.
Qed.

(** X11: after [finalizeDiffStaged] returns, no staged row is left at the
    number of the block, whichever block of that number it was staged for,
    and every row of the table is an old one or a row of the block. *)
Theorem finalizeDiffStaged_clears_height (h : string) (w w' : World) (b : BlockProgress.t) :
  lookup_block w h = Some b -> finalizeDiffStaged h w = (Ok tt, w') ->
  (forall r, In r (ipldBlocks w') -> ~ staged_at_height (BlockProgress.blockNumber b) r) /\
  (forall r, In r (ipldBlocks w') -> In r (ipldBlocks w) \/ IPLDBlock.block r = b).
Proof. intros Hb H. by destruct (finalizeDiffStaged_rows _ _ _ _ Hb H) as [_ ?]. Qed.

(** ** More on [createCheckpoint] *)

(** X12: given a payload that is an object, [createCheckpoint] stores it as
    the checkpoint of the target block, which has none yet, and returns
    [undefined]: the completeness of the block, the pruned region, the
    interval, the hook and the diffs play no part. *)
Theorem createCheckpoint_with_data (hooks : Hooks) (c : string) (bh : option string)
    (o : props) (interval : option Z) (w : World) (ss : SyncStatus.t) (b : BlockProgress.t) :
  syncStatus w = Some ss ->
  lookup_block w (target_hash bh ss) = Some b ->
  current w b c "checkpoint" = [] ->
  encode (VObj (prop_set "meta" (meta_of c "checkpoint" (parent_of w b c) b) o)) <> None ->
  exists row,
    createCheckpoint hooks c bh (VObj o) interval w
      = (Ok None, with_ipldBlocks w (ipldBlocks w ++ [row])) /\
    IPLDBlock.block row = b /\ IPLDBlock.contractAddress row = c /\
    IPLDBlock.kind row = "checkpoint" /\
    IPLDBlock.data row
      = canon (VObj (prop_set "meta" (meta_of c "checkpoint" (parent_of w b c) b) o)).
Proof.
  intros Hss Hb Hcur Henc. rewrite createCheckpoint_eq, Hss, Hb.
  cbn [truthy].
  destruct (prepared_new_Ok w b c o "checkpoint") as [row Hrow]; [done..|].
  rewrite Hrow.
  destruct (prepared_new _ _ _ _ _ _ Hcur Hrow) as [o' [[= <-] [Hk [Hblock [Hc Hd]]]]].
  exists row. simpl. rewrite upsert_fresh by (eapply current_nil_fresh; eauto). done.
Qed.

(** X13: an interval of zero or less is no interval: [createCheckpoint]
    does what it does when none is given. *)
Theorem createCheckpoint_interval_nonpositive (hooks : Hooks) (c : string)
    (bh : option string) (data : value) (I : Z) (w : World) :
  I <= 0 ->
  createCheckpoint hooks c bh data (Some I) w = createCheckpoint hooks c bh data None w.
Proof.
  intros HI. rewrite !createCheckpoint_eq.
  destruct (syncStatus w) as [ss|]; [|done].
  destruct (lookup_block w (target_hash bh ss)) as [b|]; [|done].
  destruct (truthy data); [done|].
  destruct (negb (BlockProgress.isComplete b)); [done|].
  destruct (negb (_ <=? _)); [done|].
  destruct (latest_checkpoint w c _) as [cp|] eqn:Hcp; [|done].
  apply latest_checkpoint_bound in Hcp.
  assert (skips (Some I) b cp = false) as ->; [|done].
  unfold skips. destruct (Z.eqb_spec I 0); [done|]. simpl. apply Z.ltb_ge. lia.
Qed.

Lemma upsert_self r rows : List.filter (same_key r) rows = [r] -> upsert r rows = rows.
Proof.
  induction rows as [|r' rows IH]; simpl; [done|].
  destruct (same_key r r') eqn:E.
  - by intros [= ->].
  - intros H. by rewrite IH.
Qed.

Lemma with_ipldBlocks_same w : with_ipldBlocks w (ipldBlocks w) = w.
Proof. by destruct w. Qed.

Lemma row_of_sealed_row cp :
  sealed cp ->
  row_of (IPLDBlock.block cp) (IPLDBlock.contractAddress cp) (IPLDBlock.data cp) = Ok cp.
Proof.
  intros [Hcid [Hkind Hcanon]]. unfold row_of.
  destruct (identifier (IPLDBlock.data cp)) as [cid|]; [|done].
  injection Hcid as Hcid. unfold meta_kind in Hkind.
  destruct (member "meta" (IPLDBlock.data cp)) as [meta| |]; simpl in *; [|done..].
  rewrite Hkind, Hcid, Hcanon. by destruct cp.
Qed.

(** X14: when the latest checkpoint is the one at the target block and no
    diff lies above it, [createCheckpoint] leaves the database as it is; it
    returns [undefined] where the interval stops it and the hash of the block
    otherwise.  The hook is assumed to decline and to change nothing. *)
Theorem createCheckpoint_again (hooks : Hooks) (c : string) (bh : option string)
    (data : value) (interval : option Z) (w : World) (ss : SyncStatus.t)
    (b : BlockProgress.t) (cp : IPLDBlock.t) (o : props) (S : value) :
  truthy data = false ->
  syncStatus w = Some ss ->
  lookup_block w (target_hash bh ss) = Some b ->
  BlockProgress.isComplete b = true ->
  BlockProgress.blockNumber b <= SyncStatus.latestCanonicalBlockNumber ss ->
  latest_checkpoint w c (Some (BlockProgress.blockNumber b)) = Some cp ->
  createStateCheckpoint hooks c (BlockProgress.blockHash b) w = (Ok false, w) ->
  diffs_after w c (blockNumberOf cp) = [] ->
  current w b c "checkpoint" = [cp] -> IPLDBlock.block cp = b -> sealed cp ->
  IPLDBlock.data cp = VObj o -> prop_get "state" o = Some S -> wf S -> plain S ->
  createCheckpoint hooks c bh data interval w
    = (Ok (if skips interval b cp then None else Some (BlockProgress.blockHash b)), w).
Proof.
  intros Hdata Hss Hb Hcomplete Hcanon Hcp Hhook Hdiffs Hcur Hblock Hsealed Ho HS Hwf Hpl.
  rewrite createCheckpoint_eq, Hss, Hb, Hdata, Hcomplete. simpl.
  destruct (Z.leb_spec (BlockProgress.blockNumber b)
                       (SyncStatus.latestCanonicalBlockNumber ss)); [|lia].
  simpl. rewrite Hcp. destruct (skips interval b cp); [done|].
  rewrite Hhook, Hdiffs, Ho. unfold member at 1. rewrite HS. simpl.
  assert (In cp (current w b c "checkpoint")) as Hin by (rewrite Hcur; by left).
  apply filter_In in Hin as [Hin Hm].
  unfold matches, key_filter in Hm. simpl in Hm.
  apply andb_true_iff in Hm as [[Hmh Hmc]%andb_true_iff Hmk].
  apply String.eqb_eq in Hmh, Hmc, Hmk.
  assert (prepared w b c (VObj [("state", S)]) "checkpoint" = Ok cp) as ->.
  { unfold prepared. rewrite prepareIPLDBlock_eq. cbn [fst].
    replace (existsb (String.eqb "checkpoint") kinds) with true by reflexivity.
    rewrite Hcur, Ho.
    assert (merge (VObj o) (VObj [("state", S)]) = Ok (VObj o)) as ->.
    { unfold merge, baseMerge. simpl.
      replace (own_name "state") with true by reflexivity.
      rewrite HS, (baseMergeDeep_self S Hwf Hpl). simpl.
      by rewrite (prop_set_same _ _ _ HS). }
    simpl. rewrite <- Ho, <- Hblock, <- Hmc. by apply row_of_sealed_row. }
  simpl. rewrite upsert_self, with_ipldBlocks_same; [done|].
  unfold current in Hcur. rewrite <- Hcur. apply filter_ext. intros r.
  symmetry. apply matches_same_key; [by rewrite Hmh|done..].
Qed.

(** ** The checkpoint jobs *)

Lemma filter_unique {A B} (f : A -> B) (p : A -> bool) (a : B) (l : list A) :
  NoDup (map f l) -> (forall x, p x = true -> f x = a) ->
  (length (List.filter p l) <= 1)%nat.
Proof.
  intros Hnd Hp. induction l as [|x l IH]; simpl; [lia|].
  simpl in Hnd. apply NoDup_cons in Hnd as [Hx Hnd].
  destruct (p x) eqn:E; [|auto]. simpl.
  destruct (List.filter p l) as [|y ys] eqn:Hf; [simpl; lia|].
  exfalso. apply Hx. assert (In y (List.filter p l)) as Hy by (rewrite Hf; by left).
  apply filter_In in Hy as [Hy Hpy]. rewrite (Hp _ E), <- (Hp _ Hpy).
  apply list_elem_of_In, in_map. done.
Qed.

Lemma current_unique w b c k : unique_keys w -> (length (current w b c k) <= 1)%nat.
Proof.
  intros Hu. apply (filter_unique key_of _ (BlockProgress.blockHash b, c, k)); [done|].
  intros x Hx. unfold matches, key_filter in Hx. simpl in Hx.
  apply andb_true_iff in Hx as [[H1 H2]%andb_true_iff H3].
  apply String.eqb_eq in H1, H2, H3. unfold key_of. congruence.
Qed.

Lemma current_after_save w b c k row :
  unique_keys w -> IPLDBlock.block row = b -> IPLDBlock.contractAddress row = c ->
  IPLDBlock.kind row = k ->
  current (with_ipldBlocks w (upsert row (ipldBlocks w))) b c k = [row].
Proof.
  intros Hu Hb Hc Hk. unfold current. simpl.
  rewrite (filter_upsert_in _ row).
  2:{ intros r. apply matches_same_key; [|done..]. unfold blockHashOf. by rewrite Hb. }
  pose proof (current_unique w b c k Hu) as Hlen. unfold current in Hlen.
  destruct (List.filter _ (ipldBlocks w)) as [|x [|y l]]; simpl in *; try done. lia.
Qed.

Lemma prepared_state_kind w b c S row :
  all_sealed w -> prepared w b c (VObj [("state", S)]) "checkpoint" = Ok row ->
  IPLDBlock.kind row = "checkpoint".
Proof.
  intros Hs Hrow. unfold prepared in Hrow. rewrite prepareIPLDBlock_eq in Hrow.
  cbn [fst] in Hrow.
  replace (existsb (String.eqb "checkpoint") kinds) with true in Hrow by reflexivity.
  destruct (current w b c "checkpoint") as [|cur [|]] eqn:Hcur; [| |done].
  - assert (prepared w b c (VObj [("state", S)]) "checkpoint" = Ok row) as Hp.
    { unfold prepared. rewrite prepareIPLDBlock_eq. cbn [fst].
      replace (existsb (String.eqb "checkpoint") kinds) with true by reflexivity.
      by rewrite Hcur. }
    by destruct (prepared_new _ _ _ _ _ _ Hcur Hp) as [o [_ [? _]]].
  - apply rbind_Ok in Hrow as [data1 [Hm Hrow]].
    apply row_of_fields in Hrow as [_ [_ [_ [_ [meta [Hmeta Hkind]]]]]].
    assert (In cur (current w b c "checkpoint")) as Hin by (rewrite Hcur; by left).
    apply filter_In in Hin as [Hin Hmatch].
    unfold all_sealed in Hs. rewrite List.Forall_forall in Hs.
    destruct (Hs _ Hin) as [_ [Hk _]].
    unfold matches, key_filter in Hmatch. simpl in Hmatch.
    apply andb_true_iff in Hmatch as [_ Hmk]. apply String.eqb_eq in Hmk.
    rewrite (merge_member_other _ [("state", S)] _ "meta" Hm eq_refl) in Hmeta.
    unfold meta_kind in Hk.
    destruct (IPLDBlock.data cur); try (injection Hmeta as <-; done);
      rewrite Hmeta in Hk; simpl in Hk; congruence.
Qed.

Section CLIFacts.
Variable hooks : Hooks.
Variable pushToIPFS : value -> M unit.

(** X15: when [createCheckpoint] returns a hash, [processCLICheckpoint]
    finds one checkpoint row of the contract at that block, pushes the payload
    of that row and returns the hash.  The table is assumed to have unique
    keys and rows as [prepareIPLDBlock] leaves them, and the hook to decline. *)
Theorem processCLICheckpoint_pushes (c : string) (bh : option string) (w w1 : World)
    (h : string) :
  unique_keys w -> all_sealed w ->
  (forall h0, createStateCheckpoint hooks c h0 w = (Ok false, w)) ->
  createCheckpoint hooks c bh VUndef None w = (Ok (Some h), w1) -> h <> "" ->
  exists row,
    current w1 (IPLDBlock.block row) c "checkpoint" = [row] /\
    blockHashOf row = h /\ sealed row /\
    processCLICheckpoint hooks pushToIPFS c bh w
      = bind (pushToIPFS (IPLDBlock.data row)) (fun _ => ret h) w1.
Proof.
  intros Hu Hs Hhook Hrun Hh. unfold processCLICheckpoint. rewrite bind_unfold, Hrun.
  rewrite createCheckpoint_eq in Hrun.
  destruct (syncStatus w) as [ss|] eqn:Hss; [|done].
  destruct (lookup_block w (target_hash bh ss)) as [b|] eqn:Hb; [|done].
  cbn [truthy] in Hrun.
  destruct (negb (BlockProgress.isComplete b)); [done|].
  destruct (negb (_ <=? _)); [done|].
  destruct (latest_checkpoint w c _) as [cp|]; [|done].
  cbn [skips] in Hrun. rewrite Hhook in Hrun.
  destruct (rbind _ _) as [state| |]; [|done..].
  destruct (prepared w b c _ "checkpoint") as [row| |] eqn:Hrow; [|done..].
  simpl in Hrun. injection Hrun as <- <-.
  pose proof (prepared_fields _ _ _ _ _ _ Hrow) as [Hblock Hc].
  pose proof (prepared_state_kind _ _ _ _ _ Hs Hrow) as Hk.
  pose proof (lookup_block_hash _ _ _ Hb) as Hbh.
  exists row. rewrite Hblock.
  split; [by apply current_after_save|].
  split; [unfold blockHashOf; by rewrite Hblock|].
  split; [by eapply prepared_sealed|].
  assert (lookup_block w (BlockProgress.blockHash b) = Some b) as Hlook by by rewrite Hbh.
  destruct (BlockProgress.blockHash b) as [|a s] eqn:Ehash; [done|].
  rewrite bind_unfold. unfold getBlockProgress at 1, read at 1. cbn [blocks with_ipldBlocks].
  unfold lookup_block in Hlook. rewrite Hlook.
  rewrite bind_unfold. unfold getIPLDBlocks at 1, read at 1.
  fold (key_filter b c "checkpoint").
  fold (current (with_ipldBlocks w (upsert row (ipldBlocks w))) b c "checkpoint").
  rewrite current_after_save by done. done.
Qed.

(** X16: when the checkpoint hook takes over and there is no checkpoint row
    of the contract at the target block afterwards, [processCLICheckpoint]
    throws a [TypeError] at the read of the missing row; nothing is pushed. *)
Theorem processCLICheckpoint_replaced (c : string) (bh : option string) (w w1 : World)
    (ss : SyncStatus.t) (b b1 : BlockProgress.t) (cp : IPLDBlock.t) :
  syncStatus w = Some ss ->
  lookup_block w (target_hash bh ss) = Some b ->
  BlockProgress.isComplete b = true ->
  BlockProgress.blockNumber b <= SyncStatus.latestCanonicalBlockNumber ss ->
  latest_checkpoint w c (Some (BlockProgress.blockNumber b)) = Some cp ->
  createStateCheckpoint hooks c (BlockProgress.blockHash b) w = (Ok true, w1) ->
  BlockProgress.blockHash b <> "" ->
  lookup_block w1 (BlockProgress.blockHash b) = Some b1 ->
  current w1 b1 c "checkpoint" = [] ->
  exists msg, processCLICheckpoint hooks pushToIPFS c bh w = (Throw (TypeError msg), w1).
Proof.
  intros Hss Hb Hcomplete Hcanon Hcp Hhook Hh Hb1 Hcur.
  unfold processCLICheckpoint. rewrite bind_unfold, createCheckpoint_eq, Hss, Hb.
  cbn [truthy]. rewrite Hcomplete. simpl.
  destruct (Z.leb_spec (BlockProgress.blockNumber b)
                       (SyncStatus.latestCanonicalBlockNumber ss)); [|lia].
  simpl. rewrite Hcp, Hhook.
  destruct (BlockProgress.blockHash b) as [|a s] eqn:Ehash; [done|].
  rewrite bind_unfold. unfold getBlockProgress at 1, read at 1.
  unfold lookup_block in Hb1. rewrite Hb1.
  rewrite bind_unfold. unfold getIPLDBlocks at 1, read at 1.
  fold (key_filter b1 c "checkpoint"). fold (current w1 b1 c "checkpoint").
  rewrite Hcur. simpl. eauto.
Qed.
End CLIFacts.

Section JobsFacts.
Variable hooks : Hooks.
Variable getContracts : M (list Contract.t).
Variable createInitialCheckpoint : string -> string -> M unit.

(** X17: [processCheckpoint] returns with the database as it was when the
    interval is zero or less, and also when for every contract checkpointing
    is off, or there is no checkpoint and the block number of the job is not
    the starting block, or the latest checkpoint at or below the block is less
    than the interval below it. *)
Theorem processCheckpoint_idle (interval : Z) (blockHash : string) (blockNumber : Z)
    (w : World) (ss : SyncStatus.t) (b : BlockProgress.t) (contracts : list Contract.t) :
  interval <= 0 \/
  (getContracts w = (Ok contracts, w) /\
   syncStatus w = Some ss /\
   lookup_block w (target_hash (Some blockHash) ss) = Some b /\
   BlockProgress.isComplete b = true /\
   BlockProgress.blockNumber b <= SyncStatus.latestCanonicalBlockNumber ss /\
   Forall (nothing_due w interval b blockNumber) contracts) ->
  processCheckpoint hooks getContracts createInitialCheckpoint interval blockHash blockNumber w
    = (Ok tt, w).
Proof.
  unfold processCheckpoint. destruct (Z.leb_spec interval 0) as [Hle|Hpos]; [done|].
  intros [?|[Hget [Hss [Hb [Hcomplete [Hcanon Hall]]]]]]; [lia|].
  rewrite bind_unfold, Hget. clear Hget.
  induction Hall as [|contract contracts Hdue _ IH]; [done|].
  cbn [forEach]. rewrite bind_unfold.
  assert ((if Contract.checkpoint contract
           then bind (getLatestIPLDBlock (Contract.address contract) (Some "checkpoint") None)
                  (fun checkpointBlock =>
                     match checkpointBlock with
                     | Some _ =>
                         bind (createCheckpoint hooks (Contract.address contract)
                                 (Some blockHash) VNull (Some interval)) (fun _ => ret tt)
                     | None =>
                         if blockNumber =? Contract.startingBlock contract
                         then createInitialCheckpoint (Contract.address contract) blockHash
                         else ret tt
                     end)
           else ret tt) w = (Ok tt, w)) as ->; [|exact IH].
  destruct Hdue as [->|[[Hnone Hstart]|[Hsome [cp [Hcp Hint]]]]]; [done| |].
  - destruct (Contract.checkpoint contract); [|done].
    rewrite bind_unfold. unfold getLatestIPLDBlock at 1, read at 1.
    fold (latest_checkpoint w (Contract.address contract) None). rewrite Hnone.
    destruct (Z.eqb_spec blockNumber (Contract.startingBlock contract)); done.
  - destruct (Contract.checkpoint contract); [|done].
    rewrite bind_unfold. unfold getLatestIPLDBlock at 1, read at 1.
    fold (latest_checkpoint w (Contract.address contract) None).
    destruct (latest_checkpoint w (Contract.address contract) None); [|done].
    rewrite bind_unfold, createCheckpoint_eq, Hss, Hb. cbn [truthy]. rewrite Hcomplete.
    simpl. destruct (Z.leb_spec (BlockProgress.blockNumber b)
                                (SyncStatus.latestCanonicalBlockNumber ss)); [|lia].
    simpl. rewrite Hcp. unfold skips.
    destruct (Z.eqb_spec interval 0); [lia|].
    destruct (Z.ltb_spec (BlockProgress.blockNumber b - interval) (blockNumberOf cp));
      [done|lia].
Qed.
End JobsFacts.

(** ** Identifier strings *)

Lemma base32_groups_length fuel bits :
  (length bits <= fuel)%nat ->
  String.length (base32_groups fuel bits) = ((length bits + 4) / 5)%nat.
Proof.
  revert bits. induction fuel as [|fuel IH]; intros bits Hf.
  - destruct bits; [done|simpl in Hf; lia].
  - destruct bits as [|b bits]; [done|].
    cbn [base32_groups String.length]. rewrite IH.
    + rewrite length_skipn. cbn [length].
      destruct (Nat.le_gt_cases 5 (S (length bits))) as [H5|H5].
      * replace (S (length bits) + 4)%nat with ((S (length bits) - 5 + 4) + 1 * 5)%nat by lia.
        rewrite Nat.div_add by lia. lia.
      * replace (S (length bits) - 5)%nat with 0%nat by lia.
        assert ((S (length bits) + 4) / 5 = 1)%nat as ->; [|done].
        symmetry. apply Nat.div_unique with (r := (length bits)%nat); lia.
    + rewrite length_skipn. simpl in *. lia.
Qed.

Lemma bits_of_byte_length b : length (bits_of_byte b) = 8%nat.
Proof. reflexivity. Qed.

Lemma bits_length bs : length (concat (map bits_of_byte bs)) = (8 * length bs)%nat.
Proof.
  induction bs as [|b bs IH]; [done|].
  cbn [map concat]. rewrite length_app, IH, bits_of_byte_length. simpl; lia.
Qed.

Lemma base32_length bs : String.length (base32 bs) = ((8 * length bs + 4) / 5)%nat.
Proof. unfold base32. rewrite base32_groups_length by done. by rewrite bits_length. Qed.

Lemma cid_toString_length c :
  String.length (cid_toString c) = S ((8 * length (cid_bytes c) + 4) / 5).
Proof.
  change (cid_toString c) with (String "b" (base32 (cid_bytes c))).
  cbn [String.length]. by rewrite base32_length.
Qed.

(** X5: every identifier [prepareIPLDBlock] computes prints as 59
    characters that begin with [bafyrei]: the multibase prefix and the base32
    of version 1, the dag-cbor codec, sha2-256 and a digest of 32 bytes. *)
Theorem identifier_string_shape (data : value) (cid : CID) :
  identifier data = Some cid ->
  String.length (cid_toString cid) = 59%nat /\
  String.prefix "bafyrei" (cid_toString cid) = true.
Proof.
  unfold identifier. destruct (encode data) as [bs|]; [|done].
  cbn [mbind option_bind]. intros [= <-].
  pose proof (digest_length bs) as Hlen. set (d := SHA256.digest bs) in *. clearbody d.
  split.
  - rewrite cid_toString_length.
    unfold cid_bytes, CID_create. cbn [cid_digest length]. rewrite Hlen. reflexivity.
  - unfold cid_toString, base32, cid_bytes, CID_create.
    cbn [cid_version cid_code cid_digest]. unfold len. rewrite Hlen.
    change (byte_of_Z 1) with x01. change (byte_of_Z dag_cbor_code) with x71.
    change (byte_of_Z sha2_256_code) with x12. change (byte_of_Z (Z.of_nat 32)) with x20.
    cbn [map concat].
    change (bits_of_byte x01) with [false;false;false;false;false;false;false;true].
    change (bits_of_byte x71) with [false;true;true;true;false;false;false;true].
    change (bits_of_byte x12) with [false;false;false;true;false;false;true;false].
    change (bits_of_byte x20) with [false;false;true;false;false;false;false;false].
    cbn [app length]. reflexivity.
Qed.

(** ** The codec: decoding what was encoded *)

Lemma Z_of_byte_range b : 0 <= Z_of_byte b < 256.
Proof.
  unfold Z_of_byte. pose proof (Byte.to_N_bounded b). lia.
Qed.

Lemma Z_of_byte_of_Z z : 0 <= z < 256 -> Z_of_byte (byte_of_Z z) = z.
Proof.
  intros Hz. unfold byte_of_Z, Z_of_byte. rewrite Z.mod_small by done.
  destruct (Byte.of_N (Z.to_N z)) as [b|] eqn:E.
  - apply Byte.to_of_N in E. rewrite E. lia.
  - apply Byte.of_N_None_iff in E. lia.
Qed.

Lemma byte_of_Z_mod z : byte_of_Z (z mod 256) = byte_of_Z z.
Proof. unfold byte_of_Z. by rewrite Z.mod_mod. Qed.

Lemma Z_of_be_snoc bs b : Z_of_be (bs ++ [b]) = Z_of_be bs * 256 + Z_of_byte b.
Proof. unfold Z_of_be. by rewrite fold_left_app. Qed.

Lemma Z_of_be_bytes n z : 0 <= z < 256 ^ Z.of_nat n -> Z_of_be (be_bytes n z) = z.
Proof.
  revert z. induction n as [|n IH]; intros z Hz.
  - simpl in *. unfold Z_of_be. simpl. lia.
  - cbn [be_bytes]. rewrite Z_of_be_snoc, IH.
    + rewrite <- byte_of_Z_mod, Z_of_byte_of_Z by (apply Z.mod_pos_bound; lia).
      pose proof (Z.div_mod z 256). lia.
    + rewrite Nat2Z.inj_succ, Z.pow_succ_r in Hz by lia.
      split; [apply Z.div_pos; lia|]. apply Z.div_lt_upper_bound; lia.
Qed.

Lemma head_byte major i :
  0 <= major < 8 -> 0 <= i < 32 ->
  Z_of_byte (byte_of_Z (major * 32 + i)) / 32 = major /\
  Z_of_byte (byte_of_Z (major * 32 + i)) mod 32 = i.
Proof.
  intros Hm Hi. rewrite Z_of_byte_of_Z by lia. split.
  - symmetry. apply (Z.div_unique _ _ _ i); lia.
  - symmetry. apply (Z.mod_unique _ _ major); lia.
Qed.

Lemma take_app_length {A} (l r : list A) n : length l = n -> firstn n (l ++ r) = l.
Proof. intros <-. by rewrite firstn_app, Nat.sub_diag, firstn_all, firstn_O, app_nil_r. Qed.

Lemma drop_app_length {A} (l r : list A) n : length l = n -> skipn n (l ++ r) = r.
Proof. intros <-. by rewrite skipn_app, Nat.sub_diag, skipn_all, skipn_O. Qed.

Lemma decode_head_cbor_head major n h rest :
  0 <= major < 7 -> 0 <= n -> cbor_head major n = Some h ->
  (exists b t, h = b :: t /\ Z_of_byte b / 32 = major) /\
  decode_head (h ++ rest) = Ok (major, n, rest).
Proof.
  intros Hm Hn. unfold cbor_head.
  destruct (Z.ltb_spec n 24) as [H0|H0].
  { intros [= <-]. destruct (head_byte major n) as [Hd Hr]; [lia..|].
    split; [eauto|]. cbn [app decode_head]. rewrite Hd, Hr.
    destruct (Z.ltb_spec n 24); [done|lia]. }
  assert (forall (k : nat) i least,
    head_extra i = Some (k, least) -> 24 <= i < 28 -> least <= n < 256 ^ Z.of_nat k ->
    (exists b t, byte_of_Z (major * 32 + i) :: be_bytes k n = b :: t /\
                 Z_of_byte b / 32 = major) /\
    decode_head ((byte_of_Z (major * 32 + i) :: be_bytes k n) ++ rest) = Ok (major, n, rest))
    as Hgen.
  { intros k i least Hx Hi Hk. destruct (head_byte major i) as [Hd Hr]; [lia..|].
    split; [eauto|]. cbn [app decode_head]. rewrite Hd, Hr, Hx.
    destruct (Z.ltb_spec i 24); [lia|].
    rewrite length_app, be_bytes_length.
    destruct (Nat.ltb_spec (k + length rest) k); [lia|].
    rewrite take_app_length, drop_app_length by apply be_bytes_length.
    rewrite Z_of_be_bytes by lia. destruct (Z.ltb_spec n least); [lia|done]. }
  destruct (Z.ltb_spec n (2 ^ 8)) as [H1|H1].
  { intros [= <-]. apply (Hgen 1%nat 24 24); [done|lia|]. simpl. lia. }
  destruct (Z.ltb_spec n (2 ^ 16)) as [H2|H2].
  { intros [= <-]. replace (major * 32 + 25) with (major * 32 + 25) by done.
    apply (Hgen 2%nat 25 (2 ^ 8)); [done|lia|]. simpl. lia. }
  destruct (Z.ltb_spec n (2 ^ 32)) as [H3|H3].
  { intros [= <-]. apply (Hgen 4%nat 26 (2 ^ 16)); [done|lia|]. simpl. lia. }
  destruct (Z.ltb_spec n (2 ^ 64)) as [H4|H4]; [|done].
  intros [= <-]. apply (Hgen 8%nat 27 (2 ^ 32)); [done|lia|]. simpl. lia.
Qed.

Lemma length_list_byte_of_string s : length (list_byte_of_string s) = String.length s.
Proof. induction s as [|a s IH]; [done|]. simpl. by rewrite <- IH. Qed.

Lemma cbor_head_length major n h : cbor_head major n = Some h -> (1 <= length h)%nat.
Proof.
  unfold cbor_head. repeat (destruct (_ <? _); [intros [= <-]; simpl; lia|]). done.
Qed.

Lemma encode_string_length s bs : encode_string s = Some bs -> (1 <= length bs)%nat.
Proof.
  unfold encode_string. destruct (cbor_head 3 _) as [h|] eqn:E; [|done].
  simpl. intros [= <-]. apply cbor_head_length in E. rewrite length_app. lia.
Qed.

Lemma encode_int z :
  encode (VInt z) = if 0 <=? z then cbor_head 0 z else cbor_head 1 (- 1 - z).
Proof. reflexivity. Qed.

Lemma encode_length v bs : encode v = Some bs -> (1 <= length bs)%nat.
Proof.
  destruct v as [| |[]|z|s|l|o]; try (intros [= <-]; simpl; lia); try done.
  - rewrite encode_int. destruct (0 <=? z); apply cbor_head_length.
  - apply encode_string_length.
  - rewrite encode_arr. destruct (cbor_head 4 _) as [h|] eqn:E; [|done]. simpl.
    destruct (encode_items l); [|done]. simpl. intros [= <-].
    apply cbor_head_length in E. rewrite length_app. lia.
  - rewrite encode_obj. destruct (cbor_head 5 _) as [h|] eqn:E; [|done]. simpl.
    destruct (encode_entries o); [|done]. simpl. intros [= <-].
    apply cbor_head_length in E. rewrite length_app. lia.
Qed.

Lemma encode_items_cons x l :
  encode_items (x :: l) = b ← encode x; r ← encode_items l; Some (b ++ r).
Proof. reflexivity. Qed.

Lemma encode_items_length l body :
  encode_items l = Some body -> (length l <= length body)%nat.
Proof.
  revert body. induction l as [|x l IH]; intros body; [simpl; lia|].
  rewrite encode_items_cons. destruct (encode x) as [b|] eqn:Ex; [|done]. simpl.
  destruct (encode_items l) as [r|]; [|done]. simpl. intros [= <-].
  apply encode_length in Ex. specialize (IH _ eq_refl). rewrite length_app. simpl. lia.
Qed.

Lemma encode_entries_length o es :
  encode_entries o = Some es -> (2 * length o <= length (concat (map snd es)))%nat.
Proof.
  revert es. induction o as [|[k x] o IH]; intros es.
  - intros [= <-]. simpl. lia.
  - rewrite encode_entries_cons. unfold encode_entry. simpl.
    destruct (encode_string k) as [kb|] eqn:Ek; [|done]. simpl.
    destruct (encode x) as [b|] eqn:Ex; [|done]. simpl.
    destruct (encode_entries o) as [r|]; [|done]. simpl. intros [= <-].
    apply encode_string_length in Ek. apply encode_length in Ex.
    specialize (IH _ eq_refl). simpl. rewrite !length_app. lia.
Qed.

Section RoundTrip.
Variable text_ok : string -> bool.
Variable key_ok : string -> bool.
Local Abbreviation item := (decode_item_with text_ok key_ok).

Lemma decode_item_head fuel major n h rest :
  0 <= major < 7 -> 0 <= n -> cbor_head major n = Some h ->
  item (S fuel) (h ++ rest) = decode_body text_ok key_ok (item fuel) major n rest.
Proof.
  intros Hm Hn Hh.
  destruct (decode_head_cbor_head major n h rest Hm Hn Hh) as [[b [t [-> Hb]]] Hd].
  cbn [decode_item_with app]. rewrite Hb.
  destruct (Z.eqb_spec major 7); [lia|]. cbn [app] in Hd. by rewrite Hd.
Qed.

Lemma decode_item_string fuel s bs rest :
  encode_string s = Some bs -> (length bs <= fuel)%nat -> text_ok s = true ->
  item fuel (bs ++ rest) = Ok (VStr s, rest).
Proof.
  unfold encode_string. destruct (cbor_head 3 _) as [h|] eqn:Eh; [|done]. simpl.
  intros [= <-] Hf Hs. pose proof (cbor_head_length _ _ _ Eh).
  destruct fuel as [|fuel]; [rewrite length_app in Hf; lia|].
  rewrite <- app_assoc, (decode_item_head _ 3 (Z.of_nat (String.length s)) _ _ ltac:(lia) ltac:(lia) Eh).
  unfold decode_body. simpl (3 =? _).
  cbv beta iota. unfold len. rewrite length_app, length_list_byte_of_string.
  destruct (Z.ltb_spec (Z.of_nat (String.length s + length rest)) (Z.of_nat (String.length s)));
    [lia|].
  rewrite Nat2Z.id.
  rewrite take_app_length, drop_app_length by apply length_list_byte_of_string.
  by rewrite string_of_list_byte_of_string, Hs.
Qed.

Lemma decode_items_encode fuel l :
  Forall (fun x => forall bs rest, encode x = Some bs -> (length bs <= fuel)%nat ->
                                   item fuel (bs ++ rest) = Ok (decoded x, rest)) l ->
  forall body rest, encode_items l = Some body -> (length body <= fuel)%nat ->
    decode_items (item fuel) (length l) (body ++ rest) = Ok (map decoded l, rest).
Proof.
  induction 1 as [|x l Hx _ IH]; intros body rest.
  - by intros [= <-].
  - rewrite encode_items_cons. destruct (encode x) as [b|] eqn:Ex; [|done]. simpl.
    destruct (encode_items l) as [r|]; [|done]. simpl. intros [= <-] Hf.
    rewrite length_app in Hf.
    rewrite <- app_assoc, (Hx _ _ eq_refl) by lia. simpl.
    rewrite (IH _ _ eq_refl) by lia. done.
Qed.

Lemma decode_pairs_encode fuel o :
  Forall (fun kv => text_ok (fst kv) = true /\ key_ok (fst kv) = true /\
            forall bs rest, encode (snd kv) = Some bs -> (length bs <= fuel)%nat ->
                            item fuel (bs ++ rest) = Ok (decoded (snd kv), rest)) o ->
  forall es acc rest,
    encode_entries o = Some es -> (length (concat (map snd es)) <= fuel)%nat ->
    decode_pairs key_ok (item fuel) (length o) (concat (map snd es) ++ rest) acc
    = Ok (put_all (map decoded_entry o) acc, rest).
Proof.
  induction 1 as [|[k x] o [Ht [Hk Hx]] _ IH]; intros es acc rest.
  - by intros [= <-] _.
  - rewrite encode_entries_cons. unfold encode_entry. simpl in *.
    destruct (encode_string k) as [kb|] eqn:Ek; [|done]. simpl.
    destruct (encode x) as [b|] eqn:Ex; [|done]. simpl.
    destruct (encode_entries o) as [r|]; [|done]. simpl. intros [= <-] Hf.
    simpl in Hf. rewrite !length_app in Hf.
    cbn [map concat snd].
    rewrite <- !app_assoc, (decode_item_string _ _ _ _ Ek) by (done || lia). simpl.
    rewrite Hk. simpl.
    rewrite (Hx _ _ eq_refl) by lia. simpl.
    rewrite (IH _ _ _ eq_refl) by lia. done.
Qed.

Lemma decode_item_encode v :
  readable text_ok key_ok v = true ->
  forall bs rest fuel, encode v = Some bs -> (length bs <= fuel)%nat ->
    item fuel (bs ++ rest) = Ok (decoded v, rest).
Proof.
  induction v as [| |b|z|s|l IHl|o IHo] using value_ind_deep; intros Hr bs rest fuel.
  - done.
  - intros [= <-] Hf. destruct fuel; [simpl in Hf; lia|]. reflexivity.
  - destruct b; intros [= <-] Hf; (destruct fuel; [simpl in Hf; lia|]); reflexivity.
  - intros He Hf. pose proof (encode_length (VInt z) _ He) as Hl.
    destruct fuel; [lia|]. rewrite encode_int in He.
    destruct (Z.leb_spec 0 z).
    + rewrite (decode_item_head _ 0 z _ _ ltac:(lia) ltac:(lia) He). done.
    + rewrite (decode_item_head _ 1 (-1 - z) _ _ ltac:(lia) ltac:(lia) He).
      assert (- 1 - (- 1 - z) = z) as Hz by lia.
      unfold decode_body. change (1 =? 0) with false. change (1 =? 1) with true.
      cbv iota. by rewrite Hz.
  - intros He Hf. by apply decode_item_string.
  - rewrite encode_arr. destruct (cbor_head 4 _) as [h|] eqn:Eh; [|done]. simpl.
    destruct (encode_items l) as [body|] eqn:Eb; [|done]. simpl. intros [= <-] Hf.
    pose proof (cbor_head_length _ _ _ Eh). rewrite length_app in Hf.
    destruct fuel as [|fuel]; [lia|].
    rewrite <- app_assoc, (decode_item_head _ 4 (len l) _ _ ltac:(lia) ltac:(unfold len; lia) Eh).
    unfold decode_body. simpl (4 =? _). cbv beta iota.
    pose proof (encode_items_length _ _ Eb) as Hlen.
    unfold len. rewrite length_app.
    match goal with
    | |- context [if ?a <? ?b then _ else _] =>
        destruct (Z.ltb_spec a b); [unfold bytes in *; lia|]
    end.
    rewrite Nat2Z.id. rewrite (decode_items_encode fuel l); [done| |done|lia].
    simpl in Hr.
    rewrite forallb_forall in Hr. rewrite Forall_forall in *.
    intros x Hx bs' rest' Hbs' Hf'. apply IHl; [done| |done..].
    apply Hr. by apply list_elem_of_In.
  - rewrite encode_obj. destruct (cbor_head 5 _) as [h|] eqn:Eh; [|done]. simpl.
    destruct (encode_entries o) as [es|] eqn:Ee; [|done]. simpl. intros [= <-] Hf.
    pose proof (cbor_head_length _ _ _ Eh). rewrite length_app in Hf.
    destruct fuel as [|fuel]; [lia|].
    rewrite <- app_assoc, (decode_item_head _ 5 (len o) _ _ ltac:(lia) ltac:(unfold len; lia) Eh).
    unfold decode_body. simpl (5 =? _). cbv beta iota.
    assert (encode_entries (sort_entries o) = Some (sort_entries es)) as Ee'.
    { by rewrite encode_entries_sort, Ee. }
    pose proof (encode_entries_length _ _ Ee') as Hlen.
    rewrite sort_entries_length in Hlen.
    unfold len. rewrite length_app.
    match goal with
    | |- context [if ?a <? ?b then _ else _] =>
        destruct (Z.ltb_spec a b); [unfold bytes in *; lia|]
    end.
    rewrite Nat2Z.id, <- (sort_entries_length o).
    simpl in Hr.
    rewrite forallb_forall in Hr.
    assert (Forall (fun kv => text_ok (fst kv) = true /\ key_ok (fst kv) = true /\
              forall bs rest, encode (snd kv) = Some bs -> (length bs <= fuel)%nat ->
                              item fuel (bs ++ rest) = Ok (decoded (snd kv), rest))
              (sort_entries o)) as Hall.
    { rewrite Forall_forall in *. intros [k x] Hkx.
      assert ((k, x) ∈ o) as Hin.
      { revert Hkx. unfold sort_entries. by rewrite sort_by_perm. }
      specialize (Hr (k, x) (proj1 (list_elem_of_In _ _) Hin)).
      apply andb_true_iff in Hr as [[Ht Hk]%andb_true_iff Hrx]. simpl in *.
      split; [done|]. split; [done|]. intros bs' rest' Hbs' Hf'.
      apply (IHo (k, x)); done. }
    pose proof (decode_pairs_encode fuel (sort_entries o) Hall _ [] rest Ee') as Hp.
    unfold bytes in *. rewrite Hp by lia.
    change (decoded (VObj o)) with (VObj (put_all (sort_entries (map decoded_entry o)) [])).
    by rewrite (sort_entries_map decoded_entry).
Qed.

Lemma decode_with_encode v bs :
  readable text_ok key_ok v = true -> encode v = Some bs ->
  decode_with text_ok key_ok bs = Ok (decoded v).
Proof.
  intros Hr He. unfold decode_with.
  pose proof (decode_item_encode v Hr bs [] (S (length bs)) He) as H.
  rewrite app_nil_r in H. rewrite H by lia. done.
Qed.
End RoundTrip.

(** ** The decoded object has the properties of the encoded one *)

Lemma prop_get_add_property k x o k' :
  prop_get k o = None ->
  prop_get k' (add_property k x o) = if String.eqb k' k then Some x else prop_get k' o.
Proof.
  induction o as [|[k0 x0] o IH]; simpl; [done|].
  destruct (String.eqb k k0) eqn:E; [done|]. intros Hk. specialize (IH Hk).
  assert (String.eqb k' k = true -> String.eqb k' k0 = false) as Hne.
  { intros ->%String.eqb_eq. done. }
  destruct (array_index k) as [n|], (array_index k0) as [n0|];
    try destruct (n0 <? n); simpl; rewrite ?IH;
    destruct (String.eqb k' k) eqn:E1; try done; by rewrite Hne.
Qed.

Lemma prop_get_put k x o k' :
  prop_get k' (put k x o) = if String.eqb k' k then Some x else prop_get k' o.
Proof.
  unfold put. destruct (prop_get k o) as [y|] eqn:Hk.
  - destruct (String.eqb k' k) eqn:E.
    + apply String.eqb_eq in E. subst. apply prop_get_set_eq.
    + apply String.eqb_neq in E. by apply prop_get_set_ne.
  - by apply prop_get_add_property.
Qed.

Lemma keys_add_property k x o : keys (add_property k x o) ≡ₚ k :: keys o.
Proof.
  induction o as [|[k0 x0] o IH]; simpl; [done|].
  destruct (array_index k) as [n|], (array_index k0) as [n0|];
    try destruct (n0 <? n); simpl; try done;
    unfold keys in *; rewrite IH; apply Permutation_swap.
Qed.

Lemma keys_prop_set_in {A} k (x y : A) o :
  prop_get k o = Some y -> keys (prop_set k x o) = keys o.
Proof.
  induction o as [|[k0 x0] o IH]; simpl; [done|].
  destruct (String.eqb k k0) eqn:E; simpl.
  - apply String.eqb_eq in E. by subst.
  - intros H. unfold keys in *. by rewrite IH.
Qed.

Lemma NoDup_put k x o : NoDup (keys o) -> NoDup (keys (put k x o)).
Proof.
  intros Hnd. unfold put. destruct (prop_get k o) as [y|] eqn:Hk.
  - by rewrite (keys_prop_set_in _ _ _ _ Hk).
  - rewrite keys_add_property. apply NoDup_cons. split; [|done]. by apply prop_get_None.
Qed.

Lemma Forall_put (P : value -> Prop) k x o :
  P x -> Forall (fun kv => P (snd kv)) o -> Forall (fun kv => P (snd kv)) (put k x o).
Proof.
  intros Hx Ho. unfold put. destruct (prop_get k o) as [y|].
  - induction Ho as [|[k0 x0] o H0 Ho IH]; simpl; [by repeat constructor|].
    destruct (String.eqb k k0); by constructor.
  - induction Ho as [|[k0 x0] o H0 Ho IH]; simpl; [by repeat constructor|].
    destruct (array_index k) as [n|], (array_index k0) as [n0|];
      try destruct (n0 <? n); by repeat constructor.
Qed.

Lemma prop_get_put_all l acc k :
  NoDup (keys l) ->
  prop_get k (put_all l acc)
  = match prop_get k l with
    | Some x => Some x
    | None => prop_get k acc
    end.
Proof.
  revert acc. induction l as [|[k1 x1] l IH]; intros acc; [done|].
  simpl. intros [Hk1 Hnd]%NoDup_cons. unfold put_all in *. rewrite (IH _ Hnd).
  rewrite prop_get_put. destruct (String.eqb k k1) eqn:E.
  - apply String.eqb_eq in E. subst k1. apply prop_get_None in Hk1. by rewrite Hk1.
  - done.
Qed.

Lemma NoDup_put_all l acc : NoDup (keys acc) -> NoDup (keys (put_all l acc)).
Proof.
  revert acc. induction l as [|[k x] l IH]; intros acc Hacc; [done|].
  apply IH. by apply NoDup_put.
Qed.

Lemma Forall_put_all (P : value -> Prop) l acc :
  Forall (fun kv => P (snd kv)) l -> Forall (fun kv => P (snd kv)) acc ->
  Forall (fun kv => P (snd kv)) (put_all l acc).
Proof.
  intros Hl. revert acc. induction Hl as [|[k x] l Hx Hl IH]; intros acc Hacc; [done|].
  apply IH. by apply Forall_put.
Qed.

Lemma decoded_obj o :
  decoded (VObj o) = VObj (put_all (sort_entries (map decoded_entry o)) []).
Proof. reflexivity. Qed.

Lemma wf_decoded v : wf v -> wf (decoded v).
Proof.
  induction v as [| | | | |l IHl|o IHo] using value_ind_deep; intros Hwf; try done.
  - inversion Hwf as [| | | | |? Hl|]; subst. simpl. constructor.
    rewrite Forall_forall in *. intros y [x [-> Hx]]%list_elem_of_fmap. auto.
  - inversion Hwf as [| | | | | |? Hnd Ho]; subst. rewrite decoded_obj. constructor.
    + apply NoDup_put_all. constructor.
    + apply (Forall_put_all wf); [|constructor].
      rewrite Forall_forall in *. intros kv Hkv.
      unfold sort_entries in Hkv. rewrite sort_by_perm in Hkv.
      apply list_elem_of_fmap in Hkv as [[k x] [-> Hx]]. simpl.
      apply (IHo (k, x) Hx). by apply (Ho (k, x)).
Qed.

Lemma struct_eq_decoded v : wf v -> struct_eq v (decoded v).
Proof.
  induction v as [| | | | |l IHl|o IHo] using value_ind_deep; intros Hwf;
    try constructor.
  - inversion Hwf as [| | | | |? Hl|]; subst.
    induction l as [|x l IH]; [constructor|].
    apply Forall_cons in IHl as [Hx IHl]. apply Forall_cons in Hl as [Hwx Hl].
    constructor; [auto|]. apply IH; [done|by constructor|done].
  - inversion Hwf as [| | | | | |? Hnd Ho]; subst. intros k.
    rewrite prop_get_put_all.
    + rewrite prop_get_sort. unfold decoded_entry. rewrite prop_get_map.
      destruct (prop_get k o) as [x|] eqn:Hx; simpl; constructor.
      apply prop_get_In in Hx. rewrite Forall_forall in IHo, Ho.
      apply (IHo (k, x) Hx). by apply (Ho (k, x)).
    + rewrite keys_sort_entries. unfold keys. rewrite map_map. simpl. exact Hnd.
Qed.

(** X7: decoding what the codec encoded gives the payload back as a JS
    object holds it: every map has the keys and values it had, listed with
    the array indices first and the other keys in the codec's order; encoding
    that gives the same bytes again.  The payload's strings are well-formed
    text and its keys are not names of members of [Object.prototype]. *)
Theorem decode_encode (v : value) (bs : bytes) :
  ipld v -> encode v = Some bs ->
  decode bs = Ok (decoded v) /\ struct_eq v (decoded v) /\ encode (decoded v) = Some bs.
Proof.
  intros [Hwf Hr] He. split; [by apply decode_with_encode|].
  pose proof (struct_eq_decoded v Hwf) as Hs. split; [done|].
  rewrite <- He. symmetry. apply struct_eq_encode; [done|by apply wf_decoded|done].
Qed.

(** ** Without array indices among the keys, the decoded form is [canon] *)

Lemma add_property_end k x o : array_index k = None -> add_property k x o = o ++ [(k, x)].
Proof.
  intros Hk. induction o as [|[k0 x0] o IH]; simpl; [done|]. rewrite Hk. by rewrite IH.
Qed.

Lemma put_all_end l acc :
  NoDup (keys acc ++ keys l) -> Forall (fun kv => array_index (fst kv) = None) l ->
  put_all l acc = acc ++ l.
Proof.
  intros Hnd Hl. revert acc Hnd. induction Hl as [|[k x] l Hk _ IH]; intros acc Hnd.
  - simpl. by rewrite app_nil_r.
  - simpl in *. unfold put.
    assert (prop_get k acc = None) as ->.
    { apply prop_get_None. apply NoDup_app in Hnd as [_ [Hd _]].
      intros Hin. apply (Hd k Hin). left. }
    rewrite add_property_end by done.
    change (fold_left _ l (acc ++ [(k, x)])) with (put_all l (acc ++ [(k, x)])).
    rewrite IH; [by rewrite <- app_assoc|].
    unfold keys in *. rewrite map_app, <- app_assoc. exact Hnd.
Qed.

Lemma decoded_canon v : wf v -> no_index_key v = true -> decoded v = canon v.
Proof.
  induction v as [| | | | |l IHl|o IHo] using value_ind_deep; intros Hwf Hn; try done.
  - inversion Hwf as [| | | | |? Hl|]; subst. simpl in Hn.
    change (canon (VArr l)) with (VArr (map canon l)). simpl. f_equal.
    apply map_ext_in. intros x Hx. rewrite Forall_forall in IHl, Hl.
    rewrite forallb_forall in Hn. apply list_elem_of_In in Hx.
    apply IHl; [done|by apply Hl|]. apply Hn. by apply list_elem_of_In.
  - inversion Hwf as [| | | | | |? Hnd Ho]; subst. simpl in Hn.
    rewrite forallb_forall in Hn. rewrite Forall_forall in IHo, Ho.
    rewrite decoded_obj, canon_obj.
    assert (map decoded_entry o = map canon_entry o) as ->.
    { apply map_ext_in. intros [k x] Hx. unfold decoded_entry, canon_entry. simpl.
      f_equal. specialize (Hn _ Hx). simpl in Hn.
      destruct (array_index k); [done|]. apply list_elem_of_In in Hx.
      apply (IHo (k, x) Hx); [by apply (Ho (k, x))|done]. }
    f_equal. apply (put_all_end _ []).
    + simpl. rewrite keys_sort_entries. unfold keys. rewrite map_map. exact Hnd.
    + rewrite Forall_forall. intros kv Hkv. unfold sort_entries in Hkv.
      rewrite sort_by_perm in Hkv. apply list_elem_of_fmap in Hkv as [[k x] [-> Hx]].
      simpl. apply list_elem_of_In in Hx. specialize (Hn _ Hx). simpl in Hn.
      by destruct (array_index k).
Qed.

Lemma readable_any v : readable (fun _ => true) (fun _ => true) v = true.
Proof.
  induction v as [| | | | |l IHl|o IHo] using value_ind_deep; try done.
  - simpl. apply forallb_forall. rewrite Forall_forall in IHl.
    intros x Hx. apply IHl. by apply list_elem_of_In.
  - simpl. apply forallb_forall. rewrite Forall_forall in IHo.
    intros x Hx. apply IHo. by apply list_elem_of_In.
Qed.

Lemma struct_eq_sym a : forall b, struct_eq a b -> struct_eq b a.
Proof.
  induction a as [| | | | |l IHl|o IHo] using value_ind_deep;
    intros v2 H; inversion H as [| | | | |? l2 Hl|? o2 Ho]; subst; try constructor.
  - clear H. induction Hl as [|x y l l2 Hxy Hl IH]; [constructor|].
    apply Forall_cons in IHl as [Hx IHl]. constructor; auto.
  - intros k. specialize (Ho k).
    destruct (prop_get k o) as [x|] eqn:Ex; destruct (prop_get k o2) as [y|] eqn:Ey;
      inversion Ho; subst; constructor.
    rewrite Forall_forall in IHo. apply (IHo (k, x)); [by apply prop_get_In|done].
Qed.

Lemma struct_eq_trans a : forall b c, struct_eq a b -> struct_eq b c -> struct_eq a c.
Proof.
  induction a as [| | | | |l IHl|o IHo] using value_ind_deep;
    intros v2 v3 H1 H2; inversion H1 as [| | | | |? l2 Hl|? o2 Ho]; subst;
    inversion H2 as [| | | | |? l3 Hl3|? o3 Ho3]; subst; try constructor.
  - clear H1 H2. revert l3 Hl3. induction Hl as [|x y l l2 Hxy Hl IH]; intros l3 Hl3.
    + inversion Hl3. constructor.
    + inversion Hl3 as [|? z ? l3' Hyz Hl3']; subst.
      apply Forall_cons in IHl as [Hx IHl]. constructor; eauto.
  - intros k. specialize (Ho k). specialize (Ho3 k).
    destruct (prop_get k o) as [x|] eqn:Ex; destruct (prop_get k o2) as [y|] eqn:Ey;
      inversion Ho; subst; destruct (prop_get k o3) as [z|] eqn:Ez;
      inversion Ho3; subst; constructor.
    rewrite Forall_forall in IHo. eapply (IHo (k, x)); [by apply prop_get_In|done..].
Qed.

(** The keys of a decoded map as JS lists them, and a key that occurs
    twice. *)
Example decode_indices_first :
  (encode (VObj [("b", VInt 1); ("10", VInt 2)]) ≫= fun bs => Some (decode bs))
  = Some (Ok (VObj [("10", VInt 2); ("b", VInt 1)])).
Proof. vm_compute. reflexivity. Qed.

Example decode_repeated_key :
  decode (map byte_of_Z [0xa2; 0x61; 0x61; 0x01; 0x61; 0x61; 0x02])
  = Ok (VObj [("a", VInt 2)]).
Proof. vm_compute. reflexivity. Qed.

(** X8: two payloads that the codec encodes to the same bytes have the same
    structure: the bytes determine the payload up to the order of keys. *)
Theorem encode_injective (a b : value) (bs : bytes) :
  wf a -> wf b -> encode a = Some bs -> encode b = Some bs -> struct_eq a b.
Proof.
  intros Ha Hb Ea Eb.
  pose proof (decode_with_encode _ _ a bs (readable_any a) Ea) as Da.
  pose proof (decode_with_encode _ _ b bs (readable_any b) Eb) as Db.
  rewrite Da in Db. injection Db as Hc.
  apply struct_eq_trans with (decoded a); [by apply struct_eq_decoded|].
  rewrite Hc. by apply struct_eq_sym, struct_eq_decoded.
Qed.

(** X23: bytes after the item are an error: [codec.decode] throws on the
    encoding of a payload followed by anything. *)
Theorem decode_rejects_more (v : value) (bs : bytes) (b : byte) (more : bytes) :
  ipld v -> encode v = Some bs ->
  exists msg, decode (bs ++ b :: more) = Throw (CodecError msg).
Proof.
  intros [Hwf Hr] He. unfold decode, decode_with.
  rewrite (decode_item_encode utf8_string own_name v Hr bs (b :: more) _ He).
  - simpl. eauto.
  - rewrite length_app. lia.
Qed.

(** ** The decoder does not run out of fuel *)

Lemma decode_head_shrinks bs major arg rest :
  decode_head bs = Ok (major, arg, rest) -> (length rest < length bs)%nat.
Proof.
  destruct bs as [|b bs]; [done|]. unfold decode_head.
  destruct (Z_of_byte b mod 32 <? 24); [intros [= _ _ <-]; simpl; lia|].
  destruct (head_extra (Z_of_byte b mod 32)) as [[n least]|]; [|done].
  destruct (length bs <? n)%nat eqn:E; [done|].
  destruct (Z_of_be (firstn n bs) <? least); [done|].
  intros [= _ _ <-]. rewrite length_skipn. simpl. lia.
Qed.

Section Fuel.
Variable text_ok key_ok : string -> bool.
Variable item item' : bytes -> result (value * bytes).

Lemma decode_items_shrinks n bs xs rest :
  shrinks item (length bs) -> decode_items item n bs = Ok (xs, rest) ->
  (length rest <= length bs)%nat.
Proof.
  revert bs xs rest. induction n as [|n IH]; intros bs xs rest Hs; simpl.
  - intros [= _ <-]. lia.
  - destruct (item bs) as [[x bs1]| |] eqn:E1; [|done..]. simpl.
    pose proof (Hs bs x bs1 ltac:(lia) E1) as H1.
    destruct (decode_items item n bs1) as [[xs' bs2]| |] eqn:E2; [|done..]. simpl.
    intros [= _ <-].
    assert (shrinks item (length bs1)) as Hs1.
    { intros ? ? ? ?. apply Hs. lia. }
    pose proof (IH _ _ _ Hs1 E2). lia.
Qed.

Lemma decode_pairs_shrinks n bs obj obj' rest :
  shrinks item (length bs) -> decode_pairs key_ok item n bs obj = Ok (obj', rest) ->
  (length rest <= length bs)%nat.
Proof.
  revert bs obj obj' rest. induction n as [|n IH]; intros bs obj obj' rest Hs; simpl.
  - intros [= _ <-]. lia.
  - destruct (item bs) as [[key bs1]| |] eqn:E1; [|done..]. simpl.
    pose proof (Hs bs key bs1 ltac:(lia) E1) as H1.
    destruct key as [| | | |k| |]; try done.
    destruct (negb (key_ok k)); [done|].
    destruct (item bs1) as [[x bs2]| |] eqn:E2; [|done..]. simpl.
    pose proof (Hs bs1 x bs2 ltac:(lia) E2) as H2.
    intros H.
    assert (shrinks item (length bs2)) as Hs2.
    { intros ? ? ? ?. apply Hs. lia. }
    pose proof (IH _ _ _ _ Hs2 H). lia.
Qed.

Lemma decode_body_shrinks major arg bs v rest :
  shrinks item (length bs) ->
  decode_body text_ok key_ok item major arg bs = Ok (v, rest) ->
  (length rest <= length bs)%nat.
Proof.
  intros Hs. unfold decode_body.
  destruct (major =? 0); [intros [= _ <-]; lia|].
  destruct (major =? 1); [intros [= _ <-]; lia|].
  destruct (major =? 3).
  { destruct (len bs <? arg); [done|]. destruct (text_ok _); [|done].
    intros [= _ <-]. rewrite length_skipn. lia. }
  destruct (major =? 4).
  { destruct (len bs <? arg); [done|].
    destruct (decode_items item (Z.to_nat arg) bs) as [[xs r]| |] eqn:E; [|done..].
    simpl. intros [= _ <-]. eapply decode_items_shrinks; eauto. }
  destruct (major =? 5); [|done].
  destruct (len bs <? 2 * arg); [done|].
  destruct (decode_pairs key_ok item (Z.to_nat arg) bs []) as [[o r]| |] eqn:E; [|done..].
  simpl. intros [= _ <-]. eapply decode_pairs_shrinks; eauto.
Qed.

Lemma decode_items_ext n bs :
  shrinks item (length bs) ->
  (forall bs', (length bs' <= length bs)%nat -> item bs' = item' bs') ->
  decode_items item n bs = decode_items item' n bs.
Proof.
  revert bs. induction n as [|n IH]; intros bs Hs Heq; simpl; [done|].
  rewrite <- (Heq bs) by lia.
  destruct (item bs) as [[x bs1]| |] eqn:E1; [|done..]. simpl.
  pose proof (Hs bs x bs1 ltac:(lia) E1) as H1.
  rewrite IH; [done| |].
  - intros ? ? ? ?. apply Hs. lia.
  - intros bs' Hl. apply Heq. lia.
Qed.

Lemma decode_pairs_ext n bs obj :
  shrinks item (length bs) ->
  (forall bs', (length bs' <= length bs)%nat -> item bs' = item' bs') ->
  decode_pairs key_ok item n bs obj = decode_pairs key_ok item' n bs obj.
Proof.
  revert bs obj. induction n as [|n IH]; intros bs obj Hs Heq; simpl; [done|].
  rewrite <- (Heq bs) by lia.
  destruct (item bs) as [[key bs1]| |] eqn:E1; [|done..]. simpl.
  pose proof (Hs bs key bs1 ltac:(lia) E1) as H1.
  destruct key as [| | | |k| |]; try done.
  destruct (negb (key_ok k)); [done|].
  rewrite <- (Heq bs1) by lia.
  destruct (item bs1) as [[x bs2]| |] eqn:E2; [|done..]. simpl.
  pose proof (Hs bs1 x bs2 ltac:(lia) E2) as H2.
  apply IH.
  - intros ? ? ? ?. apply Hs. lia.
  - intros bs' Hl. apply Heq. lia.
Qed.

Lemma decode_body_ext major arg bs :
  shrinks item (length bs) ->
  (forall bs', (length bs' <= length bs)%nat -> item bs' = item' bs') ->
  decode_body text_ok key_ok item major arg bs
  = decode_body text_ok key_ok item' major arg bs.
Proof.
  intros Hs Heq. unfold decode_body.
  rewrite (decode_items_ext _ _ Hs Heq), (decode_pairs_ext _ _ _ Hs Heq). done.
Qed.
End Fuel.

Lemma decode_item_with_shrinks text_ok key_ok fuel n :
  shrinks (decode_item_with text_ok key_ok fuel) n.
Proof.
  revert n. induction fuel as [|fuel IH]; intros n bs v rest _; simpl; [done|].
  destruct bs as [|b bs]; [done|].
  destruct (Z_of_byte b / 32 =? 7).
  { destruct (Z_of_byte b =? 0xf4); [intros [= _ <-]; simpl; lia|].
    destruct (Z_of_byte b =? 0xf5); [intros [= _ <-]; simpl; lia|].
    destruct (Z_of_byte b =? 0xf6); [intros [= _ <-]; simpl; lia|]. done. }
  destruct (decode_head (b :: bs)) as [[[major arg] r]| |] eqn:E; [|done..].
  apply decode_head_shrinks in E. cbn [rbind]. intros H.
  apply decode_body_shrinks in H; [|apply IH].
  unfold bytes in *. cbn [length] in *. lia.
Qed.

(** Any fuel above the number of bytes gives the same result: an item inside
    another starts after the head of that one. *)
Lemma decode_item_with_fuel text_ok key_ok fuel fuel' bs :
  (length bs < fuel)%nat -> (length bs < fuel')%nat ->
  decode_item_with text_ok key_ok fuel bs = decode_item_with text_ok key_ok fuel' bs.
Proof.
  revert fuel' bs. induction fuel as [|fuel IH]; intros fuel' bs Hf Hf'; [lia|].
  destruct fuel' as [|fuel']; [lia|]. simpl.
  destruct bs as [|b bs]; [done|].
  destruct (Z_of_byte b / 32 =? 7); [done|].
  destruct (decode_head (b :: bs)) as [[[major arg] r]| |] eqn:E; [|done..].
  apply decode_head_shrinks in E. simpl.
  apply decode_body_ext.
  - apply decode_item_with_shrinks.
  - intros bs' Hl. apply IH; simpl in *; lia.
Qed.

(** ** The state helpers *)

Lemma digit_range a d : digit a = Some d -> 0 <= d <= 9.
Proof.
  unfold digit. destruct (Z.leb_spec 48 (Z.of_N (N_of_ascii a)));
    destruct (Z.leb_spec (Z.of_N (N_of_ascii a)) 57); simpl; intros [= <-]; lia.
Qed.

Lemma digit_inj a a' d : digit a = Some d -> digit a' = Some d -> a = a'.
Proof.
  unfold digit.
  destruct ((48 <=? Z.of_N (N_of_ascii a)) && (Z.of_N (N_of_ascii a) <=? 57)); [|done].
  destruct ((48 <=? Z.of_N (N_of_ascii a')) && (Z.of_N (N_of_ascii a') <=? 57)); [|done].
  intros [= <-] [= H].
  assert (N_of_ascii a = N_of_ascii a') as E by lia.
  rewrite <- (ascii_N_embedding a), <- (ascii_N_embedding a'). by rewrite E.
Qed.

Lemma digits_bound s acc n :
  0 <= acc -> digits s acc = Some n ->
  acc * 10 ^ Z.of_nat (String.length s) <= n < (acc + 1) * 10 ^ Z.of_nat (String.length s).
Proof.
  revert acc. induction s as [|a s IH]; intros acc Hacc; simpl.
  - intros [= <-]. lia.
  - destruct (digit a) as [d|] eqn:Hd; [|done]. intros H.
    apply digit_range in Hd. apply IH in H; [|lia].
    rewrite Nat2Z.inj_succ, Z.pow_succ_r by lia.
    assert (0 < 10 ^ Z.of_nat (String.length s)) by (apply Z.pow_pos_nonneg; lia).
    nia.
Qed.

Lemma digits_inj s s' acc acc' n :
  String.length s = String.length s' -> 0 <= acc -> 0 <= acc' ->
  digits s acc = Some n -> digits s' acc' = Some n -> acc = acc' /\ s = s'.
Proof.
  revert s' acc acc'. induction s as [|a s IH]; intros [|a' s'] acc acc'; simpl; try done.
  - intros _ _ _ [= <-] [= <-]. done.
  - intros [= Hl] Hacc Hacc'.
    destruct (digit a) as [d|] eqn:Hd; [|done].
    destruct (digit a') as [d'|] eqn:Hd'; [|done].
    intros H H'. pose proof (digit_range _ _ Hd). pose proof (digit_range _ _ Hd').
    destruct (IH s' (acc * 10 + d) (acc' * 10 + d') Hl ltac:(lia) ltac:(lia) H H') as [E ->].
    assert (acc = acc' /\ d = d') as [-> ->] by lia.
    split; [done|]. f_equal. eapply digit_inj; eauto.
Qed.

Lemma uint_of_digits s n :
  uint_of s = Some n ->
  digits s 0 = Some n /\
  (s = "0" /\ n = 0 \/ 10 ^ (Z.of_nat (String.length s) - 1) <= n).
Proof.
  destruct s as [|a s]; [done|]. intros H.
  assert (digit a = Some 0 -> a = "0"%char) as Hzero.
  { intros Hd. apply (digit_inj _ _ 0 Hd). reflexivity. }
  assert (a = "0"%char /\ s = "" /\ n = 0 \/ a <> "0"%char /\ digits (String a s) 0 = Some n)
    as [[-> [-> ->]]|[Ha Hn]].
  { destruct (ascii_dec a "0") as [->|Ha].
    - left. destruct s; [by injection H as <-|done].
    - right. split; [done|]. revert H. unfold uint_of.
      destruct a as [[] [] [] [] [] [] [] []]; try done. }
  - split; [reflexivity|]. by left.
  - split; [done|]. right. simpl in Hn.
    destruct (digit a) as [d|] eqn:Hd; [|done].
    pose proof (digit_range _ _ Hd).
    assert (d <> 0) by (intros ->; auto).
    apply digits_bound in Hn; [|lia].
    cbn [String.length]. rewrite Nat2Z.inj_succ.
    replace (Z.succ (Z.of_nat (String.length s)) - 1) with (Z.of_nat (String.length s)) by lia.
    assert (0 < 10 ^ Z.of_nat (String.length s)) by (apply Z.pow_pos_nonneg; lia).
    nia.
Qed.

Lemma uint_of_nonneg s n : uint_of s = Some n -> 0 <= n.
Proof.
  intros [Hd _]%uint_of_digits. apply digits_bound in Hd; [|lia].
  assert (0 < 10 ^ Z.of_nat (String.length s)) by (apply Z.pow_pos_nonneg; lia). lia.
Qed.

Lemma uint_of_inj s s' n : uint_of s = Some n -> uint_of s' = Some n -> s = s'.
Proof.
  intros H H'.
  assert (s <> "" /\ s' <> "") as [Hne Hne'] by (by destruct s, s').
  apply uint_of_digits in H as [Hd Hs]. apply uint_of_digits in H' as [Hd' Hs'].
  pose proof (digits_bound s 0 n ltac:(lia) Hd) as Hb.
  pose proof (digits_bound s' 0 n ltac:(lia) Hd') as Hb'.
  assert (forall m : nat, 0 < 10 ^ Z.of_nat m) as Hpos
    by (intros; apply Z.pow_pos_nonneg; lia).
  destruct Hs as [[-> ->]|Hs], Hs' as [[-> Hn]|Hs']; try done.
  - pose proof (Z.pow_nonneg 10 (Z.of_nat (String.length s') - 1)).
    destruct s' as [|a' s']; [done|]. cbn [String.length] in Hs'. rewrite Nat2Z.inj_succ in Hs'.
    replace (Z.succ (Z.of_nat (String.length s')) - 1) with (Z.of_nat (String.length s'))
      in Hs' by lia. specialize (Hpos (String.length s')). lia.
  - subst n. destruct s as [|a s]; [done|]. cbn [String.length] in Hs. rewrite Nat2Z.inj_succ in Hs.
    replace (Z.succ (Z.of_nat (String.length s)) - 1) with (Z.of_nat (String.length s))
      in Hs by lia. specialize (Hpos (String.length s)). lia.
  - assert (String.length s = String.length s') as Hl.
    { destruct (Nat.lt_trichotomy (String.length s) (String.length s')) as [L|[E|L]];
        [|done|].
      - assert (10 ^ Z.of_nat (String.length s) <= 10 ^ (Z.of_nat (String.length s') - 1))
          by (apply Z.pow_le_mono_r; lia). lia.
      - assert (10 ^ Z.of_nat (String.length s') <= 10 ^ (Z.of_nat (String.length s) - 1))
          by (apply Z.pow_le_mono_r; lia). lia. }
    by destruct (digits_inj s s' 0 0 n Hl ltac:(lia) ltac:(lia) Hd Hd').
Qed.

Lemma get_set_own k x v r : set_own k x v = Ok r -> get_own k r = Some x.
Proof.
  destruct v as [| | | | |l|o]; simpl; try done.
  - destruct (uint_of k) as [i|] eqn:Hi; [|done].
    pose proof (uint_of_nonneg _ _ Hi). unfold len.
    destruct (Z.ltb_spec i (Z.of_nat (length l))).
    + intros [= <-]. simpl. rewrite Hi. apply list_lookup_insert_eq. lia.
    + destruct (Z.eqb_spec i (Z.of_nat (length l))); [|done].
      intros [= <-]. simpl. rewrite Hi. subst i. rewrite Nat2Z.id.
      rewrite lookup_app_r by lia. by rewrite Nat.sub_diag.
  - intros [= <-]. simpl. apply prop_get_set_eq.
Qed.

Lemma get_set_own_other k k' x v r :
  set_own k x v = Ok r -> k' <> k -> get_own k' r = get_own k' v.
Proof.
  destruct v as [| | | | |l|o]; simpl; try done.
  - destruct (uint_of k) as [i|] eqn:Hi; [|done].
    pose proof (uint_of_nonneg _ _ Hi). unfold len.
    intros Hr Hk.
    assert (forall j, uint_of k' = Some j -> 0 <= j /\ j <> i) as Hne.
    { intros j Hj. split; [by eapply uint_of_nonneg|]. intros ->. apply Hk.
      eapply uint_of_inj; eauto. }
    destruct (Z.ltb_spec i (Z.of_nat (length l))).
    + injection Hr as <-. simpl. destruct (uint_of k') as [j|]; [|done].
      destruct (Hne j eq_refl). apply list_lookup_insert_ne. lia.
    + destruct (Z.eqb_spec i (Z.of_nat (length l))); [|done].
      injection Hr as <-. simpl. destruct (uint_of k') as [j|]; [|done].
      destruct (Hne j eq_refl).
      destruct (Z.ltb_spec j (Z.of_nat (length l))).
      * apply lookup_app_l. lia.
      * rewrite !lookup_ge_None_2; [done|lia|rewrite length_app; simpl; lia].
  - intros [= <-] Hk. simpl. apply prop_get_set_ne. done.
Qed.

Lemma baseSet_get c nested path v r :
  path <> [] -> baseSet c nested path v = Ok r -> at_path path r = Some v.
Proof.
  revert nested r. induction path as [|k path IH]; intros nested r Hne; [done|].
  cbn [baseSet]. destruct (settable k); [|done].
  destruct path as [|next path'].
  - intros H. simpl. by rewrite (get_set_own _ _ _ _ H).
  - intros H. apply rbind_Ok in H as [newValue [_ H]].
    apply rbind_Ok in H as [inner [Hin H]].
    cbn [at_path]. rewrite (get_set_own _ _ _ _ H).
    exact (IH _ _ ltac:(done) Hin).
Qed.

Lemma at_path_scalar p v : p <> [] -> isObject v = false -> at_path p v = None.
Proof. destruct p; [done|]. by destruct v. Qed.

Lemma at_path_empty p : p <> [] -> at_path p (VObj []) = None /\ at_path p (VArr []) = None.
Proof.
  destruct p as [|k p]; [done|]. intros _. simpl. split; [done|].
  by destruct (uint_of k).
Qed.

Lemma diverges_nonempty p path : diverges p path -> p <> [] /\ path <> [].
Proof. by destruct p, path. Qed.

Lemma baseSet_frame c nested path v r p :
  baseSet c nested path v = Ok r -> diverges p path -> at_path p r = at_path p nested.
Proof.
  revert nested r p. induction path as [|k path IH]; intros nested r p.
  { by destruct p. }
  destruct p as [|k' p]; [done|].
  cbn [baseSet]. destruct (settable k); [|done].
  intros H [Hk|[-> Hd]].
  - assert (get_own k' r = get_own k' nested) as E.
    { destruct path as [|next path'].
      - eapply get_set_own_other; eauto.
      - apply rbind_Ok in H as [newValue [_ H]]. apply rbind_Ok in H as [inner [_ H]].
        eapply get_set_own_other; eauto. }
    cbn [at_path]. by rewrite E.
  - destruct (diverges_nonempty _ _ Hd) as [Hp Hpath].
    destruct path as [|next path']; [done|].
    apply rbind_Ok in H as [newValue [Hnew H]]. apply rbind_Ok in H as [inner [Hin H]].
    cbn [at_path]. rewrite (get_set_own _ _ _ _ H), (IH _ _ _ Hin Hd).
    destruct (at_path_empty p Hp) as [He1 He2].
    unfold nested_value in Hnew.
    destruct c, (get_own k nested) as [[| | | | |l|o]|];
      simplify_eq/=; try done;
      try (destruct (isIndex next)); rewrite ?He1, ?He2; by destruct p.
Qed.

Lemma forallb_prop_set (P : value -> bool) k x o :
  forallb (fun kv => P (snd kv)) o = true -> P x = true ->
  forallb (fun kv : string * value => P (snd kv)) (prop_set k x o) = true.
Proof.
  intros Ho Hx. induction o as [|[k' x'] o IH]; simpl.
  - by rewrite Hx.
  - simpl in Ho. apply andb_true_iff in Ho as [H1 H2].
    destruct (String.eqb k k'); simpl; [by rewrite Hx, H2|by rewrite H1, IH].
Qed.

Lemma forallb_prop_get (P : value -> bool) k x (o : props) :
  forallb (fun kv => P (snd kv)) o = true -> prop_get k o = Some x -> P x = true.
Proof.
  induction o as [|[k' x'] o IH]; simpl; [done|].
  intros [H1 H2]%andb_true_iff. destruct (String.eqb k k'); [by intros [= <-]|auto].
Qed.

Lemma baseSet_array_free nested path v r :
  baseSet true nested path v = Ok r ->
  array_free nested = true -> array_free v = true -> array_free r = true.
Proof.
  revert nested r. induction path as [|k path IH]; intros nested r.
  { by intros [= <-]. }
  cbn [baseSet]. destruct (settable k); [|done].
  destruct path as [|next path'].
  - destruct nested as [| | | | |l|o]; try done.
    intros [= <-] Ho Hv. by apply forallb_prop_set.
  - intros H Ho Hv. apply rbind_Ok in H as [newValue [Hnew H]].
    apply rbind_Ok in H as [inner [Hin H]].
    destruct nested as [| | | | |l|o]; try done. simpl in H. injection H as <-.
    apply forallb_prop_set; [done|]. apply (IH _ _ Hin); [|done].
    simpl in Hnew. destruct (prop_get k o) as [x|] eqn:Hx.
    + pose proof (forallb_prop_get array_free _ _ _ Ho Hx).
      destruct x; by simplify_eq/=.
    + by injection Hnew as <-.
Qed.

Lemma baseSet_fresh path v u :
  path <> [] -> baseSet true (VObj []) path v = Ok u ->
  u = one_path path v /\ Forall (fun k => own_name k = true) path.
Proof.
  revert u. induction path as [|k path IH]; intros u Hne; [done|].
  cbn [baseSet]. destruct (settable k) eqn:Hk; [|done].
  apply andb_true_iff in Hk as [Hk _].
  destruct path as [|next path'].
  - intros [= <-]. split; [done|]. by repeat constructor.
  - intros H. simpl in H. apply rbind_Ok in H as [inner [Hin [= <-]]].
    destruct (IH _ ltac:(done) Hin) as [-> Hall]. split; [done|]. by constructor.
Qed.

Lemma at_path_dest p objValue :
  p <> [] ->
  match objValue with Some (VArr _) => False | _ => True end ->
  at_path p (VObj (dest_props objValue)) = from_option (at_path p) None objValue.
Proof.
  intros Hp. destruct objValue as [[]|]; simpl; try done;
    intros _; destruct p; done.
Qed.

Lemma merge_singleton path v objValue r :
  path <> [] -> baseMergeDeep objValue (one_path path v) = Ok r ->
  (exists x, at_path path r = Some x /\
             baseMergeDeep (from_option (at_path path) None objValue) v = Ok x) /\
  forall p, diverges p path -> at_path p r = from_option (at_path p) None objValue.
Proof.
  revert objValue r. induction path as [|k path IH]; intros objValue r Hne; [done|].
  cbn [one_path]. rewrite baseMergeDeep_obj.
  assert (match objValue with Some (VArr _) => False | _ => True end \/
          exists l, objValue = Some (VArr l)) as [Hobj|[l ->]];
    [destruct objValue as [[]|]; eauto| |done].
  assert (rmap VObj (mergeProps (dest_props objValue) [(k, one_path path v)]) = Ok r ->
          exists x, baseMergeDeep (prop_get k (dest_props objValue)) (one_path path v) = Ok x /\
                    r = VObj (prop_set k x (dest_props objValue))) as Hstep.
  { simpl. destruct (own_name k); [|done].
    destruct (baseMergeDeep _ _) as [x| |]; simpl; try done. intros [= <-]. eauto. }
  intros H. assert (rmap VObj (mergeProps (dest_props objValue) [(k, one_path path v)]) = Ok r)
    as H' by (by destruct objValue as [[]|]).
  clear H. destruct (Hstep H') as [x [Hx ->]]. clear Hstep H'.
  assert (forall q, at_path (k :: q) (VObj (dest_props objValue))
                    = from_option (at_path (k :: q)) None objValue) as Hdest.
  { intros q. by apply at_path_dest. }
  split.
  - rewrite <- Hdest. cbn [at_path get_own]. rewrite prop_get_set_eq.
    destruct path as [|k2 path'].
    + exists x. split; [done|]. simpl in Hx.
      by destruct (prop_get k (dest_props objValue)).
    + destruct (IH _ _ ltac:(done) Hx) as [[y [Hy Hm]] _]. exists y. split; [done|].
      destruct (prop_get k (dest_props objValue)); exact Hm.
  - intros [|k' p]; [done|]. intros [Hk|[-> Hd]].
    + rewrite <- (at_path_dest (k' :: p)) by done.
      cbn [at_path get_own]. by rewrite prop_get_set_ne.
    + destruct (diverges_nonempty _ _ Hd) as [Hp Hpath].
      destruct (IH _ _ Hpath Hx) as [_ Hfr].
      rewrite <- Hdest. cbn [at_path get_own]. rewrite prop_get_set_eq, (Hfr _ Hd).
      by destruct (prop_get k (dest_props objValue)).
Qed.

Lemma cloneDeep_Ok v x : cloneDeep v = Ok x -> x = v.
Proof. unfold cloneDeep. destruct (plainb v); [by intros [= <-]|done]. Qed.

Lemma updateStateForElementaryType_eq o stateVariable v r :
  updateStateForElementaryType (VObj o) stateVariable v = Ok r ->
  baseSet false (VObj o) ["state"; stateVariable] v = Ok r.
Proof.
  unfold updateStateForElementaryType. intros H.
  apply rbind_Ok in H as [object [Hc H]]. by apply cloneDeep_Ok in Hc as ->.
Qed.

Lemma updateStateForMappingType_eq o stateVariable keys v r keys' :
  updateStateForMappingType (VObj o) stateVariable keys v = (Ok r, keys') ->
  keys' = "state" :: stateVariable :: keys /\ baseSet true (VObj o) keys' v = Ok r.
Proof.
  unfold updateStateForMappingType. intros [H <-]%pair_equal_spec. split; [done|].
  apply rbind_Ok in H as [object [Hc H]]. by apply cloneDeep_Ok in Hc as ->.
Qed.

(** X18: both state helpers put the value at the end of their path: reading
    [state], the variable and then the keys from what they return gives the
    value.  [updateStateForMappingType] leaves [state] and the variable at the
    front of the caller's [keys]. *)
Theorem update_then_read (o : props) (stateVariable : string) (keys : list string)
    (v : value) :
  (forall r, updateStateForElementaryType (VObj o) stateVariable v = Ok r ->
             at_path ["state"; stateVariable] r = Some v) /\
  (forall r keys', updateStateForMappingType (VObj o) stateVariable keys v = (Ok r, keys') ->
             keys' = "state" :: stateVariable :: keys /\ at_path keys' r = Some v).
Proof.
  split.
  - intros r H%updateStateForElementaryType_eq. by apply baseSet_get in H.
  - intros r keys' [-> H]%updateStateForMappingType_eq. split; [done|].
    by apply baseSet_get in H.
Qed.

(** X19: the state helpers change nothing off their path: a path that
    leaves theirs at some key leads, in what they return, to what it led to in
    the initial object. *)
Theorem update_keeps_the_rest (o : props) (stateVariable : string) (keys p : list string)
    (v : value) :
  (forall r, updateStateForElementaryType (VObj o) stateVariable v = Ok r ->
             diverges p ["state"; stateVariable] ->
             at_path p r = at_path p (VObj o)) /\
  (forall r keys', updateStateForMappingType (VObj o) stateVariable keys v = (Ok r, keys') ->
             diverges p keys' ->
             at_path p r = at_path p (VObj o)).
Proof.
  split.
  - intros r H%updateStateForElementaryType_eq Hd. eapply baseSet_frame; eauto.
  - intros r keys' [-> H]%updateStateForMappingType_eq Hd. eapply baseSet_frame; eauto.
Qed.

(** X20: [updateStateForMappingType] makes no array: when neither the
    initial object nor the value holds one, what it returns holds none,
    whatever the keys. *)
Theorem mapping_update_makes_no_array (o : props) (stateVariable : string)
    (keys keys' : list string) (v r : value) :
  array_free (VObj o) = true -> array_free v = true ->
  updateStateForMappingType (VObj o) stateVariable keys v = (Ok r, keys') ->
  array_free r = true.
Proof.
  intros Ho Hv [-> H]%updateStateForMappingType_eq.
  eapply baseSet_array_free; eauto.
Qed.

(** X21: merging an update built by [updateStateForMappingType] from [{}]
    into a payload, as staging does, changes the payload along the path of the
    update only: the end of the path holds the merge of the value into what
    was there, the value itself when it is a scalar, and a path that leaves
    it at some key leads to what it led to before. *)
Theorem staged_mapping_update (a : props) (stateVariable : string) (keys path : list string)
    (v u r : value) :
  updateStateForMappingType (VObj []) stateVariable keys v = (Ok u, path) ->
  merge (VObj a) u = Ok r ->
  (exists x, at_path path r = Some x /\
             baseMergeDeep (at_path path (VObj a)) v = Ok x /\
             (is_scalar v -> x = v)) /\
  (forall p, diverges p path -> at_path p r = at_path p (VObj a)).
Proof.
  intros [-> Hu]%updateStateForMappingType_eq Hm.
  apply baseSet_fresh in Hu as [-> _]; [|done].
  assert (baseMergeDeep (Some (VObj a))
            (one_path ("state" :: stateVariable :: keys) v) = Ok r) as H.
  { cbn [one_path]. rewrite baseMergeDeep_obj. exact Hm. }
  destruct (merge_singleton ("state" :: stateVariable :: keys) v (Some (VObj a)) r
              ltac:(done) H) as [[x [Hx Hb]] Hfr].
  split; [|exact Hfr]. exists x. split; [done|]. split; [exact Hb|].
  intros Hs. simpl in Hb.
  destruct v; try done; by injection Hb.
Qed.

(** ** The same update again *)

Lemma set_own_again k x v r : set_own k x v = Ok r -> set_own k x r = Ok r.
Proof.
  intros H. pose proof (get_set_own _ _ _ _ H) as Hget.
  destruct v as [| | | | |l|o]; simpl in H; try done.
  - destruct (uint_of k) as [i|] eqn:Hi; [|done].
    pose proof (uint_of_nonneg _ _ Hi) as Hnn.
    assert (exists l', r = VArr l') as [l' ->].
    { destruct (i <? len l); [injection H as <-; eauto|].
      destruct (i =? len l); [injection H as <-; eauto|done]. }
    simpl in Hget. rewrite Hi in Hget. simpl. rewrite Hi.
    pose proof (lookup_lt_Some _ _ _ Hget) as Hlt. unfold len.
    destruct (Z.ltb_spec i (Z.of_nat (length l'))); [|lia].
    by rewrite list_insert_id.
  - injection H as <-. simpl. f_equal. f_equal.
    apply prop_set_same, prop_get_set_eq.
Qed.

Lemma set_own_container k x v r : set_own k x v = Ok r -> isObject r = true.
Proof.
  destruct v as [| | | | |l|o]; simpl; try done.
  - destruct (uint_of k); [|done]. destruct (_ <? _); [by intros [= <-]|].
    destruct (_ =? _); [by intros [= <-]|done].
  - by intros [= <-].
Qed.

Lemma baseSet_container c nested path v r :
  path <> [] -> baseSet c nested path v = Ok r -> isObject r = true.
Proof.
  destruct path as [|k path]; [done|]. intros _. cbn [baseSet].
  destruct (settable k); [|done]. destruct path as [|next path].
  - apply set_own_container.
  - intros H. apply rbind_Ok in H as [newValue [_ H]].
    apply rbind_Ok in H as [inner [_ H]]. by apply set_own_container in H.
Qed.

Lemma nested_value_container c x next :
  isObject x = true -> nested_value c (Some x) next = Ok x.
Proof. by destruct c, x. Qed.

Lemma baseSet_again c nested path v r :
  baseSet c nested path v = Ok r -> baseSet c r path v = Ok r.
Proof.
  revert nested r. induction path as [|k path IH]; intros nested r; [done|].
  cbn [baseSet]. destruct (settable k); [|done].
  destruct path as [|next path'].
  - apply set_own_again.
  - intros H. apply rbind_Ok in H as [newValue [_ H]].
    apply rbind_Ok in H as [inner [Hin H]].
    rewrite (get_set_own _ _ _ _ H).
    assert (isObject inner = true) as Hc
      by (apply (baseSet_container c newValue (next :: path') v); done).
    rewrite (nested_value_container _ _ _ Hc). cbn [rbind].
    rewrite (IH _ _ Hin). cbn [rbind]. exact (set_own_again _ _ _ _ H).
Qed.

Lemma plainb_prop_set k x o :
  own_name k = true -> plainb x = true -> plainb (VObj o) = true ->
  plainb (VObj (prop_set k x o)) = true.
Proof.
  intros Hk Hx. simpl. induction o as [|[k' x'] o IH]; simpl.
  - intros _. by rewrite Hk, Hx.
  - intros [[H1 H2]%andb_true_iff H3]%andb_true_iff.
    destruct (String.eqb k k'); simpl.
    + by rewrite Hk, Hx, H3.
    + by rewrite H1, H2, IH.
Qed.

Lemma plainb_prop_get k x o :
  plainb (VObj o) = true -> prop_get k o = Some x -> plainb x = true.
Proof.
  simpl. induction o as [|[k' x'] o IH]; simpl; [done|].
  intros [[H1 H2]%andb_true_iff H3]%andb_true_iff.
  destruct (String.eqb k k'); [by intros [= <-]|auto].
Qed.

Lemma forallb_insert {A} (f : A -> bool) l (i : nat) x :
  forallb f l = true -> f x = true -> forallb f (<[i:=x]> l) = true.
Proof.
  intros Hl Hx. revert i. induction l as [|y l IH]; intros i; [done|].
  simpl in Hl. apply andb_true_iff in Hl as [Hy Hl].
  destruct i; simpl; [by rewrite Hx, Hl|by rewrite Hy, IH].
Qed.

Lemma plainb_set_own k x v r :
  own_name k = true -> plainb x = true -> plainb v = true ->
  set_own k x v = Ok r -> plainb r = true.
Proof.
  intros Hk Hx Hv. destruct v as [| | | | |l|o]; simpl; try done.
  - destruct (uint_of k) as [i|]; [|done]. simpl in Hv.
    destruct (_ <? _).
    + intros [= <-]. simpl. by apply forallb_insert.
    + destruct (_ =? _); [|done]. intros [= <-]. simpl.
      rewrite forallb_app, Hv. simpl. by rewrite Hx.
  - intros [= <-]. by apply plainb_prop_set.
Qed.

Lemma plainb_get_own k x v : plainb v = true -> get_own k v = Some x -> plainb x = true.
Proof.
  destruct v as [| | | | |l|o]; simpl; try done.
  - destruct (uint_of k) as [i|]; [|done]. intros Hv Hx.
    apply (proj1 (forallb_forall _ _) Hv). apply list_elem_of_In.
    eapply list_elem_of_lookup_2; eauto.
  - apply plainb_prop_get.
Qed.

Lemma baseSet_plain c nested path v r :
  plainb nested = true -> plainb v = true ->
  baseSet c nested path v = Ok r -> plainb r = true.
Proof.
  intros Hn Hv. revert nested r Hn. induction path as [|k path IH]; intros nested r Hn.
  { by intros [= <-]. }
  cbn [baseSet]. destruct (settable k) eqn:Hk; [|done].
  apply andb_true_iff in Hk as [Hk _].
  destruct path as [|next path'].
  - by apply plainb_set_own.
  - intros H. apply rbind_Ok in H as [newValue [Hnew H]].
    apply rbind_Ok in H as [inner [Hin H]].
    eapply plainb_set_own; [done| |done|exact H].
    refine (IH _ _ _ Hin). unfold nested_value in Hnew.
    destruct (get_own k nested) as [x|] eqn:Hg.
    + pose proof (plainb_get_own _ _ _ Hn Hg) as Hx.
      destruct c, x; simplify_eq/=; try done; by destruct (isIndex next).
    + destruct c; simplify_eq/=; [done|]. by destruct (isIndex next).
Qed.

Lemma cloneDeep_plain v x : cloneDeep v = Ok x -> plainb v = true.
Proof. unfold cloneDeep. by destruct (plainb v). Qed.

Lemma cloneDeep_of_plain v : plainb v = true -> cloneDeep v = Ok v.
Proof. unfold cloneDeep. by intros ->. Qed.

(** X22: the same update again changes nothing: given what a state helper
    returned, for a value that has no key of an inherited name, the helper
    returns it as it is. *)
Theorem update_again (o : props) (stateVariable : string) (keys : list string)
    (v : value) :
  plain v ->
  (forall r, updateStateForElementaryType (VObj o) stateVariable v = Ok r ->
             updateStateForElementaryType r stateVariable v = Ok r) /\
  (forall r keys', updateStateForMappingType (VObj o) stateVariable keys v = (Ok r, keys') ->
             updateStateForMappingType r stateVariable keys v = (Ok r, keys')).
Proof.
  intros Hv. split.
  - intros r H. unfold updateStateForElementaryType in *.
    apply rbind_Ok in H as [object [Hc H]].
    pose proof (cloneDeep_plain _ _ Hc) as Ho. apply cloneDeep_Ok in Hc as ->.
    change (baseSet false (VObj o) ["state"; stateVariable] v = Ok r) in H.
    rewrite (cloneDeep_of_plain r) by exact (baseSet_plain _ _ _ _ _ Ho Hv H). cbn [rbind].
    unfold set.
    rewrite (baseSet_container false (VObj o) ["state"; stateVariable] v r ltac:(done) H).
    by apply (baseSet_again _ (VObj o)).
  - intros r keys' H. unfold updateStateForMappingType in *.
    apply pair_equal_spec in H as [H <-]. f_equal.
    apply rbind_Ok in H as [object [Hc H]].
    pose proof (cloneDeep_plain _ _ Hc) as Ho. apply cloneDeep_Ok in Hc as ->.
    change (baseSet true (VObj o) ("state" :: stateVariable :: keys) v = Ok r) in H.
    rewrite (cloneDeep_of_plain r) by exact (baseSet_plain _ _ _ _ _ Ho Hv H). cbn [rbind].
    unfold setWith_Object.
    rewrite (baseSet_container true (VObj o) ("state" :: stateVariable :: keys) v r
               ltac:(done) H).
    by apply (baseSet_again _ (VObj o)).
Qed.

(** ** Uniqueness, and an operation on a triple that exists *)








(** * The theorems at work on the run of contract [C] *)


Lemma merge_entry_witness :
  NoDup (keys MergeExamples.b) /\
  merge (VObj MergeExamples.a) (VObj MergeExamples.b) = Ok (VObj MergeExamples.ab) /\
  prop_get "xs" MergeExamples.b = Some (VArr [VInt 9]) /\
  exists zs, prop_get "xs" MergeExamples.ab = Some (VArr zs) /\ length zs = 3%nat.
Proof.
  assert (NoDup (keys MergeExamples.b)) as Hnd by (apply nodupb_NoDup; reflexivity).
  split; [exact Hnd|]. split; [reflexivity|]. split; [reflexivity|].
  destruct (merge_entry MergeExamples.a MergeExamples.b _ "xs" (VArr [VInt 9])
              Hnd eq_refl eq_refl)
    as [o [v [Ho [_ [Hv [zs [Hzs [Hlen _]]]]]]]].
  injection Ho as Ho. subst o v. exists zs. split; [exact Hv|exact Hlen].
Defined.

Lemma createCheckpoint_pruning_gate_witness :
  exists ss b,
    truthy VUndef = false /\
    syncStatus Scenario.w1 = Some ss /\
    lookup_block Scenario.w1 (target_hash (Some "h120") ss) = Some b /\
    SyncStatus.latestCanonicalBlockNumber ss < BlockProgress.blockNumber b /\
    exists msg, createCheckpoint noHooks "C" (Some "h120") VUndef (Some 5) Scenario.w1
                = (Throw (AssertionError msg), Scenario.w1).
Proof.
  eexists _, _. split; [reflexivity|]. split; [vm_compute; reflexivity|].
  split; [vm_compute; reflexivity|]. split; [vm_compute; reflexivity|].
  eapply createCheckpoint_pruning_gate.
  - reflexivity.
  - vm_compute; reflexivity.
  - vm_compute; reflexivity.
  - left. vm_compute; reflexivity.
Defined.

Lemma createCheckpoint_interval_gate_witness :
  exists ss b cp,
    syncStatus Scenario.w3 = Some ss /\
    lookup_block Scenario.w3 (target_hash (Some "h105") ss) = Some b /\
    latest_checkpoint Scenario.w3 "C" (Some (BlockProgress.blockNumber b)) = Some cp /\
    BlockProgress.blockNumber b - blockNumberOf cp < 10 /\
    createCheckpoint noHooks "C" (Some "h105") VUndef (Some 10) Scenario.w3
      = (Ok None, Scenario.w3).
Proof.
  eexists _, _, _. split; [vm_compute; reflexivity|].
  split; [vm_compute; reflexivity|]. split; [vm_compute; reflexivity|].
  split; [vm_compute; reflexivity|].
  eapply createCheckpoint_interval_gate.
  - reflexivity.
  - vm_compute; reflexivity.
  - vm_compute; reflexivity.
  - reflexivity.
  - vm_compute. discriminate.
  - vm_compute; reflexivity.
  - vm_compute; reflexivity.
Defined.

Lemma createDiffStaged_twice_witness :
  wf (VObj Scenario.staged) /\ plain (VObj Scenario.staged) /\
  prop_get "meta" Scenario.staged = None /\
  createDiffStaged "C" "h105" (VObj Scenario.staged) Scenario.w1 = (Ok tt, Scenario.w2) /\
  createDiffStaged "C" "h105" (VObj Scenario.staged) Scenario.w2 = (Ok tt, Scenario.w2).
Proof.
  assert (wf (VObj Scenario.staged)) as Hwf by (apply wfb_wf; reflexivity).
  assert (plain (VObj Scenario.staged)) as Hpl by reflexivity.
  assert (createDiffStaged "C" "h105" (VObj Scenario.staged) Scenario.w1
          = (Ok tt, Scenario.w2)) as H1 by (vm_compute; reflexivity).
  split; [exact Hwf|]. split; [exact Hpl|]. split; [reflexivity|]. split; [exact H1|].
  exact (proj1 (createDiffStaged_twice "C" "h105" Scenario.staged Scenario.w1 Scenario.w2
                  Hwf Hpl eq_refl H1)).
Defined.

Lemma identifier_deterministic_witness :
  wf MergeExamples.p /\ wf MergeExamples.q /\ struct_eq MergeExamples.p MergeExamples.q /\
  MergeExamples.p <> MergeExamples.q /\
  encode MergeExamples.p = encode MergeExamples.q /\
  identifier MergeExamples.p = identifier MergeExamples.q.
Proof.
  assert (wf MergeExamples.p) as Ha by (apply wfb_wf; reflexivity).
  assert (wf MergeExamples.q) as Hb by (apply wfb_wf; reflexivity).
  assert (struct_eq MergeExamples.p MergeExamples.q) as Hab.
  { constructor. intros k. simpl.
    destruct (String.eqb k "balance") eqn:E1; destruct (String.eqb k "owner") eqn:E2;
      try (repeat constructor).
    apply String.eqb_eq in E1, E2. congruence. }
  split; [exact Ha|]. split; [exact Hb|]. split; [exact Hab|]. split; [discriminate|].
  destruct (identifier_deterministic _ _ Ha Hb Hab) as [He [Hi _]]. by split.
Defined.

Lemma createDiff_after_checkpoint_witness :
  no_earlier_checkpoint StagedAtCheckpoint.w "C" "h100" /\
  (exists e, createDiff "C" "h100" (Scenario.state_of [("balance", VInt 1)]) StagedAtCheckpoint.w
             = (Throw e, StagedAtCheckpoint.w)) /\
  (exists e w', finalizeDiffStaged "h100" StagedAtCheckpoint.w = (Throw e, w') /\
                rows_of "C" w' = rows_of "C" StagedAtCheckpoint.w).
Proof.
  assert (no_earlier_checkpoint StagedAtCheckpoint.w "C" "h100") as H.
  { right. eexists. split; vm_compute; reflexivity. }
  split; [exact H|].
  destruct (createDiff_after_checkpoint "C" "h100" StagedAtCheckpoint.w H) as [Ha Hb].
  split; [apply Ha|].
  eapply Hb.
  - vm_compute; reflexivity.
  - vm_compute. left. reflexivity.
  - reflexivity.
  - vm_compute. discriminate.
Defined.

Lemma created_block_parent_witness :
  exists w' row p,
    run noHooks (Checkpoint "C" (Some "h110") VUndef (Some 5)) Scenario.w3 = (Ok tt, w') /\
    In row (ipldBlocks w') /\ ~ In row (ipldBlocks Scenario.w3) /\
    current Scenario.w3 (IPLDBlock.block row) (IPLDBlock.contractAddress row) "checkpoint" = [] /\
    parent_of Scenario.w3 (IPLDBlock.block row) (IPLDBlock.contractAddress row) = Some p /\
    blockNumberOf p = 105 /\
    parent_link (IPLDBlock.data row) = Ok (VStr (IPLDBlock.cid p)).
Proof.
  eexists _, _, _.
  assert (forall A B C D E F G : Prop, A -> B -> C -> D -> E -> F -> (A -> B -> C -> D -> E -> G) ->
            A /\ B /\ C /\ D /\ E /\ F /\ G) as Hand by tauto.
  apply Hand.
  - vm_compute; reflexivity.
  - vm_compute. right. right. left. reflexivity.
  - vm_compute. intros [H|[H|[]]]; discriminate H.
  - vm_compute; reflexivity.
  - vm_compute; reflexivity.
  - reflexivity.
  - intros Hrun Hin Hnew Hcur Hp.
    destruct (created_block_parent noHooks _ _ _ _ _ noHooks_inert Hrun Hin Hnew Hcur)
      as [Hlink _].
    rewrite Hlink, Hp. reflexivity.
Defined.

Lemma createCheckpoint_compacts_witness :
  exists row,
    createCheckpoint noHooks "C" (Some "h110") VUndef (Some 5) Scenario.w3
      = (Ok (Some "h110"), with_ipldBlocks Scenario.w3 (ipldBlocks Scenario.w3 ++ [row])) /\
    IPLDBlock.kind row = "checkpoint" /\ blockNumberOf row = 110 /\
    member "state" (IPLDBlock.data row) = Ok (VObj [("balance", VInt 50)]).
Proof.
  pose (ss := {| SyncStatus.latestIndexedBlockHash := "h120";
                 SyncStatus.latestIndexedBlockNumber := 120;
                 SyncStatus.latestCanonicalBlockHash := "h110";
                 SyncStatus.latestCanonicalBlockNumber := 110;
                 SyncStatus.chainHeadBlockHash := "h120";
                 SyncStatus.chainHeadBlockNumber := 120 |}).
  pose (b := Scenario.blk 110 "h110").
  destruct (latest_checkpoint Scenario.w3 "C" (Some 110)) as [cp|] eqn:Hcp;
    [|vm_compute in Hcp; discriminate Hcp].
  assert (Hcp' := Hcp). vm_compute in Hcp'. injection Hcp' as Hcp'.
  destruct (createCheckpoint_compacts noHooks "C" (Some "h110") VUndef (Some 5) Scenario.w3
              ss b cp
              (List.filter (diff_after "C" 100) (ipldBlocks Scenario.w3))
              (VObj [("balance", VInt 0)]) [VObj [("balance", VInt 50)]]
              (VObj [("balance", VInt 50)])) as [row [Hrun [Hb [Hc [Hk [Hstate _]]]]]].
  - reflexivity.
  - vm_compute; reflexivity.
  - vm_compute; reflexivity.
  - reflexivity.
  - vm_compute. discriminate.
  - exact Hcp.
  - rewrite <- Hcp'. vm_compute; reflexivity.
  - reflexivity.
  - rewrite <- Hcp'. vm_compute. reflexivity.
  - vm_compute. repeat constructor.
  - rewrite <- Hcp'. vm_compute; reflexivity.
  - vm_compute. repeat constructor.
  - vm_compute; reflexivity.
  - vm_compute; reflexivity.
  - vm_compute. discriminate.
  - exists row. split; [exact Hrun|]. split; [exact Hk|].
    split; [unfold blockNumberOf; by rewrite Hb|]. rewrite Hstate. reflexivity.
Defined.

Lemma finalization_complete_witness :
  exists b stagedBlock d,
    lookup_block Scenario.w2 "h105" = Some b /\
    staged_of Scenario.w2 b = [stagedBlock] /\
    processCanonicalBlock noHooks "h105" Scenario.w2 = (Ok tt, Scenario.w3) /\
    In d (ipldBlocks Scenario.w3) /\ IPLDBlock.kind d = "diff" /\
    IPLDBlock.block d = b /\
    member "state" (IPLDBlock.data d) = member "state" (IPLDBlock.data stagedBlock) /\
    forall r, In r (ipldBlocks Scenario.w3) ->
              ~ (blockNumberOf r = 105 /\ IPLDBlock.kind r = "diff_staged").
Proof.
  pose (b := Scenario.blk 105 "h105").
  assert (lookup_block Scenario.w2 "h105" = Some b) as Hb by (vm_compute; reflexivity).
  destruct (staged_of Scenario.w2 b) as [|s [|]] eqn:Hs;
    [vm_compute in Hs; discriminate Hs| |vm_compute in Hs; discriminate Hs].
  assert (Hs' := Hs). vm_compute in Hs'. injection Hs' as Hs'.
  destruct (finalization_complete noHooks "h105" Scenario.w2 Scenario.w3 b) as [Hd Hnone].
  - reflexivity.
  - exact Hb.
  - rewrite Hs. simpl. apply NoDup_singleton.
  - rewrite Hs. intros s' [<-|[]]. rewrite <- Hs'. split; vm_compute; reflexivity.
  - vm_compute; reflexivity.
  - assert (In s (staged_of Scenario.w2 b)) as Hins by (rewrite Hs; by left).
    destruct (Hd s Hins) as [d [Hin [Hblock [_ [Hk Hstate]]]]].
    exists b, s, d. split; [exact Hb|]. split; [exact Hs|].
    split; [vm_compute; reflexivity|]. split; [exact Hin|]. split; [exact Hk|].
    split; [exact Hblock|]. split; [exact Hstate|]. exact Hnone.
Defined.

(** ** The rest of the run: compaction, the codec, the jobs and the state helpers *)

Lemma mergeDiffs_throws_witness :
  exists e,
    mergeDiffs (VObj [("balance", VInt 0)])
      (diffs_after History.w4 "C" 100 ++ [History.broken]) = Throw e /\
    exists ds1 d ds2 S,
      diffs_after History.w4 "C" 100 ++ [History.broken] = ds1 ++ d :: ds2 /\
      mergeDiffs (VObj [("balance", VInt 0)]) ds1 = Ok S /\
      (IPLDBlock.data d = VUndef \/ IPLDBlock.data d = VNull) /\
      member "state" (IPLDBlock.data d) = Throw e.
Proof.
  eexists.
  assert (forall A B : Prop, A -> (A -> B) -> A /\ B) as Hand by tauto.
  apply Hand; [vm_compute; reflexivity|].
  intros H. exact (proj1 (mergeDiffs_throws _ _ _) H).
Defined.

Lemma mergeDiffs_keys_witness :
  exists S,
    mergeDiffs (VObj [("balance", VInt 0)]) (diffs_after History.w4 "C" 100) = Ok S /\
    (has_key "owner" S <->
     has_key "owner" (VObj [("balance", VInt 0)]) \/
     exists d D, In d (diffs_after History.w4 "C" 100) /\
                 state_of_row d = Ok D /\ has_key "owner" D).
Proof.
  eexists.
  assert (forall A B : Prop, A -> (A -> B) -> A /\ B) as Hand by tauto.
  apply Hand; [vm_compute; reflexivity|].
  intros H. exact (mergeDiffs_keys _ _ _ "owner" H).
Defined.

Lemma mergeDiffs_last_scalar_witness :
  exists d1 d2 S,
    diffs_after History.w4 "C" 100 = [] ++ d1 :: [d2] /\
    mergeDiffs (VObj [("balance", VInt 0)]) ([] ++ d1 :: [d2]) = Ok S /\
    state_of_row d1 = Ok (VObj [("balance", VInt 50)]) /\
    member "balance" S = Ok (VInt 50).
Proof.
  eexists _, _, _.
  assert (forall A B C D : Prop, A -> B -> C -> (B -> C -> D) -> A /\ B /\ C /\ D) as Hand
    by tauto.
  apply Hand.
  - vm_compute; reflexivity.
  - vm_compute; reflexivity.
  - vm_compute; reflexivity.
  - intros Hm Hd.
    eapply (mergeDiffs_last_scalar _ [] _ _ _ "balance" _ _ Hm Hd).
    + apply nodupb_NoDup. reflexivity.
    + reflexivity.
    + exact I.
    + constructor; [|constructor]. intros D' HD'. vm_compute in HD'. injection HD' as <-.
      simpl. intros H. apply list_elem_of_In in H. simpl in H.
      destruct H as [H|[]]. discriminate H.
Defined.

Lemma update_keeps_meta_witness :
  exists cur row,
    current Scenario.w2 (Scenario.blk 105 "h105") "C" "diff_staged" = [cur] /\
    prop_get "meta" Scenario.staged = None /\
    prepared Scenario.w2 (Scenario.blk 105 "h105") "C" (VObj Scenario.staged) "diff_staged"
      = Ok row /\
    member "meta" (IPLDBlock.data row) = rmap canon (member "meta" (IPLDBlock.data cur)) /\
    meta_kind (IPLDBlock.data cur) = Ok (VStr (IPLDBlock.kind row)).
Proof.
  eexists _, _.
  assert (forall A B C D : Prop, A -> B -> C -> (A -> B -> C -> D) -> A /\ B /\ C /\ D) as Hand
    by tauto.
  apply Hand.
  - vm_compute; reflexivity.
  - reflexivity.
  - vm_compute; reflexivity.
  - intros Hcur Hd Hrow. exact (update_keeps_meta _ _ _ _ _ _ _ Hcur Hd Hrow).
Defined.

Lemma identifier_string_shape_witness :
  exists cid,
    identifier MergeExamples.p = Some cid /\
    String.length (cid_toString cid) = 59%nat /\
    String.prefix "bafyrei" (cid_toString cid) = true.
Proof.
  eexists.
  assert (forall A B : Prop, A -> (A -> B) -> A /\ B) as Hand by tauto.
  apply Hand; [vm_compute; reflexivity|].
  intros H. exact (identifier_string_shape _ _ H).
Defined.

Lemma noHooks_keeps_sealed : hook_keeps all_sealed noHooks.
Proof. intros c h w r w' [= _ <-]. done. Defined.

Lemma all_sealed_w1 : all_sealed Scenario.w1.
Proof. repeat constructor; vm_compute; reflexivity. Qed.


Lemma staging_keeps_sealed_witness :
  all_sealed Scenario.w1 /\
  exists w', run_ops noHooks Scenario.ops Scenario.w1 = Some w' /\ all_sealed w'.
Proof.
  split; [exact all_sealed_w1|]. eexists. split; [vm_compute; reflexivity|].
  eapply (staging_keeps_sealed noHooks Scenario.ops Scenario.w1 _
            noHooks_keeps_sealed all_sealed_w1).
  vm_compute; reflexivity.
Defined.

Lemma decode_encode_witness :
  exists bs,
    ipld (VObj [("b", VInt 1); ("10", VInt 2)]) /\
    encode (VObj [("b", VInt 1); ("10", VInt 2)]) = Some bs /\
    decode bs = Ok (VObj [("10", VInt 2); ("b", VInt 1)]) /\
    struct_eq (VObj [("b", VInt 1); ("10", VInt 2)]) (VObj [("10", VInt 2); ("b", VInt 1)]) /\
    encode (VObj [("10", VInt 2); ("b", VInt 1)]) = Some bs.
Proof.
  assert (ipld (VObj [("b", VInt 1); ("10", VInt 2)])) as Hp
    by (split; [apply wfb_wf|]; reflexivity).
  eexists. split; [exact Hp|].
  assert (forall A B : Prop, A -> (A -> B) -> A /\ B) as Hand by tauto.
  apply Hand; [vm_compute; reflexivity|].
  intros He. exact (decode_encode _ _ Hp He).
Defined.

Lemma encode_injective_witness :
  exists bs,
    wf MergeExamples.p /\ wf MergeExamples.q /\
    encode MergeExamples.p = Some bs /\ encode MergeExamples.q = Some bs /\
    MergeExamples.p <> MergeExamples.q /\
    struct_eq MergeExamples.p MergeExamples.q.
Proof.
  assert (wf MergeExamples.p) as Ha by (apply wfb_wf; reflexivity).
  assert (wf MergeExamples.q) as Hb by (apply wfb_wf; reflexivity).
  eexists. split; [exact Ha|]. split; [exact Hb|].
  assert (forall A B C D : Prop, A -> B -> C -> (A -> B -> D) -> A /\ B /\ C /\ D) as Hand
    by tauto.
  apply Hand.
  - vm_compute; reflexivity.
  - vm_compute; reflexivity.
  - discriminate.
  - intros Ea Eb. exact (encode_injective _ _ _ Ha Hb Ea Eb).
Defined.

Lemma run_frame_witness :
  run noHooks (DiffStaged "C" "h105" (VObj Scenario.staged)) Scenario.w1
    = (Ok tt, Scenario.w2) /\
  blocks Scenario.w2 = blocks Scenario.w1 /\
  (forall c, c <> "C" -> rows_of c Scenario.w2 = rows_of c Scenario.w1) /\
  length (ipldBlocks Scenario.w2) = 2%nat.
Proof.
  assert (run noHooks (DiffStaged "C" "h105" (VObj Scenario.staged)) Scenario.w1
          = (Ok tt, Scenario.w2)) as Hrun by (vm_compute; reflexivity).
  split; [exact Hrun|].
  destruct (run_frame noHooks _ _ _ _ noHooks_inert Hrun) as [Hb [_ [Hrows _]]].
  split; [exact Hb|]. split; [exact Hrows|]. reflexivity.
Defined.

Lemma staged_block_byHash_witness :
  createDiffStaged "C" "h105" (VObj Scenario.staged) Scenario.w1 = (Ok tt, Scenario.w2) /\
  exists row rows,
    getIPLDBlocksByHash "h105" Scenario.w2 = (Ok rows, Scenario.w2) /\
    In row rows /\ IPLDBlock.contractAddress row = "C" /\ sealed row /\
    Forall (fun r => blockHashOf r = "h105") rows.
Proof.
  assert (createDiffStaged "C" "h105" (VObj Scenario.staged) Scenario.w1
          = (Ok tt, Scenario.w2)) as H by (vm_compute; reflexivity).
  split; [exact H|]. exact (staged_block_byHash _ _ _ _ _ H).
Defined.

Lemma finalizeDiffStaged_clears_height_witness :
  lookup_block Scenario.w2 "h105" = Some (Scenario.blk 105 "h105") /\
  finalizeDiffStaged "h105" Scenario.w2 = (Ok tt, Scenario.w3) /\
  (forall r, In r (ipldBlocks Scenario.w3) -> ~ staged_at_height 105 r) /\
  (forall r, In r (ipldBlocks Scenario.w3) ->
     In r (ipldBlocks Scenario.w2) \/ IPLDBlock.block r = Scenario.blk 105 "h105").
Proof.
  assert (lookup_block Scenario.w2 "h105" = Some (Scenario.blk 105 "h105")) as Hb
    by (vm_compute; reflexivity).
  assert (finalizeDiffStaged "h105" Scenario.w2 = (Ok tt, Scenario.w3)) as H
    by (vm_compute; reflexivity).
  split; [exact Hb|]. split; [exact H|].
  exact (finalizeDiffStaged_clears_height _ _ _ _ Hb H).
Defined.

Lemma createCheckpoint_with_data_witness :
  exists ss b row,
    syncStatus Scenario.w0 = Some ss /\
    lookup_block Scenario.w0 (target_hash (Some "h108") ss) = Some b /\
    BlockProgress.isComplete b = false /\
    current Scenario.w0 b "C" "checkpoint" = [] /\
    createCheckpoint noHooks "C" (Some "h108") (VObj [("state", VObj [])]) (Some 5) Scenario.w0
      = (Ok None, with_ipldBlocks Scenario.w0 (ipldBlocks Scenario.w0 ++ [row])) /\
    IPLDBlock.kind row = "checkpoint" /\ blockNumberOf row = 108.
Proof.
  eexists _, _.
  assert (forall (P : IPLDBlock.t -> Prop) (A B C D : Prop), A -> B -> C -> D ->
            (A -> B -> D -> exists row, P row) ->
            exists row, A /\ B /\ C /\ D /\ P row) as Hand.
  { intros P A B C D a b c d H. destruct (H a b d) as [row Hrow]. by exists row. }
  apply (Hand (fun row =>
    createCheckpoint noHooks "C" (Some "h108") (VObj [("state", VObj [])]) (Some 5) Scenario.w0
      = (Ok None, with_ipldBlocks Scenario.w0 (ipldBlocks Scenario.w0 ++ [row])) /\
    IPLDBlock.kind row = "checkpoint" /\ blockNumberOf row = 108)).
  - vm_compute; reflexivity.
  - vm_compute; reflexivity.
  - reflexivity.
  - vm_compute; reflexivity.
  - intros Hss Hb Hcur.
    destruct (createCheckpoint_with_data noHooks "C" (Some "h108") [("state", VObj [])]
                (Some 5) Scenario.w0 _ _ Hss Hb Hcur) as [row [Hrun [Hblock [_ [Hk _]]]]].
    + vm_compute. discriminate.
    + exists row. split; [exact Hrun|]. split; [exact Hk|].
      unfold blockNumberOf. rewrite Hblock. reflexivity.
Defined.

Lemma createCheckpoint_interval_nonpositive_witness :
  -5 <= 0 /\
  createCheckpoint noHooks "C" (Some "h110") VUndef (Some (-5)) Scenario.w3
    = createCheckpoint noHooks "C" (Some "h110") VUndef None Scenario.w3.
Proof.
  split; [lia|]. apply createCheckpoint_interval_nonpositive. lia.
Defined.

Lemma createCheckpoint_again_witness :
  exists cp,
    latest_checkpoint History.w5 "C" (Some 110) = Some cp /\
    blockNumberOf cp = 110 /\
    diffs_after History.w5 "C" 110 = [] /\
    createCheckpoint noHooks "C" (Some "h110") VUndef None History.w5
      = (Ok (Some "h110"), History.w5) /\
    createCheckpoint noHooks "C" (Some "h110") VUndef (Some 5) History.w5
      = (Ok None, History.w5).
Proof.
  pose (ss := {| SyncStatus.latestIndexedBlockHash := "h120";
                 SyncStatus.latestIndexedBlockNumber := 120;
                 SyncStatus.latestCanonicalBlockHash := "h110";
                 SyncStatus.latestCanonicalBlockNumber := 110;
                 SyncStatus.chainHeadBlockHash := "h120";
                 SyncStatus.chainHeadBlockNumber := 120 |}).
  pose (b := Scenario.blk 110 "h110").
  destruct (latest_checkpoint History.w5 "C" (Some 110)) as [cp|] eqn:Hcp;
    [|vm_compute in Hcp; discriminate Hcp].
  assert (Hcp' := Hcp). vm_compute in Hcp'. injection Hcp' as Hcp'.
  assert (forall interval,
    createCheckpoint noHooks "C" (Some "h110") VUndef interval History.w5
    = (Ok (if skips interval b cp then None else Some (BlockProgress.blockHash b)),
       History.w5)) as Hrun.
  { intros interval.
    apply (createCheckpoint_again noHooks "C" (Some "h110") VUndef interval History.w5
             ss b cp
             [("meta", meta_of "C" "checkpoint"
                         (latest_of (List.filter (latest_matches "C" None (Some 110))
                                       (ipldBlocks History.w4))) b);
              ("state", VObj [("owner", VStr "a"); ("balance", VInt 50)])]
             (VObj [("owner", VStr "a"); ("balance", VInt 50)])).
    - reflexivity.
    - reflexivity.
    - vm_compute; reflexivity.
    - reflexivity.
    - vm_compute. discriminate.
    - exact Hcp.
    - reflexivity.
    - rewrite <- Hcp'. vm_compute; reflexivity.
    - rewrite <- Hcp'. vm_compute; reflexivity.
    - rewrite <- Hcp'. reflexivity.
    - rewrite <- Hcp'. split; [|split]; vm_compute; reflexivity.
    - rewrite <- Hcp'. vm_compute; reflexivity.
    - vm_compute; reflexivity.
    - apply wfb_wf. reflexivity.
    - reflexivity. }
  exists cp. split; [reflexivity|]. split; [rewrite <- Hcp'; reflexivity|].
  split; [vm_compute; reflexivity|].
  split; [rewrite (Hrun None); reflexivity|].
  rewrite (Hrun (Some 5)). rewrite <- Hcp'. reflexivity.
Defined.

Lemma processCLICheckpoint_pushes_witness :
  unique_keys History.w4 /\ all_sealed History.w4 /\
  createCheckpoint noHooks "C" (Some "h110") VUndef None History.w4
    = (Ok (Some "h110"), History.w5) /\
  processCLICheckpoint noHooks (fun _ => ret tt) "C" (Some "h110") History.w4
    = (Ok "h110", History.w5).
Proof.
  assert (unique_keys History.w4) as Hu.
  { unfold unique_keys. apply (bool_decide_unpack _). vm_compute. reflexivity. }
  assert (all_sealed History.w4) as Hs by (repeat constructor; vm_compute; reflexivity).
  assert (createCheckpoint noHooks "C" (Some "h110") VUndef None History.w4
          = (Ok (Some "h110"), History.w5)) as Hrun by (vm_compute; reflexivity).
  split; [exact Hu|]. split; [exact Hs|]. split; [exact Hrun|].
  destruct (processCLICheckpoint_pushes noHooks (fun _ => ret tt) "C" (Some "h110")
              History.w4 History.w5 "h110" Hu Hs (fun _ => eq_refl) Hrun)
    as [row [_ [_ [_ Hcli]]]]; [discriminate|].
  rewrite Hcli. reflexivity.
Defined.

Lemma processCLICheckpoint_replaced_witness :
  createStateCheckpoint History.claiming "C" "h110" Scenario.w3 = (Ok true, Scenario.w3) /\
  current Scenario.w3 (Scenario.blk 110 "h110") "C" "checkpoint" = [] /\
  exists msg,
    processCLICheckpoint History.claiming (fun _ => ret tt) "C" (Some "h110") Scenario.w3
      = (Throw (TypeError msg), Scenario.w3).
Proof.
  split; [reflexivity|]. split; [vm_compute; reflexivity|].
  eapply (processCLICheckpoint_replaced History.claiming (fun _ => ret tt) "C" (Some "h110")
            Scenario.w3 Scenario.w3 _ (Scenario.blk 110 "h110") (Scenario.blk 110 "h110")).
  - vm_compute; reflexivity.
  - vm_compute; reflexivity.
  - reflexivity.
  - vm_compute. discriminate.
  - vm_compute; reflexivity.
  - reflexivity.
  - discriminate.
  - vm_compute; reflexivity.
  - vm_compute; reflexivity.
Defined.

Lemma processCheckpoint_idle_witness :
  Forall (nothing_due Scenario.w3 10 (Scenario.blk 105 "h105") 105) History.contracts /\
  processCheckpoint noHooks (ret History.contracts)
    (fun _ _ => throw (AssertionError "no initial checkpoint is due"))
    10 "h105" 105 Scenario.w3 = (Ok tt, Scenario.w3) /\
  processCheckpoint noHooks (throw (AssertionError "the contracts are not read"))
    (fun _ _ => ret tt) 0 "h105" 105 Scenario.w3 = (Ok tt, Scenario.w3).
Proof.
  assert (Forall (nothing_due Scenario.w3 10 (Scenario.blk 105 "h105") 105) History.contracts)
    as Hall.
  { constructor; [|constructor; [|constructor]].
    - right. right. split; [vm_compute; discriminate|].
      eexists. split; [vm_compute; reflexivity|]. vm_compute. reflexivity.
    - left. reflexivity. }
  split; [exact Hall|]. split.
  - eapply (processCheckpoint_idle noHooks _ _ 10 "h105" 105 Scenario.w3 _
              (Scenario.blk 105 "h105") History.contracts).
    right. split; [reflexivity|]. split; [reflexivity|]. split; [vm_compute; reflexivity|].
    split; [reflexivity|]. split; [vm_compute; discriminate|]. exact Hall.
  - eapply (processCheckpoint_idle noHooks _ _ 0 "h105" 105 Scenario.w3
              {| SyncStatus.latestIndexedBlockHash := "";
                 SyncStatus.latestIndexedBlockNumber := 0;
                 SyncStatus.latestCanonicalBlockHash := "";
                 SyncStatus.latestCanonicalBlockNumber := 0;
                 SyncStatus.chainHeadBlockHash := "";
                 SyncStatus.chainHeadBlockNumber := 0 |}
              (Scenario.blk 105 "h105") []).
    left. lia.
Defined.

Lemma update_then_read_witness :
  exists r1 r2,
    updateStateForElementaryType (VObj History.balances) "totalSupply" (VInt 3) = Ok r1 /\
    at_path ["state"; "totalSupply"] r1 = Some (VInt 3) /\
    updateStateForMappingType (VObj History.balances) "balances" ["0xb"] (VInt 3)
      = (Ok r2, ["state"; "balances"; "0xb"]) /\
    at_path ["state"; "balances"; "0xb"] r2 = Some (VInt 3).
Proof.
  eexists _, _.
  assert (forall A B C D : Prop, A -> C -> (A -> B) -> (C -> D) -> A /\ B /\ C /\ D) as Hand
    by tauto.
  apply Hand.
  - vm_compute; reflexivity.
  - vm_compute; reflexivity.
  - intros H.
    exact (proj1 (update_then_read History.balances "totalSupply" [] (VInt 3)) _ H).
  - intros H.
    exact (proj2 (proj2 (update_then_read History.balances "balances" ["0xb"] (VInt 3))
                   _ _ H)).
Defined.

Lemma update_keeps_the_rest_witness :
  exists r,
    updateStateForMappingType (VObj History.balances) "balances" ["0xb"] (VInt 3)
      = (Ok r, ["state"; "balances"; "0xb"]) /\
    diverges ["state"; "balances"; "0xa"] ["state"; "balances"; "0xb"] /\
    at_path ["state"; "balances"; "0xa"] r = Some (VInt 1).
Proof.
  eexists.
  assert (forall A B C : Prop, A -> B -> (A -> B -> C) -> A /\ B /\ C) as Hand by tauto.
  apply Hand.
  - vm_compute; reflexivity.
  - simpl. right. split; [reflexivity|]. right. split; [reflexivity|]. left. discriminate.
  - intros H Hd.
    rewrite (proj2 (update_keeps_the_rest History.balances "balances" ["0xb"]
                      ["state"; "balances"; "0xa"] (VInt 3)) _ _ H Hd).
    reflexivity.
Defined.

Lemma mapping_update_makes_no_array_witness :
  exists r,
    array_free (VObj History.balances) = true /\
    updateStateForMappingType (VObj History.balances) "balances" ["0"; "1"] (VInt 3)
      = (Ok r, ["state"; "balances"; "0"; "1"]) /\
    array_free r = true.
Proof.
  eexists. split; [reflexivity|].
  assert (forall A B : Prop, A -> (A -> B) -> A /\ B) as Hand by tauto.
  apply Hand; [vm_compute; reflexivity|].
  intros H.
  exact (mapping_update_makes_no_array History.balances "balances" ["0"; "1"] _ (VInt 3) _
           eq_refl eq_refl H).
Defined.

Lemma staged_mapping_update_witness :
  exists u r,
    updateStateForMappingType (VObj []) "balances" ["7"] (VInt 9)
      = (Ok u, ["state"; "balances"; "7"]) /\
    merge (VObj History.balances) u = Ok r /\
    at_path ["state"; "balances"; "7"] r = Some (VInt 9) /\
    at_path ["state"; "balances"; "0xa"] r = Some (VInt 1).
Proof.
  eexists _, _.
  assert (forall A B C D : Prop, A -> B -> (A -> B -> C /\ D) -> A /\ B /\ C /\ D) as Hand
    by tauto.
  apply Hand.
  - vm_compute; reflexivity.
  - vm_compute; reflexivity.
  - intros Hu Hm.
    destruct (staged_mapping_update History.balances "balances" ["7"] _ (VInt 9) _ _ Hu Hm)
      as [[x [Hx [_ Hs]]] Hfr].
    split.
    + rewrite Hx, (Hs I). reflexivity.
    + rewrite (Hfr ["state"; "balances"; "0xa"]); [reflexivity|].
      simpl. right. split; [reflexivity|]. right. split; [reflexivity|]. left. discriminate.
Defined.

Lemma update_again_witness :
  exists r,
    plain (VInt 3) /\
    updateStateForMappingType (VObj History.balances) "balances" ["0xb"] (VInt 3)
      = (Ok r, ["state"; "balances"; "0xb"]) /\
    updateStateForMappingType r "balances" ["0xb"] (VInt 3)
      = (Ok r, ["state"; "balances"; "0xb"]).
Proof.
  eexists. split; [reflexivity|].
  assert (forall A B : Prop, A -> (A -> B) -> A /\ B) as Hand by tauto.
  apply Hand; [vm_compute; reflexivity|].
  intros H.
  exact (proj2 (update_again History.balances "balances" ["0xb"] (VInt 3) eq_refl) _ _ H).
Defined.

Lemma decode_rejects_more_witness :
  exists bs msg,
    ipld MergeExamples.p /\ encode MergeExamples.p = Some bs /\
    decode (bs ++ [xf6]) = Throw (CodecError msg).
Proof.
  assert (ipld MergeExamples.p) as Hp by (split; [apply wfb_wf|]; reflexivity).
  destruct (encode MergeExamples.p) as [bs|] eqn:He; [|vm_compute in He; discriminate He].
  destruct (decode_rejects_more MergeExamples.p bs xf6 [] Hp He) as [msg Hmsg].
  exists bs, msg. split; [exact Hp|]. split; [reflexivity|]. exact Hmsg.
Defined.
